(** * ExaTN numerics: a shallow embedding of the METIS graph view, the tensor
    operation headers, connected tensors, the reconstructor driver and the MPI
    communicator proxy, with the properties of the specification checked
    against them.

    Conventions.
    - [idx_t] (METIS) and [std::size_t] values are integers of [Z]; signed
      overflow is undefined behaviour in C++, so arithmetic is the one of [Z].
      A conversion between the two types wraps and is written out
      ([to_idx_t], [to_size_t]).
    - A [std::vector<idx_t>] or a C array is a [list Z]; an access outside the
      vector is undefined behaviour in C++ and is the fault [OutOfBounds] here.
    - [assert(e)] with [e] false is the fault [AssertionFailed].
    - A [while] loop runs on fuel; running out of it is the fault [OutOfFuel].
    - A [double] is a binary64 float of the kernel ([PrimFloat.float]). *)

From Stdlib Require Import ZArith Floats Strings.Byte String.
From stdpp Require Import base list sorting gmap.

Local Open Scope Z_scope.

(** ** Faults and results *)

Inductive fault : Type :=
| AssertionFailed
| OutOfBounds
| OutOfFuel.

Inductive res (A : Type) : Type :=
| Ok (a : A)
| Err (f : fault).
Arguments Ok {A} a.
Arguments Err {A} f.

Definition bind {A B : Type} (m : res A) (k : A -> res B) : res B :=
  match m with
  | Ok a => k a
  | Err f => Err f
  end.

Declare Scope res_scope.
Delimit Scope res_scope with res.
Notation "'do' x <- e ;; k" := (bind e (fun x => k))
  (at level 10, x name, e at level 99, k at level 200) : res_scope.
Notation "'do' ' p <- e ;; k" := (bind e (fun x => match x with p => k end))
  (at level 10, p pattern, e at level 99, k at level 200) : res_scope.
Local Open Scope res_scope.

(** [assert(b)] *)
Definition assert (b : bool) : res unit :=
  if b then Ok tt else Err AssertionFailed.

(** ** Vectors indexed by (signed) integers *)

Definition vsize (v : list Z) : Z := Z.of_nat (length v).

(** [v[i]] read *)
Definition vget (v : list Z) (i : Z) : res Z :=
  if (0 <=? i) && (i <? vsize v)
  then Ok (nth (Z.to_nat i) v 0)
  else Err OutOfBounds.

(** [v[i] = x] *)
Definition vset (v : list Z) (i : Z) (x : Z) : res (list Z) :=
  if (0 <=? i) && (i <? vsize v)
  then Ok (<[Z.to_nat i := x]> v)
  else Err OutOfBounds.

(** [v.erase(v.begin()+i)] *)
Definition verase (v : list Z) (i : Z) : res (list Z) :=
  if (0 <=? i) && (i <? vsize v)
  then Ok (delete (Z.to_nat i) v)
  else Err OutOfBounds.

(** A local array [idx_t a[n]] (a variable-length array; GNU C++ accepts the
    length 0). Its cells are written before they are read in the code below. *)
Definition valloc (n : Z) : res (list Z) :=
  if 0 <=? n then Ok (replicate (Z.to_nat n) 0) else Err OutOfBounds.

(** ** Counted loops *)

Fixpoint iter_up {St : Type} (n : nat) (i : Z) (body : Z -> St -> res St)
    (s : St) : res St :=
  match n with
  | O => Ok s
  | S n' => do s' <- body i s;; iter_up n' (i + 1) body s'
  end.

(** [for(i = lo; i < hi; ++i) body] *)
Definition for_up {St : Type} (lo hi : Z) (body : Z -> St -> res St)
    (s : St) : res St :=
  iter_up (Z.to_nat (hi - lo)) lo body s.

Fixpoint iter_down {St : Type} (n : nat) (i : Z) (body : Z -> St -> res St)
    (s : St) : res St :=
  match n with
  | O => Ok s
  | S n' => do s' <- body i s;; iter_down n' (i - 1) body s'
  end.

(** [for(i = hi; i >= lo; --i) body] *)
Definition for_down {St : Type} (hi lo : Z) (body : Z -> St -> res St)
    (s : St) : res St :=
  iter_down (Z.to_nat (hi - lo + 1)) hi body s.

(** ** Byte packets (utils/byte_packet.hpp) *)

Module BytePacket.

(** Modelled from the spec: the byte packet and its two templates,
    [appendToBytePacket] and [extractFromBytePacket], are declared in
    byte_packet.hpp, which is not under src. The wire format of the
    specification is "packed little-endian": an item of [n] bytes is stored
    least significant byte first, items follow one another, and they are read
    back in the order in which they were written. *)
Definition t : Type := list byte.

Definition byte_of_Z (z : Z) : byte :=
  match Byte.of_N (Z.to_N z) with
  | Some b => b
  | None => "000"%byte
  end.

(** The [n] low bytes of [x], least significant first. With the floor division
    of [Z] a negative [x] comes out in two's complement. *)
Fixpoint le_bytes (n : nat) (x : Z) : list byte :=
  match n with
  | O => []
  | S n' => byte_of_Z (x mod 256) :: le_bytes n' (x / 256)
  end.

Fixpoint le_value (bs : list byte) : Z :=
  match bs with
  | [] => 0
  | b :: bs' => Z.of_N (Byte.to_N b) + 256 * le_value bs'
  end.

(** Modelled from the spec: [appendToBytePacket(&packet, item)] for an item
    of [n] bytes. *)
Definition appendToBytePacket (n : nat) (packet : t) (item : Z) : t :=
  packet ++ le_bytes n item.

(** Modelled from the spec: [extractFromBytePacket(&packet, item)] for an
    unsigned item of [n] bytes: the item read and the rest of the packet.
    Reading past the end of the packet is a fault. *)
Definition extractFromBytePacket (n : nat) (packet : t) : res (Z * t) :=
  if (n <=? length packet)%nat
  then Ok (le_value (take n packet), drop n packet)
  else Err OutOfBounds.

(** Modelled from the spec: the same for a signed item of [n] bytes (two's
    complement). *)
Definition extractSigned (n : nat) (packet : t) : res (Z * t) :=
  do '(u, packet) <- extractFromBytePacket n packet;;
  Ok (if u <? 2 ^ (8 * Z.of_nat n - 1) then u else u - 2 ^ (8 * Z.of_nat n),
      packet).

End BytePacket.

(** ** The METIS graph view (numerics/metis_graph.cpp) *)

Module MetisGraph.

(** The members of [class MetisGraph] the operations below touch. The METIS
    option array, [tpwgts_] and [ubvec_] are tuning data of the partitioner:
    they are only ever cleared here and are left out. *)
Record t : Type := mk {
  num_vertices_ : Z;
  renumber_ : list Z;
  xadj_ : list Z;
  adjncy_ : list Z;
  vwgt_ : list Z;
  adjwgt_ : list Z;
  partitions_ : list Z;
  part_weights_ : list Z;
  edge_cut_ : Z;
  num_cross_edges_ : Z;
  num_parts_ : Z
}.

(** [MetisGraph::MetisGraph()] followed by [initMetisGraph()]. *)
Definition empty : t :=
  mk 0 [] [0] [] [] [] [] [] 0 0 0.

Definition clearPartitions (g : t) : t :=
  mk (num_vertices_ g) (renumber_ g) (xadj_ g) (adjncy_ g) (vwgt_ g)
     (adjwgt_ g) [] [] 0 0 0.

(** [operator==]: the six members tied together, in this order. *)
Definition eqb (lhs rhs : t) : bool :=
  bool_decide
    ((num_vertices_ lhs, xadj_ lhs, adjncy_ lhs, vwgt_ lhs, adjwgt_ lhs,
      renumber_ lhs)
     = (num_vertices_ rhs, xadj_ rhs, adjncy_ rhs, vwgt_ rhs, adjwgt_ rhs,
        renumber_ rhs)).

(** *** Conversions between [idx_t] and [std::size_t] *)

(** [static_cast<std::size_t>(x)] for an [idx_t] [x]; it is also the value [x]
    takes when it is compared or added to a [std::size_t]. *)
Definition to_size_t (x : Z) : Z := x mod 2 ^ 64.

(** [static_cast<idx_t>(x)] for a [std::size_t] [x], [sizeof_idx_t] being
    [sizeof(idx_t)]; it is also the value a [std::size_t] takes when it is
    stored in a [std::vector<idx_t>]: from [2 ^ (8 * sizeof_idx_t - 1)] on
    it comes out negative. *)
Definition to_idx_t (sizeof_idx_t : nat) (x : Z) : Z :=
  let modulus := 2 ^ (8 * Z.of_nat sizeof_idx_t) in
  let u := x mod modulus in
  if u <? modulus / 2 then u else u - modulus.

(** [for(std::size_t i = 0; i < n; ++i) dst.emplace_back(src[i]);] with [src]
    an array of [std::size_t] and [dst] a [std::vector<idx_t>]. *)
Definition append_from (sizeof_idx_t : nat) (src : list Z) (n : Z)
    (dst : list Z) : res (list Z) :=
  for_up 0 n
    (fun i dst => do x <- vget src i;; Ok (dst ++ [to_idx_t sizeof_idx_t x]))
    dst.

(** [MetisGraph::appendVertex]: the caller's [std::size_t] values are stored
    in vectors of [idx_t]; the new offset is the sum of an [idx_t] and a
    [std::size_t], taken in [std::size_t] and stored as an [idx_t]. *)
Definition appendVertex (sizeof_idx_t : nat) (g : t) (num_edges : Z)
    (adj_vertices edge_weights : list Z) (vertex_weight : Z) : res t :=
  let g := if 0 <? num_parts_ g then clearPartitions g else g in
  do adjncy <- append_from sizeof_idx_t adj_vertices num_edges (adjncy_ g);;
  do adjwgt <- append_from sizeof_idx_t edge_weights num_edges (adjwgt_ g);;
  do last <- vget (xadj_ g) (num_vertices_ g);;
  Ok (mk (num_vertices_ g + 1) (renumber_ g)
         (xadj_ g
          ++ [to_idx_t sizeof_idx_t (to_size_t (to_size_t last + num_edges))])
         adjncy (vwgt_ g ++ [to_idx_t sizeof_idx_t vertex_weight]) adjwgt
         (partitions_ g) (part_weights_ g) (edge_cut_ g) (num_cross_edges_ g)
         (num_parts_ g)).

(** *** [mergeVertices], block by block *)

(** [for(i = 0; i < n; ++i) dst[i] = src[offset + i];] *)
Definition copy_out (src : list Z) (offset n : Z) (dst : list Z)
  : res (list Z) :=
  for_up 0 n (fun i dst => do x <- vget src (offset + i);; vset dst i x) dst.

(** [for(i = 0; i < n; ++i) dst[offset + i] = src[i];] *)
Definition copy_in (src : list Z) (offset n : Z) (dst : list Z)
  : res (list Z) :=
  for_up 0 n (fun i dst => do x <- vget src i;; vset dst (offset + i) x) dst.

(** [for(i = hi; i >= lo; --i) v[i + shift] = v[i];] *)
Definition shift_right (hi lo shift : Z) (v : list Z) : res (list Z) :=
  for_down hi lo (fun i v => do x <- vget v i;; vset v (i + shift) x) v.

(** [for(vert = lo; vert <= hi; ++vert) v[vert] += delta;] *)
Definition add_range (lo hi delta : Z) (v : list Z) : res (list Z) :=
  for_up lo (hi + 1)
    (fun vert v => do x <- vget v vert;; vset v vert (x + delta)) v.

(** Lines 367-378: the edges of vertex 2 are moved right behind the edges of
    vertex 1, and the offsets of the vertices in between grow. *)
Definition move_edges (vertex1 vertex2 num_edges2 : Z)
    (xadj adjncy adjwgt : list Z) : res (list Z * list Z * list Z) :=
  if 0 <? num_edges2 then
    do edges2 <- valloc num_edges2;;
    do edge_weights2 <- valloc num_edges2;;
    do offset <- vget xadj vertex2;;
    do edges2 <- copy_out adjncy offset num_edges2 edges2;;
    do edge_weights2 <- copy_out adjwgt offset num_edges2 edge_weights2;;
    do x2 <- vget xadj vertex2;;
    do x11 <- vget xadj (vertex1 + 1);;
    do adjncy <- shift_right (x2 - 1) x11 num_edges2 adjncy;;
    do adjwgt <- shift_right (x2 - 1) x11 num_edges2 adjwgt;;
    do offset <- vget xadj (vertex1 + 1);;
    do adjncy <- copy_in edges2 offset num_edges2 adjncy;;
    do adjwgt <- copy_in edge_weights2 offset num_edges2 adjwgt;;
    do xadj <- add_range (vertex1 + 1) vertex2 num_edges2 xadj;;
    Ok (xadj, adjncy, adjwgt)
  else Ok (xadj, adjncy, adjwgt).

(** Lines 383-390: one run of the combined edges is copied into two local
    arrays. Both arrays are filled from [adjncy_]: the weights array receives
    the adjacent vertex id, as the source has it. *)
Definition load_run (adjncy : list Z) (n : Z)
    (edges edge_weights : list Z) (offset : Z)
  : res (list Z * list Z * Z) :=
  for_up 0 n
    (fun i '(edges, edge_weights, offset) =>
       do a <- vget adjncy offset;;
       do edges <- vset edges i a;;
       do w <- vget adjncy offset;;
       do edge_weights <- vset edge_weights i w;;
       Ok (edges, edge_weights, offset + 1))
    (edges, edge_weights, offset).

(** Lines 392-412: the two runs are merged back in increasing order of the
    adjacent vertex id. *)
Fixpoint merge_runs (fuel : nat)
    (edges1 edge_weights1 edges2 edge_weights2 : list Z)
    (num_edges1 num_edges2 j1 j2 offset : Z) (adjncy adjwgt : list Z)
  : res (Z * list Z * list Z) :=
  match fuel with
  | O => Err OutOfFuel
  | S fuel' =>
    let take1 :=
      do e <- vget edges1 j1;;
      do adjncy <- vset adjncy offset e;;
      do w <- vget edge_weights1 j1;;
      do adjwgt <- vset adjwgt offset w;;
      merge_runs fuel' edges1 edge_weights1 edges2 edge_weights2
        num_edges1 num_edges2 (j1 + 1) j2 (offset + 1) adjncy adjwgt in
    let take2 :=
      do e <- vget edges2 j2;;
      do adjncy <- vset adjncy offset e;;
      do w <- vget edge_weights2 j2;;
      do adjwgt <- vset adjwgt offset w;;
      merge_runs fuel' edges1 edge_weights1 edges2 edge_weights2
        num_edges1 num_edges2 j1 (j2 + 1) (offset + 1) adjncy adjwgt in
    if (j1 <? num_edges1) && (j2 <? num_edges2) then
      do e1 <- vget edges1 j1;;
      do e2 <- vget edges2 j2;;
      if e1 <=? e2 then take1 else take2
    else if (j1 <? num_edges1) && (j2 =? num_edges2) then take1
    else if (j1 =? num_edges1) && (j2 <? num_edges2) then take2
    else Ok (offset, adjncy, adjwgt)
  end.

(** Lines 415-429: contracted edges are deleted, an edge to the same adjacent
    vertex as its left neighbour is absorbed into it. *)
Definition dedupe (vertex1 vertex2 hi lo : Z) (adjncy adjwgt : list Z)
  : res (list Z * list Z * Z) :=
  for_down hi lo
    (fun i '(adjncy, adjwgt, num_deleted) =>
       do a <- vget adjncy i;;
       if (a =? vertex1) || (a =? vertex2) then
         do adjncy <- verase adjncy i;;
         do adjwgt <- verase adjwgt i;;
         Ok (adjncy, adjwgt, num_deleted + 1)
       else
         do b <- vget adjncy (i - 1);;
         if a =? b then
           do wi <- vget adjwgt i;;
           do wp <- vget adjwgt (i - 1);;
           do adjwgt <- vset adjwgt (i - 1) (wp + (wi - 1));;
           do adjncy <- verase adjncy i;;
           do adjwgt <- verase adjwgt i;;
           Ok (adjncy, adjwgt, num_deleted + 1)
         else Ok (adjncy, adjwgt, num_deleted))
    (adjncy, adjwgt, 0).

(** Line 440: every reference to vertex 2 becomes one to vertex 1. *)
Definition reassign (vertex1 vertex2 : Z) (adjncy : list Z) : list Z :=
  map (fun adj_vertex_id =>
         if adj_vertex_id =? vertex2 then vertex1 else adj_vertex_id) adjncy.

Definition mergeVertices (g : t) (vertex1 vertex2 : Z) : res (bool * t) :=
  let g := if 0 <? num_parts_ g then clearPartitions g else g in
  let g := mk (num_vertices_ g) [] (xadj_ g) (adjncy_ g) (vwgt_ g) (adjwgt_ g)
              (partitions_ g) (part_weights_ g) (edge_cut_ g)
              (num_cross_edges_ g) (num_parts_ g) in
  let nv := num_vertices_ g in
  do _ <- assert ((vsize (xadj_ g) =? nv + 1) && (vsize (vwgt_ g) =? nv));;
  if (vertex1 =? vertex2) || (nv <=? vertex1) || (nv <=? vertex2)
  then Ok (false, g)
  else
    let '(vertex1, vertex2) :=
      if vertex2 <? vertex1 then (vertex2, vertex1) else (vertex1, vertex2) in
    (* Absorb the weight of vertex 2 into vertex 1 *)
    do w1 <- vget (vwgt_ g) vertex1;;
    do w2 <- vget (vwgt_ g) vertex2;;
    do vwgt <- vset (vwgt_ g) vertex1 (w1 + (w2 - 1));;
    do vwgt <- verase vwgt vertex2;;
    (* Move the edges of vertex 2 and append them to vertex 1 *)
    do x11 <- vget (xadj_ g) (vertex1 + 1);;
    do x1 <- vget (xadj_ g) vertex1;;
    do x21 <- vget (xadj_ g) (vertex2 + 1);;
    do x2 <- vget (xadj_ g) vertex2;;
    let num_edges1 := x11 - x1 in
    let num_edges2 := x21 - x2 in
    do '(xadj, adjncy, adjwgt) <-
      move_edges vertex1 vertex2 num_edges2 (xadj_ g) (adjncy_ g) (adjwgt_ g);;
    (* Sort the combined edges within vertex 1 *)
    do edges1 <- valloc num_edges1;;
    do edge_weights1 <- valloc num_edges1;;
    do edges2 <- valloc num_edges2;;
    do edge_weights2 <- valloc num_edges2;;
    do offset <- vget xadj vertex1;;
    do '(edges1, edge_weights1, offset) <-
      load_run adjncy num_edges1 edges1 edge_weights1 offset;;
    do '(edges2, edge_weights2, offset) <-
      load_run adjncy num_edges2 edges2 edge_weights2 offset;;
    do offset <- vget xadj vertex1;;
    do '(offset, adjncy, adjwgt) <-
      merge_runs (S (Z.to_nat (num_edges1 + num_edges2)))
        edges1 edge_weights1 edges2 edge_weights2 num_edges1 num_edges2
        0 0 offset adjncy adjwgt;;
    do end1 <- vget xadj (vertex1 + 1);;
    do _ <- assert (offset =? end1);;
    (* Merge the edges incident to the same adjacent vertex *)
    do begin1 <- vget xadj vertex1;;
    do '(adjncy, adjwgt, num_deleted) <-
      dedupe vertex1 vertex2 (end1 - 1) (begin1 + 1) adjncy adjwgt;;
    do head <- vget adjncy begin1;;
    do '(adjncy, adjwgt, num_deleted) <-
      (if head =? vertex1 then
         do adjncy <- verase adjncy begin1;;
         do adjwgt <- verase adjwgt begin1;;
         Ok (adjncy, adjwgt, num_deleted + 1)
       else Ok (adjncy, adjwgt, num_deleted));;
    do xadj <-
      (if 0 <? num_deleted
       then add_range (vertex1 + 1) nv (- num_deleted) xadj
       else Ok xadj);;
    do xadj <- verase xadj vertex2;;
    (* Reassign all edges incident to vertex 2 to vertex 1 *)
    let adjncy := reassign vertex1 vertex2 adjncy in
    let nv := nv - 1 in
    do _ <- assert ((vsize xadj =? nv + 1) && (vsize vwgt =? nv));;
    do last <- vget xadj nv;;
    do _ <- assert ((vsize adjncy =? vsize adjwgt) && (vsize adjncy =? last));;
    Ok (true,
        mk nv [] xadj adjncy vwgt adjwgt (partitions_ g) (part_weights_ g)
           (edge_cut_ g) (num_cross_edges_ g) (num_parts_ g)).

(** *** Serialization *)

Section Packing.

(** [sizeof(idx_t)]: [idx_t] comes from metis.h, which is not under src (the
    specification's wire format has it at 8 bytes). [std::size_t] has 8. *)
Context (sizeof_idx_t : nat).

Definition sizeof_size_t : nat := 8.

(** [length = v.size(); append(length); for(i < length) append(v[i]);] *)
Definition pack_vector (v : list Z) (byte_packet : BytePacket.t)
  : res BytePacket.t :=
  let length := vsize v in
  let byte_packet :=
    BytePacket.appendToBytePacket sizeof_size_t byte_packet length in
  for_up 0 length
    (fun i byte_packet =>
       do x <- vget v i;;
       Ok (BytePacket.appendToBytePacket sizeof_idx_t byte_packet x))
    byte_packet.

Definition pack (g : t) (byte_packet : BytePacket.t) : res BytePacket.t :=
  let byte_packet :=
    BytePacket.appendToBytePacket sizeof_idx_t byte_packet (num_vertices_ g) in
  do byte_packet <- pack_vector (renumber_ g) byte_packet;;
  do byte_packet <- pack_vector (xadj_ g) byte_packet;;
  do byte_packet <- pack_vector (adjncy_ g) byte_packet;;
  do byte_packet <- pack_vector (vwgt_ g) byte_packet;;
  pack_vector (adjwgt_ g) byte_packet.

(** [v.resize(n)]: new cells are value-initialised. *)
Definition resize (v : list Z) (n : Z) : list Z :=
  take (Z.to_nat n) v ++ replicate (Z.to_nat n - length v) 0.

(** [extract(length); v.resize(length); for(i < length) extract(v[i]);] *)
Definition unpack_vector (v : list Z) (byte_packet : BytePacket.t)
  : res (list Z * BytePacket.t) :=
  do '(length, byte_packet) <-
    BytePacket.extractFromBytePacket sizeof_size_t byte_packet;;
  let v := resize v length in
  for_up 0 length
    (fun i '(v, byte_packet) =>
       do '(x, byte_packet) <-
         BytePacket.extractSigned sizeof_idx_t byte_packet;;
       do v <- vset v i x;;
       Ok (v, byte_packet))
    (v, byte_packet).

Definition unpack (g : t) (byte_packet : BytePacket.t)
  : res (t * BytePacket.t) :=
  do '(num_vertices, byte_packet) <-
    BytePacket.extractSigned sizeof_idx_t byte_packet;;
  do '(renumber, byte_packet) <- unpack_vector (renumber_ g) byte_packet;;
  do '(xadj, byte_packet) <- unpack_vector (xadj_ g) byte_packet;;
  do '(adjncy, byte_packet) <- unpack_vector (adjncy_ g) byte_packet;;
  do '(vwgt, byte_packet) <- unpack_vector (vwgt_ g) byte_packet;;
  do '(adjwgt, byte_packet) <- unpack_vector (adjwgt_ g) byte_packet;;
  Ok (mk num_vertices renumber xadj adjncy vwgt adjwgt (partitions_ g)
         (part_weights_ g) (edge_cut_ g) (num_cross_edges_ g) (num_parts_ g),
      byte_packet).

(** [MetisGraph::MetisGraph(BytePacket &)] *)
Definition of_packet (byte_packet : BytePacket.t) : res (t * BytePacket.t) :=
  unpack empty byte_packet.

End Packing.

(** *** Contraction cost *)

(** [std::pow(2.0, static_cast<double>(e))] for an integer [e]: the power of
    two itself, infinity above the binary64 range and zero below it. *)
Definition pow2 (e : Z) : float := Z.ldexp 1%float e.

(** What [getContractionCost] hands back: the returned flop estimate and the
    two values stored through [intermediate_volume] and [diff_volume] (nothing
    is stored when the vertex pair is refused). *)
Record cost : Type := mk_cost {
  flops : float;
  volumes : option (float * float)
}.

Definition getContractionCost (g : t) (vertex1 vertex2 : Z) : res cost :=
  let flops := 0%float in
  if negb (vertex1 =? vertex2) && (vertex1 <? num_vertices_ g)
     && (vertex2 <? num_vertices_ g)
  then
    let '(vertex1, vertex2) :=
      if vertex2 <? vertex1 then (vertex2, vertex1) else (vertex1, vertex2) in
    do w1 <- vget (vwgt_ g) vertex1;;
    do w2 <- vget (vwgt_ g) vertex2;;
    let left_vol := pow2 (w1 - 1) in
    let right_vol := pow2 (w2 - 1) in
    let contr_vol := 1%float in
    do b1 <- vget (xadj_ g) vertex1;;
    do e1 <- vget (xadj_ g) (vertex1 + 1);;
    do '(left_vol, contr_vol) <-
      for_up b1 e1
        (fun i '(left_vol, contr_vol) =>
           do w <- vget (adjwgt_ g) i;;
           let vol := pow2 (w - 1) in
           do a <- vget (adjncy_ g) i;;
           let contr_vol :=
             if a =? vertex2 then (contr_vol * vol)%float else contr_vol in
           Ok ((left_vol * vol)%float, contr_vol))
        (left_vol, contr_vol);;
    do b2 <- vget (xadj_ g) vertex2;;
    do e2 <- vget (xadj_ g) (vertex2 + 1);;
    do right_vol <-
      for_up b2 e2
        (fun i right_vol =>
           do w <- vget (adjwgt_ g) i;;
           let vol := pow2 (w - 1) in
           Ok (right_vol * vol)%float)
        right_vol;;
    let inter_vol := (left_vol * right_vol / (contr_vol * contr_vol))%float in
    Ok (mk_cost flops
          (Some (inter_vol, (inter_vol - (left_vol + right_vol))%float)))
  else Ok (mk_cost flops None).

(** *** Resetting, comparing and reading a graph *)

(** [initMetisGraph()] without the METIS options: the counters are reset and
    the offset 0 is appended to [xadj_]. *)
Definition initMetisGraph (g : t) : t :=
  mk 0 (renumber_ g) (xadj_ g ++ [0]) (adjncy_ g) (vwgt_ g) (adjwgt_ g)
     (partitions_ g) (part_weights_ g) 0 0 0.

Definition clear (g : t) : t :=
  let g := clearPartitions g in
  initMetisGraph
    (mk 0 [] [] [] [] [] (partitions_ g) (part_weights_ g) (edge_cut_ g)
        (num_cross_edges_ g) (num_parts_ g)).

(** [operator!=] *)
Definition neqb (lhs rhs : t) : bool := negb (eqb lhs rhs).

Definition getNumVertices (g : t) : Z := to_size_t (num_vertices_ g).

Definition getNumPartitions (g : t) : Z := to_size_t (num_parts_ g).

Definition getOriginalVertexId (g : t) (vertex_id : Z) : res Z :=
  if negb (vsize (renumber_ g) =? 0)
  then do x <- vget (renumber_ g) vertex_id;; Ok (to_size_t x)
  else Ok vertex_id.

(** What [getPartitions] stores through its four pointers; a pointer that is
    null on entry is [false] in [wanted] and its cell is [None] here. The cell
    of [renumbering] holds a pointer, null ([None]) when [renumber_] is
    empty. *)
Record partition_data : Type := mk_partition_data {
  out_edge_cut : option Z;
  out_num_cross_edges : option Z;
  out_part_weights : option (list Z);
  out_renumbering : option (option (list Z))
}.

Definition getPartitions (g : t) (wanted : bool * bool * bool * bool)
  : list Z * partition_data :=
  let '(edge_cut, num_cross_edges, part_weights, renumbering) := wanted in
  (partitions_ g,
   mk_partition_data
     (if edge_cut then Some (to_size_t (edge_cut_ g)) else None)
     (if num_cross_edges then Some (to_size_t (num_cross_edges_ g)) else None)
     (if part_weights then Some (part_weights_ g) else None)
     (if renumbering
      then Some (if vsize (renumber_ g) =? 0 then None
                 else Some (renumber_ g))
      else None)).

(** *** The graph of some partitions of a partitioned graph *)

Section Subgraph.

(** The two constructors that take a parental graph have the same body up to
    the test on the partition of a vertex: equality with the requested
    partition, or membership in the requested partitions. *)
Context (requested : Z -> bool).

(** [for(edge = parent.xadj_[vert]; edge < parent.xadj_[vert+1]; ++edge)]:
    an edge inside the requested partitions is copied, the weight of any
    other edge goes into the weight of the vertex. *)
Definition collect_edges (parent : t) (num_vertices lo hi : Z)
    (st : list Z * list Z * list Z * Z)
  : res (list Z * list Z * list Z * Z) :=
  for_up lo hi
    (fun edge '(adjncy, adjwgt, vwgt, num_edges) =>
       do adj_vertex_id <- vget (adjncy_ parent) edge;;
       do p <- vget (partitions_ parent) adj_vertex_id;;
       if requested p then
         do w <- vget (adjwgt_ parent) edge;;
         Ok (adjncy ++ [adj_vertex_id], adjwgt ++ [w], vwgt, num_edges + 1)
       else
         do w <- vget (adjwgt_ parent) edge;;
         do x <- vget vwgt num_vertices;;
         do vwgt <- vset vwgt num_vertices (x + (w - 1));;
         Ok (adjncy, adjwgt, vwgt, num_edges))
    st.

(** [for(vert = 0; vert < parent.partitions_.size(); ++vert)]: the vertices
    of the requested partitions with their edges, and the map from the parent
    vertex id to the child vertex id. *)
Definition collect_vertices (parent : t)
  : res (gmap Z Z * Z * list Z * list Z * list Z * list Z) :=
  for_up 0 (vsize (partitions_ parent))
    (fun vert '(vertex_id_map, num_vertices, xadj, adjncy, vwgt, adjwgt) =>
       do p <- vget (partitions_ parent) vert;;
       if requested p then
         do _ <- assert (bool_decide (vertex_id_map !! vert = None));;
         let vertex_id_map := <[vert := num_vertices]> vertex_id_map in
         do w <- vget (vwgt_ parent) vert;;
         let vwgt := vwgt ++ [w] in
         do lo <- vget (xadj_ parent) vert;;
         do hi <- vget (xadj_ parent) (vert + 1);;
         do '(adjncy, adjwgt, vwgt, num_edges) <-
           collect_edges parent num_vertices lo hi (adjncy, adjwgt, vwgt, 0);;
         do last <- vget xadj num_vertices;;
         Ok (vertex_id_map, num_vertices + 1, xadj ++ [last + num_edges],
             adjncy, vwgt, adjwgt)
       else Ok (vertex_id_map, num_vertices, xadj, adjncy, vwgt, adjwgt))
    (base.empty, 0, xadj_ empty, [], [], []).

(** [vertex_id_map[adj_vertex_id]]: a key that is missing is inserted with
    the value 0. *)
Definition renumber_ids (vertex_id_map : gmap Z Z) (adjncy : list Z)
  : list Z :=
  map (fun adj_vertex_id => default 0 (vertex_id_map !! adj_vertex_id)) adjncy.

(** [for(vert = 0; vert < parent.renumber_.size(); ++vert)] *)
Definition collect_renumber (parent : t) : res (list Z) :=
  for_up 0 (vsize (renumber_ parent))
    (fun vert renumber =>
       do p <- vget (partitions_ parent) vert;;
       if requested p then
         do r <- vget (renumber_ parent) vert;; Ok (renumber ++ [r])
       else Ok renumber)
    [].

Definition subgraph (parent : t) : res t :=
  do '(vertex_id_map, num_vertices, xadj, adjncy, vwgt, adjwgt) <-
    collect_vertices parent;;
  let adjncy := renumber_ids vertex_id_map adjncy in
  do renumber <- collect_renumber parent;;
  Ok (mk num_vertices renumber xadj adjncy vwgt adjwgt (partitions_ empty)
         (part_weights_ empty) (edge_cut_ empty) (num_cross_edges_ empty)
         (num_parts_ empty)).

End Subgraph.

(** [MetisGraph::MetisGraph(const MetisGraph & parent, std::size_t
    partition)] *)
Definition of_partition (parent : t) (partition : Z) : res t :=
  if partition <? to_size_t (num_parts_ parent)
  then subgraph (fun p => to_size_t p =? partition) parent
  else Err AssertionFailed.

(** [MetisGraph::MetisGraph(const MetisGraph & parent, const
    std::vector<std::size_t> & partitions)]; the test is [std::find]. *)
Definition of_partitions (parent : t) (partitions : list Z) : res t :=
  subgraph (fun p => existsb (fun partn => partn =? to_size_t p) partitions)
    parent.

(** *** Partitioning *)

(** The status METIS returns. *)
Inductive rstatus_et : Type :=
| METIS_OK
| METIS_ERROR_INPUT
| METIS_ERROR_MEMORY
| METIS_ERROR.

Definition is_ok (errc : rstatus_et) : bool :=
  match errc with
  | METIS_OK => true
  | _ => false
  end.

(** [METIS_PartGraphKway], with the options [initMetisGraph] has set: from
    the number of vertices, the number of constraints, the four arrays of the
    graph, the number of parts, the imbalance tolerance and the array of
    partitions as it is handed over, to the status, the edge cut and that
    array as METIS leaves it. *)
Definition metis_partitioner : Type :=
  Z -> Z -> list Z -> list Z -> list Z -> list Z -> Z -> float -> list Z ->
  rstatus_et * Z * list Z.

(** [part_weights_.assign(n,0)] *)
Definition assign_zero (n : Z) : res (list Z) :=
  if 0 <=? n then Ok (replicate (Z.to_nat n) 0) else Err OutOfBounds.

(** The inner loop of the two counts of cross edges: the edges of [vert]
    that end in another partition. *)
Definition count_cross_edges (g : t) (partitions : list Z)
    (vert partition num_cross_edges : Z) : res Z :=
  do lo <- vget (xadj_ g) vert;;
  do hi <- vget (xadj_ g) (vert + 1);;
  for_up lo hi
    (fun edge num_cross_edges =>
       do a <- vget (adjncy_ g) edge;;
       do p <- vget partitions a;;
       Ok (if negb (p =? partition) then num_cross_edges + 1
           else num_cross_edges))
    num_cross_edges.

(** [assert(num_cross_edges_ % 2 == 0); num_cross_edges_ /= 2;] *)
Definition halve (num_cross_edges : Z) : res Z :=
  do _ <- assert (Z.rem num_cross_edges 2 =? 0);;
  Ok (Z.quot num_cross_edges 2).

Section Partitioning.

(** [sizeof(idx_t)] again, and METIS. *)
Context (sizeof_idx_t : nat) (METIS_PartGraphKway : metis_partitioner).

(** [partitionGraph(num_parts,imbalance)] *)
Definition partitionGraph (g : t) (num_parts : Z) (imbalance : float)
  : res (bool * t) :=
  do _ <- assert (0 <? num_vertices_ g);;
  do _ <- assert (0 <? num_parts);;
  do _ <- assert (1 <=? imbalance)%float;;
  let g := if 0 <? num_parts_ g then clearPartitions g else g in
  let num_parts :=
    Z.min (to_idx_t sizeof_idx_t num_parts) (num_vertices_ g) in
  let partitions := resize (partitions_ g) (to_size_t (num_vertices_ g)) in
  let ncon := 1 in
  let '(errc, edge_cut, partitions) :=
    METIS_PartGraphKway (num_vertices_ g) ncon (xadj_ g) (adjncy_ g)
      (vwgt_ g) (adjwgt_ g) num_parts imbalance partitions in
  let num_cross_edges := 0 in
  if is_ok errc then
    do part_weights <- assign_zero num_parts;;
    do '(part_weights, num_cross_edges) <-
      for_up 0 (num_vertices_ g)
        (fun vert '(part_weights, num_cross_edges) =>
           do partition <- vget partitions vert;;
           do w <- vget (vwgt_ g) vert;;
           do x <- vget part_weights partition;;
           do part_weights <- vset part_weights partition (x + w);;
           do num_cross_edges <-
             count_cross_edges g partitions vert partition num_cross_edges;;
           Ok (part_weights, num_cross_edges))
        (part_weights, num_cross_edges);;
    do num_cross_edges <- halve num_cross_edges;;
    Ok (true,
        mk (num_vertices_ g) (renumber_ g) (xadj_ g) (adjncy_ g) (vwgt_ g)
           (adjwgt_ g) partitions part_weights edge_cut num_cross_edges
           num_parts)
  else
    Ok (false,
        mk (num_vertices_ g) (renumber_ g) (xadj_ g) (adjncy_ g) (vwgt_ g)
           (adjwgt_ g) partitions (part_weights_ g) edge_cut num_cross_edges
           num_parts).

(** [adj[i][j]] and [adj[i][j] = x] for the local array
    [std::size_t adj[n][n]]. *)
Definition mget (adj : list (list Z)) (i j : Z) : res Z :=
  if (0 <=? i) && (i <? Z.of_nat (length adj))
  then vget (nth (Z.to_nat i) adj []) j
  else Err OutOfBounds.

Definition mset (adj : list (list Z)) (i j x : Z) : res (list (list Z)) :=
  if (0 <=? i) && (i <? Z.of_nat (length adj))
  then do row <- vset (nth (Z.to_nat i) adj []) j x;;
       Ok (<[Z.to_nat i := row]> adj)
  else Err OutOfBounds.

(** The coarse adjacency matrix: the weights of the edges between two
    minipartitions, added up. *)
Definition coarse_adjacency (g : t) (num_miniparts : Z)
  : res (list (list Z)) :=
  let adj :=
    replicate (Z.to_nat num_miniparts) (replicate (Z.to_nat num_miniparts) 0)
  in
  for_up 0 (num_vertices_ g)
    (fun vert adj =>
       do partition <- vget (partitions_ g) vert;;
       do lo <- vget (xadj_ g) vert;;
       do hi <- vget (xadj_ g) (vert + 1);;
       for_up lo hi
         (fun edge adj =>
            do a <- vget (adjncy_ g) edge;;
            do adj_partition <- vget (partitions_ g) a;;
            do w <- vget (adjwgt_ g) edge;;
            do x <- mget adj partition adj_partition;;
            mset adj partition adj_partition (to_size_t (x + w)))
         adj)
    adj.

(** One vertex of the coarse graph: the minipartitions [j != i] with a
    nonzero entry in row [i]. *)
Definition coarse_vertex (adj : list (list Z)) (num_miniparts i : Z)
  : res (list Z * list Z * Z) :=
  do adj_verts <- valloc num_miniparts;;
  do adj_wghts <- valloc num_miniparts;;
  for_up 0 num_miniparts
    (fun j '(adj_verts, adj_wghts, num_adj_edges) =>
       if negb (j =? i) then
         do x <- mget adj i j;;
         if negb (x =? 0) then
           do adj_verts <- vset adj_verts num_adj_edges j;;
           do x <- mget adj i j;;
           do adj_wghts <- vset adj_wghts num_adj_edges x;;
           Ok (adj_verts, adj_wghts, num_adj_edges + 1)
         else Ok (adj_verts, adj_wghts, num_adj_edges)
       else Ok (adj_verts, adj_wghts, num_adj_edges))
    (adj_verts, adj_wghts, 0).

(** The coarse graph: one vertex for each minipartition, with the part weight
    (an [idx_t], passed as a [std::size_t]) as its weight. *)
Definition coarse_graph (g : t) (adj : list (list Z)) (num_miniparts : Z)
  : res t :=
  for_up 0 num_miniparts
    (fun i coarse =>
       do '(adj_verts, adj_wghts, num_adj_edges) <-
         coarse_vertex adj num_miniparts i;;
       do w <- vget (part_weights_ g) i;;
       appendVertex sizeof_idx_t coarse num_adj_edges adj_verts adj_wghts
         (to_size_t w))
    empty.

(** [partitionGraph(num_parts,num_miniparts,imbalance)] *)
Definition partitionGraph_merged (g : t) (num_parts num_miniparts : Z)
    (imbalance : float) : res (bool * t) :=
  do _ <- assert (num_parts <=? num_miniparts);;
  do '(success, g) <- partitionGraph g num_miniparts imbalance;;
  if success && (num_parts <? num_miniparts) then
    do adj <- coarse_adjacency g num_miniparts;;
    do coarse <- coarse_graph g adj num_miniparts;;
    do '(success, coarse) <- partitionGraph coarse num_parts imbalance;;
    if success then
      let '(parts, data) := getPartitions coarse (true, true, true, false) in
      let edge_cut :=
        to_idx_t sizeof_idx_t (default 0 (out_edge_cut data)) in
      let part_weights := default [] (out_part_weights data) in
      do partitions <-
        for_up 0 (vsize (partitions_ g))
          (fun i partitions =>
             do partition <- vget partitions i;;
             do merged <- vget parts partition;;
             vset partitions i merged)
          (partitions_ g);;
      do num_cross_edges <-
        for_up 0 (num_vertices_ g)
          (fun vert num_cross_edges =>
             do partition <- vget partitions vert;;
             count_cross_edges g partitions vert partition num_cross_edges)
          0;;
      do num_cross_edges <- halve num_cross_edges;;
      Ok (success,
          mk (num_vertices_ g) (renumber_ g) (xadj_ g) (adjncy_ g) (vwgt_ g)
             (adjwgt_ g) partitions part_weights edge_cut num_cross_edges
             (to_idx_t sizeof_idx_t num_parts))
    else Ok (success, g)
  else Ok (success, g).

End Partitioning.

End MetisGraph.

(** ** Basic tensor types (numerics/tensor_basic.hpp) *)

Inductive TensorElementType : Type :=
| VOID | REAL16 | REAL32 | REAL64 | COMPLEX16 | COMPLEX32 | COMPLEX64.

Inductive LegDirection : Type :=
| UNDIRECT
| INWARD
| OUTWARD.

Inductive TensorOpCode : Type :=
| NOOP | CREATE | DESTROY | TRANSFORM | SLICE | INSERT | ADD | CONTRACT
| DECOMPOSE_SVD3 | DECOMPOSE_SVD2 | ORTHOGONALIZE_SVD | ORTHOGONALIZE_MGS
| FETCH | UPLOAD | BROADCAST | ALLREDUCE.

(** [TensorElementTypeSize<element_type>()]: the specialisations of the
    template, one for each element type, in bytes. *)
Definition TensorElementTypeSize_constexpr (element_type : TensorElementType)
  : Z :=
  match element_type with
  | VOID => 0
  | REAL16 => 2
  | REAL32 => 4
  | REAL64 => 8
  | COMPLEX16 => 4
  | COMPLEX32 => 8
  | COMPLEX64 => 16
  end.

(** [TensorElementTypeSize(element_type)]: the switch has no case for VOID,
    which falls through to [return 0]. *)
Definition TensorElementTypeSize (element_type : TensorElementType) : Z :=
  match element_type with
  | REAL16 => 2
  | REAL32 => 4
  | REAL64 => 8
  | COMPLEX16 => 4
  | COMPLEX32 => 8
  | COMPLEX64 => 16
  | _ => 0
  end.

(** [TensorElementTypeOpFactor<element_type>()] *)
Definition TensorElementTypeOpFactor_constexpr
    (element_type : TensorElementType) : float :=
  match element_type with
  | VOID => 0
  | REAL16 => 2
  | REAL32 => 2
  | REAL64 => 2
  | COMPLEX16 => 8
  | COMPLEX32 => 8
  | COMPLEX64 => 8
  end.

(** [tensorElementTypeOpFactor(element_type)] *)
Definition tensorElementTypeOpFactor (element_type : TensorElementType)
  : float :=
  match element_type with
  | REAL16 => 2
  | REAL32 => 2
  | REAL64 => 2
  | COMPLEX16 => 8
  | COMPLEX32 => 8
  | COMPLEX64 => 8
  | _ => 0
  end.

(** The C++ types of tensor elements. *)
Inductive cxx_type : Type :=
| cxx_void
| cxx_float
| cxx_double
| cxx_complex_float
| cxx_complex_double
| cxx_other.

(** [TensorDataType<element_type>::value]: the primary template has [void]. *)
Definition TensorDataType (element_type : TensorElementType) : cxx_type :=
  match element_type with
  | REAL32 => cxx_float
  | REAL64 => cxx_double
  | COMPLEX32 => cxx_complex_float
  | COMPLEX64 => cxx_complex_double
  | _ => cxx_void
  end.

(** [TensorDataKind<T>::value]: the primary template has VOID. *)
Definition TensorDataKind (T : cxx_type) : TensorElementType :=
  match T with
  | cxx_float => REAL32
  | cxx_double => REAL64
  | cxx_complex_float => COMPLEX32
  | cxx_complex_double => COMPLEX64
  | _ => VOID
  end.

(** [std::complex<double>] *)
Definition complex : Type := (float * float)%type.

(** ** Tensors *)

Module Tensor.

(** Modelled from the spec: class [Tensor] (tensor.hpp) is not under src. A
    tensor is a name with an ordered sequence of extents and an element type;
    its volume is the product of its extents, a [DimExtent] (64 bits,
    unsigned). *)
Record t : Type := mk {
  name_ : string;
  extents_ : list Z;
  element_type_ : TensorElementType
}.

(** Modelled from the spec: the accessors of [Tensor]. *)
Definition getName (x : t) : string := name_ x.
Definition getRank (x : t) : Z := vsize (extents_ x).
Definition getElementType (x : t) : TensorElementType := element_type_ x.

(** Modelled from the spec: the volume, the product of the extents in 64-bit
    unsigned arithmetic. *)
Definition getVolume (x : t) : Z :=
  fold_left (fun volume extent => (volume * extent) mod 2 ^ 64) (extents_ x) 1.

End Tensor.

(** [static_cast<double>(v)] for a 64-bit unsigned [v]: the two 32-bit halves
    are exact binary64 numbers, and so is the upper one scaled; their sum is
    the value of [v], rounded once by the addition. *)
Definition double_of_u64 (v : Z) : float :=
  (Z.ldexp (of_uint63 (Uint63.of_Z (v / 2 ^ 32))) 32
   + of_uint63 (Uint63.of_Z (v mod 2 ^ 32)))%float.

(** ** Tensor operations (numerics/tensor_op_*.cpp) *)

Module TensorOperation.

(** Modelled from the spec: the base class [TensorOperation]
    (tensor_operation.hpp) is not under src. Its constructor takes the opcode,
    the number of tensor operands, the number of scalars, the per-operation
    bitset that "encodes which operands are reads vs writes", and the symbolic
    positions of the operands. Bit [i] of the bitset is the role of operand
    [i]: set means written. *)
Record t : Type := mk {
  opcode_ : TensorOpCode;
  num_operands_ : Z;
  num_scalars_ : Z;
  mutation_ : Z;
  symb_pos_ : list Z;
  operands_ : list Tensor.t;
  scalars_ : list complex;
  pattern_ : string
}.

(** Modelled from the spec: the constructor of the base class; no operand
    is set yet, the scalars are zero and the index pattern is empty. *)
Definition TensorOperation (opcode : TensorOpCode)
    (num_operands num_scalars mutability : Z) (symbolic_positions : list Z)
  : t :=
  mk opcode num_operands num_scalars mutability symbolic_positions []
     (replicate (Z.to_nat num_scalars) (0%float, 0%float)) EmptyString.

(** Modelled from the spec: the role of an operand, read off the bitset. *)
Definition operandIsMutable (op : t) (operand_num : Z) : bool :=
  Z.testbit (mutation_ op) operand_num.

(** Modelled from the spec: [setScalar] and the accessors of the header. *)
Definition setScalar (op : t) (scalar_num : Z) (scalar : complex) : t :=
  mk (opcode_ op) (num_operands_ op) (num_scalars_ op) (mutation_ op)
     (symb_pos_ op) (operands_ op)
     (<[Z.to_nat scalar_num := scalar]> (scalars_ op)) (pattern_ op).

Definition getNumOperands (op : t) : Z := num_operands_ op.
Definition getNumOperandsSet (op : t) : Z := Z.of_nat (length (operands_ op)).
Definition getIndexPattern (op : t) : string := pattern_ op.

(** From here on: the source. The members a subclass adds ([element_type_] of
    [TensorOpCreate], [accumulative_] of [TensorOpContract]) play no role in
    the header and are left out. *)

(** numerics/tensor_op_create.cpp *)
Definition TensorOpCreate : t :=
  TensorOperation CREATE 1 0 1 [0].

(** numerics/tensor_op_transform.cpp *)
Definition TensorOpTransform : t :=
  setScalar (TensorOperation TRANSFORM 1 1 1 [0]) 0 (0%float, 0%float).

(** numerics/tensor_op_contract.cpp *)
Definition TensorOpContract : t :=
  setScalar
    (setScalar (TensorOperation CONTRACT 3 2 (1 + 0 * 2 + 0 * 4) [0; 1; 2])
       0 (1%float, 0%float))
    1 (1%float, 0%float).

(** numerics/tensor_op_decompose_svd2.cpp *)
Definition TensorOpDecomposeSVD2 : t :=
  TensorOperation DECOMPOSE_SVD2 3 0 (1 + 1 * 2 + 0 * 4) [1; 2; 0].

(** [TensorOpContract::isSet] *)
Definition isSet (op : t) : bool :=
  (getNumOperandsSet op =? getNumOperands op)
  && (0 <? String.length (getIndexPattern op))%nat.

(** [TensorOpContract::getFlopEstimate] *)
Definition getFlopEstimate (op : t) : res float :=
  if isSet op then
    match operands_ op with
    | t0 :: t1 :: t2 :: _ =>
        let vol0 := double_of_u64 (Tensor.getVolume t0) in
        let vol1 := double_of_u64 (Tensor.getVolume t1) in
        let vol2 := double_of_u64 (Tensor.getVolume t2) in
        Ok (sqrt (vol0 * vol1 * vol2))%float
    | _ => Err OutOfBounds
    end
  else Ok 0%float.

End TensorOperation.

(** ** Connected tensors (numerics/tensor_connected.cpp) *)

Module TensorLeg.

Record t : Type := mk {
  tensor_id_ : Z;
  dimensn_id_ : Z;
  direction_ : LegDirection
}.

(** Modelled from the spec: [TensorLeg::reverseDirection] (tensor_leg.hpp) is
    not under src. Conjugation "reverses every directed leg; undirected legs
    unchanged". *)
Definition reverseDirection (leg : t) : t :=
  mk (tensor_id_ leg) (dimensn_id_ leg)
     match direction_ leg with
     | INWARD => OUTWARD
     | OUTWARD => INWARD
     | UNDIRECT => UNDIRECT
     end.

End TensorLeg.

Module TensorConn.

Record t : Type := mk {
  tensor_ : Tensor.t;
  id_ : Z;
  legs_ : list TensorLeg.t;
  conjugated_ : bool;
  optimizable_ : bool
}.

(** [TensorConn::TensorConn(tensor, id, legs, conjugated)] *)
Definition TensorConn (tensor : Tensor.t) (id : Z) (legs : list TensorLeg.t)
    (conjugated : bool) : t :=
  mk tensor id legs conjugated false.

Definition getName (x : t) : string := Tensor.getName (tensor_ x).
Definition getTensor (x : t) : Tensor.t := tensor_ x.
Definition getTensorId (x : t) : Z := id_ x.
Definition getTensorLegs (x : t) : list TensorLeg.t := legs_ x.
Definition isComplexConjugated (x : t) : bool := conjugated_ x.
Definition isOptimizable (x : t) : bool := optimizable_ x.

(** [void TensorConn::conjugate()] *)
Definition conjugate (x : t) : t :=
  mk (tensor_ x) (id_ x)
     (map TensorLeg.reverseDirection (legs_ x))
     (if negb (id_ x =? 0) then negb (conjugated_ x) else conjugated_ x)
     (optimizable_ x).

(** [void TensorConn::conjugate(bool conjug)] *)
Definition conjugate_to (x : t) (conjug : bool) : t :=
  if negb (Bool.eqb (conjugated_ x) conjug) then conjugate x else x.

(** [TensorConn::resetOptimizability] *)
Definition resetOptimizability (x : t) (optimizable : bool) : res t :=
  do _ <- assert (negb optimizable || negb (id_ x =? 0));;
  Ok (mk (tensor_ x) (id_ x) (legs_ x) (conjugated_ x) optimizable).

Definition resetTensorId (x : t) (tensor_id : Z) : t :=
  mk (tensor_ x) tensor_id (legs_ x) (conjugated_ x) (optimizable_ x).

(** [legs[i]] for an [unsigned int] [i]. *)
Definition leg_at (legs : list TensorLeg.t) (i : Z) : res TensorLeg.t :=
  match legs !! Z.to_nat i with
  | Some leg => if 0 <=? i then Ok leg else Err OutOfBounds
  | None => Err OutOfBounds
  end.

(** [TensorConn::getTensorLeg] *)
Definition getTensorLeg (x : t) (leg_id : Z) : res TensorLeg.t :=
  do _ <- assert (leg_id <? Z.of_nat (length (legs_ x)));;
  leg_at (legs_ x) leg_id.

Section StoredTensor.

(** The methods of [Tensor] the edits of the legs call on the stored tensor
    (tensor.hpp and tensor.cpp are not under src): [deleteDimension],
    [appendDimension], the constructor of a tensor from another one with its
    dimensions permuted, and the name [tensor_hex_name("z",hash)] of a
    tensor. *)
Context (deleteDimension : Tensor.t -> Z -> Tensor.t)
        (appendDimension : Tensor.t -> Z * Z -> Z -> Tensor.t)
        (permuted : Tensor.t -> list Z -> Tensor.t)
        (hex_name : Tensor.t -> string).

(** [TensorConn::deleteLeg] *)
Definition deleteLeg (x : t) (leg_id : Z) : res t :=
  do _ <- assert (leg_id <? Z.of_nat (length (legs_ x)));;
  Ok (mk (deleteDimension (tensor_ x) leg_id) (id_ x)
         (delete (Z.to_nat leg_id) (legs_ x)) (conjugated_ x)
         (optimizable_ x)).

(** [for(const auto & leg_id: leg_ids){deleteLeg(leg_id-deleted);
    ++deleted;}] in [unsigned int] arithmetic. *)
Fixpoint delete_each (leg_ids : list Z) (x : t) (deleted : Z) : res t :=
  match leg_ids with
  | [] => Ok x
  | leg_id :: rest =>
      do x <- deleteLeg x ((leg_id - deleted) mod 2 ^ 32);;
      delete_each rest x ((deleted + 1) mod 2 ^ 32)
  end.

(** [TensorConn::deleteLegs]: the connected tensor afterwards and the
    caller's vector, which is sorted in place. *)
Definition deleteLegs (x : t) (leg_ids : list Z) : res (t * list Z) :=
  if 0 <? Z.of_nat (length leg_ids) then
    let leg_ids := merge_sort Z.le leg_ids in
    do x <- delete_each leg_ids x 0;;
    Ok (x, leg_ids)
  else Ok (x, leg_ids).

(** [TensorConn::appendLeg(subspace,dim_extent,tensor_leg)] *)
Definition appendLeg (x : t) (subspace : Z * Z) (dim_extent : Z)
    (tensor_leg : TensorLeg.t) : t :=
  mk (appendDimension (tensor_ x) subspace dim_extent) (id_ x)
     (legs_ x ++ [tensor_leg]) (conjugated_ x) (optimizable_ x).

(** [for(i = 0; i < rank; ++i) legs_[i] = old_legs[order[i]];] *)
Definition permute_legs (old_legs : list TensorLeg.t) (order : list Z)
    (rank : Z) (legs : list TensorLeg.t) : res (list TensorLeg.t) :=
  for_up 0 rank
    (fun i legs =>
       do k <- vget order i;;
       do leg <- leg_at old_legs k;;
       do _ <- leg_at legs i;;
       Ok (<[Z.to_nat i := leg]> legs))
    legs.

(** [TensorConn::replaceStoredTensor(order,name)] *)
Definition replaceStoredTensor (x : t) (order : list Z) (name : string)
  : res t :=
  let rank := Tensor.getRank (tensor_ x) in
  do _ <- assert (rank =? vsize order);;
  let tensor := permuted (tensor_ x) order in
  do legs <-
    (if 0 <? rank then
       do old_legs <-
         for_up 0 rank
           (fun i old_legs =>
              do leg <- leg_at (legs_ x) i;; Ok (old_legs ++ [leg]))
           [];;
       permute_legs old_legs order rank (legs_ x)
     else Ok (legs_ x));;
  let new_name :=
    if (String.length name =? 0)%nat then hex_name tensor else name in
  Ok (mk (Tensor.mk new_name (Tensor.extents_ tensor)
            (Tensor.element_type_ tensor))
         (id_ x) legs (conjugated_ x) (optimizable_ x)).

End StoredTensor.

End TensorConn.

(** ** Tensor network expansions *)

Module TensorExpansion.

(** Modelled from the spec: class [TensorExpansion] (tensor_expansion.hpp) is
    not under src. An expansion is an "ordered list of (network,
    complex_coefficient) pairs with a ket/bra flag"; a network is given here
    by its connected tensors, in the order in which it is iterated over. *)
Record t : Type := mk {
  ket_ : bool;
  rank_ : Z;
  components_ : list (list TensorConn.t * complex)
}.

Definition isKet (e : t) : bool := ket_ e.
Definition isBra (e : t) : bool := negb (ket_ e).
Definition getRank (e : t) : Z := rank_ e.

End TensorExpansion.

(** ** The reconstructor (exatn/reconstructor.cpp) *)

Module Reconstructor.

(** The expansions [reconstruct] builds are symbolic objects which it hands to
    the numerical server: they are kept as the expressions that built them. *)
#[local] Unset Elimination Schemes.
Inductive expansion : Type :=
| Operand (e : TensorExpansion.t)
    (* [*approximant_], [*expansion_] *)
| Conjugated (e : expansion)
    (* [TensorExpansion c(e,false); c.conjugate();] *)
| InnerProduct (name : string) (bra ket : expansion)
    (* [TensorExpansion p(bra,ket); p.rename(name);] *)
| Combination (name : string) (terms : list (expansion * complex))
    (* [appendExpansion(term,coefficient)] in turn, then [rename(name)] *)
| Derivative (e : expansion) (tensor_name : string) (conjugated : bool).
    (* [TensorExpansion(e,tensor_name,conjugated)] *)
#[local] Set Elimination Schemes.

Record Environment : Type := mk_env {
  tensor : Tensor.t;
  gradient : Tensor.t;
  gradient_expansion : expansion
}.

Record t : Type := mk {
  expansion_ : TensorExpansion.t;
  approximant_ : TensorExpansion.t;
  max_iterations_ : Z;
  epsilon_ : float;
  tolerance_ : float;
  residual_norm2_ : float;
  fidelity_ : float;
  environments_ : list Environment
}.

(** The constructor. [DEFAULT_MAX_ITERATIONS] and [DEFAULT_LEARN_RATE] are
    constants of reconstructor.hpp, which is not under src: parameters. *)
Definition TensorNetworkReconstructor
    (DEFAULT_MAX_ITERATIONS : Z) (DEFAULT_LEARN_RATE : float)
    (expansion approximant : TensorExpansion.t) (tolerance : float) : res t :=
  do _ <- assert (TensorExpansion.isKet expansion);;
  do _ <- assert (TensorExpansion.isBra approximant);;
  do _ <- assert (TensorExpansion.getRank expansion
                  =? TensorExpansion.getRank approximant);;
  Ok (mk expansion approximant DEFAULT_MAX_ITERATIONS DEFAULT_LEARN_RATE
         tolerance 0%float 0%float []).

Definition resetTolerance (s : t) (tolerance : float) : t :=
  mk (expansion_ s) (approximant_ s) (max_iterations_ s) (epsilon_ s)
     tolerance (residual_norm2_ s) (fidelity_ s) (environments_ s).

Definition resetMaxIterations (s : t) (max_iterations : Z) : t :=
  mk (expansion_ s) (approximant_ s) max_iterations (epsilon_ s)
     (tolerance_ s) (residual_norm2_ s) (fidelity_ s) (environments_ s).

(** [getSolution(&residual_norm2,&fidelity)]: the returned pointer ([None] is
    the null pointer) and the contents of the two output cells afterwards,
    [out] being their contents before the call. *)
Definition getSolution (s : t) (out : float * float)
  : option TensorExpansion.t * (float * float) :=
  if (fidelity_ s =? 0)%float then (None, out)
  else (Some (approximant_ s), (residual_norm2_ s, fidelity_ s)).

(** *** The numerical server

    [reconstruct] drives the numerical server through the free functions of
    exatn_numerics.hpp. Each takes the state of the server and gives back its
    success flag and the new state (and the norm it has read). *)
Record Backend : Type := mk_backend {
  World : Type;
  createTensorSync : Tensor.t -> TensorElementType -> World -> bool * World;
  initTensorSync : string -> float -> World -> bool * World;
  evaluateSync : expansion -> Tensor.t -> World -> bool * World;
  computeNorm1Sync : string -> World -> bool * float * World;
  computeMaxAbsSync : string -> World -> bool * float * World;
  addTensorsSync : string -> float -> World -> bool * World;
  destroyTensorSync : string -> World -> bool * World;
  generate_addition_pattern : Z -> bool -> string -> string -> bool * string
}.

(** [done = f(...); assert(done);] *)
Definition asserted {A : Type} (r : bool * A) : res A :=
  let '(done, a) := r in
  do _ <- assert done;; Ok a.

Section Driver.

Context (B : Backend).

Definition scalar_norm : Tensor.t := Tensor.mk "_scalar_norm" [] VOID.

(** One pass of the body of [for(auto & environment: environments_)]. *)
Definition gradient_step (s : t) (environment : Environment)
    (st : float * World B) : res (float * World B) :=
  let '(max_grad_maxabs, w) := st in
  let tensor_type := Tensor.getElementType (tensor environment) in
  do w <- asserted (createTensorSync B (gradient environment) tensor_type w);;
  do w <- asserted
            (initTensorSync B (Tensor.getName (gradient environment)) 0 w);;
  do w <- asserted
            (evaluateSync B (gradient_expansion environment)
               (gradient environment) w);;
  do '(grad_maxabs, w) <-
    asserted
      (let '(done, norm, w) :=
         computeMaxAbsSync B (Tensor.getName (gradient environment)) w in
       (done, (norm, w)));;
  let max_grad_maxabs :=
    if (max_grad_maxabs <? grad_maxabs)%float then grad_maxabs
    else max_grad_maxabs in
  do w <-
    (if (tolerance_ s <? grad_maxabs)%float then
       do add_pattern <-
         asserted
           (generate_addition_pattern B (Tensor.getRank (tensor environment))
              true (Tensor.getName (tensor environment))
              (Tensor.getName (gradient environment)));;
       asserted (addTensorsSync B add_pattern (- epsilon_ s)%float w)
     else Ok w);;
  do w <- asserted
            (destroyTensorSync B (Tensor.getName (gradient environment)) w);;
  Ok (max_grad_maxabs, w).

Fixpoint gradient_sweep (s : t) (environments : list Environment)
    (st : float * World B) : res (float * World B) :=
  match environments with
  | [] => Ok st
  | environment :: rest =>
      do st <- gradient_step s environment st;;
      gradient_sweep s rest st
  end.

(** Evaluates a scalar expansion into ["_scalar_norm"] and reads its 1-norm. *)
Definition read_scalar (e : expansion) (w : World B) : res (float * World B) :=
  do w <- asserted (initTensorSync B "_scalar_norm" 0 w);;
  do w <- asserted (evaluateSync B e scalar_norm w);;
  asserted
    (let '(done, norm, w) := computeNorm1Sync B "_scalar_norm" w in
     (done, (norm, w))).

(** [while(!converged){...}], entered with [converged == false]: the residual
    norm last read, the iteration counter (an [unsigned int]) and the state of
    the server when the loop is left. *)
Fixpoint optimize (fuel : nat) (s : t) (residual : expansion)
    (iteration : Z) (w : World B) : res (float * Z * World B) :=
  match fuel with
  | O => Err OutOfFuel
  | S fuel' =>
      let iteration := (iteration + 1) mod 2 ^ 32 in
      let max_grad_maxabs := 0%float in
      do '(max_grad_maxabs, w) <-
        gradient_sweep s (environments_ s) (max_grad_maxabs, w);;
      do '(residual_norm2, w) <- read_scalar residual w;;
      let converged := (max_grad_maxabs <=? tolerance_ s)%float in
      if converged then Ok (residual_norm2, iteration, w)
      else optimize fuel' s residual iteration w
  end.

(** The environments of the optimizable tensors of the approximant, one for
    each tensor name, appended to [environments_]. *)
Definition prepare_environments (lagrangian : expansion)
    (approximant : TensorExpansion.t) (environments : list Environment)
  : list Environment :=
  snd
    (fold_left
       (fun acc network =>
          fold_left
            (fun '(tensor_names, environments) tensor =>
               if TensorConn.isOptimizable tensor then
                 if existsb (String.eqb (TensorConn.getName tensor))
                      tensor_names
                 then (tensor_names, environments)
                 else
                   (TensorConn.getName tensor :: tensor_names,
                    environments ++
                    [mk_env (TensorConn.getTensor tensor)
                       (Tensor.mk ("_g" ++ TensorConn.getName tensor)
                          (Tensor.extents_ (TensorConn.getTensor tensor))
                          VOID)
                       (Derivative lagrangian (TensorConn.getName tensor)
                          true)])
               else (tensor_names, environments))
            (fst network) acc)
       (TensorExpansion.components_ approximant)
       ([], environments)).

Definition one : complex := (1%float, 0%float).
Definition minus_one : complex := ((-1)%float, 0%float).

(** The expansions [reconstruct] builds before it iterates. *)

(* |approximant> *)
Definition approximant_ket (s : t) : expansion :=
  Conjugated (Operand (approximant_ s)).

(* <approximant|expansion> *)
Definition overlap (s : t) : expansion :=
  InnerProduct "Overlap" (Operand (approximant_ s)) (Operand (expansion_ s)).

(* <approximant|approximant> *)
Definition normalization (s : t) : expansion :=
  InnerProduct "Normalization" (Operand (approximant_ s)) (approximant_ket s).

Definition lagrangian (s : t) : expansion :=
  Combination "Lagrangian"
    [(normalization s, one); (overlap s, minus_one)].

(* <expansion| *)
Definition expansion_bra (s : t) : expansion :=
  Conjugated (Operand (expansion_ s)).

(* <expansion|expansion> *)
Definition input_norm (s : t) : expansion :=
  InnerProduct "InputNorm" (expansion_bra s) (Operand (expansion_ s)).

(* <expansion|approximant> *)
Definition overlap_conj (s : t) : expansion :=
  InnerProduct "OverlapConj" (expansion_bra s) (approximant_ket s).

Definition residual (s : t) : expansion :=
  Combination "Residual"
    [(input_norm s, one); (normalization s, one); (overlap s, minus_one);
     (overlap_conj s, minus_one)].

(** The reconstructor as the loop finds it: both results reset to 0.0 and the
    environments of the optimizable tensors appended. *)
Definition with_environments (s : t) : t :=
  mk (expansion_ s) (approximant_ s) (max_iterations_ s) (epsilon_ s)
     (tolerance_ s) 0%float 0%float
     (prepare_environments (lagrangian s) (approximant_ s) (environments_ s)).

(** [reconstruct(&residual_norm2,&fidelity)]: the returned flag, the contents
    of the two output cells, the reconstructor and the server afterwards. *)
Definition reconstruct (fuel : nat) (s : t) (w : World B)
  : res (bool * (float * float) * t * World B) :=
  let s := with_environments s in
  match environments_ s with
  | [] => Ok (true, (residual_norm2_ s, fidelity_ s), s, w)
  | environment0 :: _ =>
      do w <- asserted
                (createTensorSync B scalar_norm
                   (Tensor.getElementType (tensor environment0)) w);;
      do '(input_expansion_norm, w) <- read_scalar (input_norm s) w;;
      let input_expansion_norm := sqrt input_expansion_norm in
      do '(residual_norm2, iteration, w) <- optimize fuel s (residual s) 0 w;;
      do '(output_expansion_norm, w) <- read_scalar (normalization s) w;;
      let output_expansion_norm := sqrt output_expansion_norm in
      do '(overlap_abs, w) <- read_scalar (overlap_conj s) w;;
      do '(overlap_abs, w) <- read_scalar (overlap s) w;;
      let fidelity := (overlap_abs * overlap_abs)%float in
      do w <- asserted (destroyTensorSync B "_scalar_norm" w);;
      Ok (true, (residual_norm2, fidelity),
          mk (expansion_ s) (approximant_ s) (max_iterations_ s) (epsilon_ s)
             (tolerance_ s) residual_norm2 fidelity (environments_ s),
          w)
  end.

End Driver.

End Reconstructor.

(** ** The MPI communicator proxy (utils/mpi_proxy.cpp) *)

Module MPICommProxy.

(** The result of [MPI_Comm_compare]. *)
Inductive comparison : Type :=
| MPI_IDENT
| MPI_CONGRUENT
| MPI_SIMILAR
| MPI_UNEQUAL.

(** The error code of an MPI call. *)
Inductive errcode : Type :=
| MPI_SUCCESS
| MPI_ERR (code : Z).

Definition is_success (e : errcode) : bool :=
  match e with
  | MPI_SUCCESS => true
  | MPI_ERR _ => false
  end.

Definition is_ident (c : comparison) : bool :=
  match c with
  | MPI_IDENT => true
  | _ => false
  end.

(** The MPI library, as far as the proxy calls it. *)
Record MPI : Type := mk_mpi {
  MPI_Comm : Type;
  MPI_COMM_WORLD : MPI_Comm;
  MPI_COMM_SELF : MPI_Comm;
  MPI_Comm_compare : MPI_Comm -> MPI_Comm -> errcode * comparison;
  MPI_Comm_free : MPI_Comm -> errcode
}.

Section Proxy.

Context (M : MPI).

(** [std::shared_ptr<void> mpi_comm_ptr_]: the communicator it points to and
    the number of owners, [use_count()]. *)
Record shared_ptr : Type := mk_ptr {
  pointee : MPI_Comm M;
  use_count : Z
}.

(** Modelled from the spec: the class itself (mpi_proxy.hpp) is not under
    src: a "reference-counted proxy with a destroy_on_free bit". An empty
    proxy holds the null pointer. *)
Record t : Type := mk {
  mpi_comm_ptr_ : option shared_ptr;
  destroy_on_free_ : bool
}.

Definition isEmpty (p : t) : bool :=
  match mpi_comm_ptr_ p with
  | None => true
  | Some _ => false
  end.

(** [MPICommProxy::~MPICommProxy()], built with ([mpi_enabled]) or without
    [MPI_ENABLED]: the communicator handed to [MPI_Comm_free], if any. *)
Definition destructor (mpi_enabled : bool) (p : t)
  : res (option (MPI_Comm M)) :=
  if mpi_enabled then
    if destroy_on_free_ p then
      match mpi_comm_ptr_ p with
      | Some ptr =>
          if use_count ptr =? 1 then
            let mpicomm := pointee ptr in
            let '(errc, res) :=
              MPI_Comm_compare M mpicomm (MPI_COMM_WORLD M) in
            do _ <- assert (is_success errc);;
            if negb (is_ident res) then
              let '(errc, res) :=
                MPI_Comm_compare M mpicomm (MPI_COMM_SELF M) in
              do _ <- assert (is_success errc);;
              if negb (is_ident res) then
                let errc := MPI_Comm_free M mpicomm in
                do _ <- assert (is_success errc);;
                Ok (Some mpicomm)
              else Ok None
            else Ok None
          else Ok None
      | None => Ok None
      end
    else Ok None
  else Ok None.

End Proxy.

End MPICommProxy.

(** ** Quantum gates (exatn/quantum.cpp) *)

Module Quantum.

(** The gates [getQuantumGateData] has a case for; [gate_other] stands for
    any further enumerator of [QuantumGate] (quantum.hpp is not under src). *)
Inductive QuantumGate : Type :=
| gate_I
| gate_X
| gate_Y
| gate_Z
| gate_H
| gate_S
| gate_T
| gate_other.

(** The 2x2 matrices, stored column by column. *)
Definition GATE_I : list complex :=
  [(1, 0); (0, 0);
   (0, 0); (1, 0)]%float.

Definition GATE_X : list complex :=
  [(0, 0); (1, 0);
   (1, 0); (0, 0)]%float.

Definition GATE_Y : list complex :=
  [(0, 0); (0, 1);
   (0, -1); (0, 0)]%float.

Definition GATE_Z : list complex :=
  [(1, 0); (0, 0);
   (0, 0); (-1, 0)]%float.

Definition GATE_H : list complex :=
  [(1, 0); (1, 0);
   (1, 0); (-1, 0)]%float.

Definition GATE_S : list complex :=
  [(1, 0); (0, 0);
   (0, 0); (0, 1)]%float.

Definition GATE_T : list complex :=
  [(1, 0); (0, 0);
   (0, 0); (sqrt 2 * 0.5, sqrt 2 * 0.5)]%float.

(** [getQuantumGateData(gate_name,angles)]: the angles are not read. *)
Definition getQuantumGateData (gate_name : QuantumGate) (angles : list float)
  : res (list complex) :=
  match gate_name with
  | gate_I => Ok GATE_I
  | gate_X => Ok GATE_X
  | gate_Y => Ok GATE_Y
  | gate_Z => Ok GATE_Z
  | gate_H => Ok GATE_H
  | gate_S => Ok GATE_S
  | gate_T => Ok GATE_T
  | gate_other => Err AssertionFailed
  end.

End Quantum.

(** ** A numerical server for one-element real tensors

    The smallest instance of the server interface, used to run [reconstruct]
    on concrete problems: the target is the number [x], the approximant is
    the number [c * y] with [c] a fixed factor and [y] the optimizable tensor
    "Y". The server holds [y], the accumulator "_scalar_norm" and the gradient
    "_gY". *)

Module ScalarServer.

Import Reconstructor.

Record world : Type := mk_world {
  y : float;
  acc : float;
  grad : float
}.

Section Problem.

Context (x c : float).

(** The value of an expansion and its derivative with respect to the bra
    occurrence of [y]. *)
Fixpoint value (w : world) (e : expansion) : float * float :=
  match e with
  | Operand te =>
      if TensorExpansion.isKet te then (x, 0%float)
      else ((c * y w)%float, c)
  | Conjugated e' => (fst (value w e'), 0%float)
  | InnerProduct _ bra ket =>
      let '(vb, db) := value w bra in
      let '(vk, dk) := value w ket in
      ((vb * vk)%float, (db * vk + vb * dk)%float)
  | Combination _ terms =>
      (fix sum (ts : list (expansion * complex)) : float * float :=
         match ts with
         | [] => (0%float, 0%float)
         | (e', coefficient) :: ts' =>
             let '(v, d) := value w e' in
             let '(sv, sd) := sum ts' in
             ((fst coefficient * v + sv)%float,
              (fst coefficient * d + sd)%float)
         end) terms
  | Derivative e' _ _ => (snd (value w e'), 0%float)
  end.

Definition is_scalar_norm (name : string) : bool :=
  String.eqb name "_scalar_norm".

Definition server : Backend :=
  {| World := world;
     createTensorSync := fun _ _ w => (true, w);
     initTensorSync := fun name v w =>
       (true,
        if is_scalar_norm name then mk_world (y w) v (grad w)
        else mk_world (y w) (acc w) v);
     evaluateSync := fun e accumulator w =>
       let v := fst (value w e) in
       (true,
        if is_scalar_norm (Tensor.getName accumulator)
        then mk_world (y w) (acc w + v) (grad w)
        else mk_world (y w) (acc w) (grad w + v));
     computeNorm1Sync := fun _ w => (true, abs (acc w), w);
     computeMaxAbsSync := fun _ w => (true, abs (grad w), w);
     addTensorsSync := fun _ alpha w =>
       (true, mk_world (y w + alpha * grad w) (acc w) (grad w));
     destroyTensorSync := fun _ w => (true, w);
     generate_addition_pattern := fun _ _ name1 name2 =>
       (true, (name1 ++ "+=" ++ name2)%string) |}.

End Problem.

(** The networks of the problem: the approximant <Y| with its optimizable
    tensor (vertex 1) and its fixed factor (vertex 2), and the target |X>. *)
Definition output_tensor : TensorConn.t :=
  TensorConn.TensorConn (Tensor.mk "_OUT" [] REAL64) 0 [] false.

Definition tensor_Y : TensorConn.t :=
  TensorConn.mk (Tensor.mk "Y" [] REAL64) 1 [] false true.

Definition tensor_C : TensorConn.t :=
  TensorConn.TensorConn (Tensor.mk "C" [] REAL64) 2 [] false.

Definition tensor_X : TensorConn.t :=
  TensorConn.TensorConn (Tensor.mk "X" [] REAL64) 1 [] false.

Definition approximant : TensorExpansion.t :=
  TensorExpansion.mk false 0 [([output_tensor; tensor_Y; tensor_C], one)].

Definition target : TensorExpansion.t :=
  TensorExpansion.mk true 0 [([output_tensor; tensor_X], one)].

(** A reconstructor on this problem with the given cap, learning rate and
    tolerance. *)
Definition reconstructor (max_iterations : Z) (epsilon tolerance : float)
  : Reconstructor.t :=
  Reconstructor.mk target approximant max_iterations epsilon tolerance
    0%float 0%float [].

End ScalarServer.

(** * The properties of the specification, stated

    The predicates of the claims and the concrete inputs they are tried on. *)

Local Open Scope Z_scope.

(** ** Tensor operations: operand roles *)

(** C2, as the specification states it: the bitset of an operation marks
    operand 0, and no other operand, as written. *)
Definition writes_only_output (op : TensorOperation.t) : Prop :=
  forall i : Z, TensorOperation.operandIsMutable op i = true <-> i = 0.

(** ** Connected tensors: conjugation *)

(** What conjugation may do to one leg: the connection stays, a directed leg
    turns around, an undirected one stays undirected. *)
Definition leg_reversed (leg leg' : TensorLeg.t) : Prop :=
  TensorLeg.tensor_id_ leg' = TensorLeg.tensor_id_ leg
  /\ TensorLeg.dimensn_id_ leg' = TensorLeg.dimensn_id_ leg
  /\ (TensorLeg.direction_ leg = UNDIRECT ->
      TensorLeg.direction_ leg' = UNDIRECT)
  /\ (TensorLeg.direction_ leg = INWARD ->
      TensorLeg.direction_ leg' = OUTWARD)
  /\ (TensorLeg.direction_ leg = OUTWARD ->
      TensorLeg.direction_ leg' = INWARD).

(** ** The MPI communicator proxy *)

(** An MPI with communicators numbered from 0 (the world) and 1 (self), in
    which two communicators are identical when they are the same one. *)
Definition numbered_mpi : MPICommProxy.MPI :=
  {| MPICommProxy.MPI_Comm := nat;
     MPICommProxy.MPI_COMM_WORLD := 0%nat;
     MPICommProxy.MPI_COMM_SELF := 1%nat;
     MPICommProxy.MPI_Comm_compare := fun a b =>
       (MPICommProxy.MPI_SUCCESS,
        if Nat.eqb a b then MPICommProxy.MPI_IDENT
        else MPICommProxy.MPI_UNEQUAL);
     MPICommProxy.MPI_Comm_free := fun _ => MPICommProxy.MPI_SUCCESS |}.

(** The only proxy of communicator 5, which it is to free. *)
Definition owned_proxy : MPICommProxy.t numbered_mpi :=
  MPICommProxy.mk numbered_mpi
    (Some (MPICommProxy.mk_ptr numbered_mpi 5%nat 1)) true.

(** ** The reconstructor: two runs *)

(** A descent that never converges: target [x = 1], approximant [2 * y]
    started at [y = 0], learning rate 1/2, tolerance 1/8. The update
    multiplies the error by [1 - 1/2 * 2 * 2 = -1], so [y] alternates between
    0 and 1 and the gradient keeps the magnitude 2. *)
Definition stuck_server : Reconstructor.Backend := ScalarServer.server 1 2.

Definition stuck_reconstructor (max_iterations : Z) : Reconstructor.t :=
  ScalarServer.reconstructor max_iterations 0.5 0.125.

Definition stuck_start : ScalarServer.world := ScalarServer.mk_world 0 0 0.

(** A run that converges: target [x = 2], approximant [y] started at 1,
    learning rate 1/2, tolerance 1/4. *)
Definition converging_run
  : res (bool * (float * float) * Reconstructor.t * ScalarServer.world) :=
  Reconstructor.reconstruct (ScalarServer.server 2 1) 3
    (ScalarServer.reconstructor 1000 0.5 0.25)
    (ScalarServer.mk_world 1 0 0).

Definition converged_state : Reconstructor.t :=
  match converging_run with
  | Ok (_, _, s', _) => s'
  | Err _ => ScalarServer.reconstructor 1000 0.5 0.25
  end.

Definition converged_world : ScalarServer.world :=
  match converging_run with
  | Ok (_, _, _, w') => w'
  | Err _ => ScalarServer.mk_world 1 0 0
  end.

(** The state of the server of that run before its third sweep. *)
Definition third_sweep_start : ScalarServer.world :=
  ScalarServer.mk_world 1.75 0.0625 (-0.5).

(** ** The METIS graph: small graphs *)

(** Three vertices of weight 2, pairwise connected: the edge 0-1 has weight 3,
    the edge 0-2 weight 5 and the edge 1-2 weight 7. *)
Definition triangle : MetisGraph.t :=
  MetisGraph.mk 3 [] [0; 2; 4; 6] [1; 2; 0; 2; 0; 1] [2; 2; 2]
    [3; 5; 3; 7; 5; 7] [] [] 0 0 0.

(** Two vertices, each with one edge to a third vertex that is appended
    next (a graph is built vertex by vertex, every vertex with all of its
    edges). *)
Definition two_leaves : MetisGraph.t :=
  MetisGraph.mk 2 [] [0; 1; 2] [2; 2] [1; 1] [3; 4] [] [] 0 0 0.


(** Two vertices without any edge. *)
Definition isolated_pair : MetisGraph.t :=
  MetisGraph.mk 2 [] [0; 0; 0] [] [1; 1] [] [] [] 0 0 0.

(** A path 0 - 1 - 2 - 3 with edges of weight 4, 5 and 6. *)
Definition path4 : MetisGraph.t :=
  MetisGraph.mk 4 [] [0; 1; 3; 5; 6] [1; 0; 2; 1; 3; 2] [1; 1; 1; 1]
    [4; 4; 5; 5; 6; 6] [] [] 0 0 0.

(** ** The METIS graph: the wire format *)

(** The signed range of an item of [n] bytes. *)
Definition fits (n : nat) (x : Z) : Prop :=
  - 2 ^ (8 * Z.of_nat n - 1) <= x < 2 ^ (8 * Z.of_nat n - 1).

Section WireFormat.

Context (sizeof_idx_t : nat).

(** The bytes of a vector on the wire: its length as a 64-bit unsigned
    integer, then its elements in turn, least significant byte first. *)
Definition vector_bytes (v : list Z) : list byte :=
  BytePacket.le_bytes 8 (vsize v)
  ++ flat_map (BytePacket.le_bytes sizeof_idx_t) v.

(** The bytes of a graph on the wire. *)
Definition graph_bytes (g : MetisGraph.t) : list byte :=
  BytePacket.le_bytes sizeof_idx_t (MetisGraph.num_vertices_ g)
  ++ vector_bytes (MetisGraph.renumber_ g)
  ++ vector_bytes (MetisGraph.xadj_ g)
  ++ vector_bytes (MetisGraph.adjncy_ g)
  ++ vector_bytes (MetisGraph.vwgt_ g)
  ++ vector_bytes (MetisGraph.adjwgt_ g).

(** A graph whose members fit their types: [idx_t] for the number of
    vertices and the elements, [std::size_t] for the lengths. *)
Definition representable (g : MetisGraph.t) : Prop :=
  fits sizeof_idx_t (MetisGraph.num_vertices_ g)
  /\ Forall
       (fun v => Forall (fits sizeof_idx_t) v /\ vsize v < 2 ^ 64)
       [MetisGraph.renumber_ g; MetisGraph.xadj_ g; MetisGraph.adjncy_ g;
        MetisGraph.vwgt_ g; MetisGraph.adjwgt_ g].

End WireFormat.

(** ** The METIS graph: structural invariants *)

(** The offsets do not decrease. *)
Definition monotone (xadj : list Z) : Prop :=
  forall (i j : nat) (x y : Z),
    (i <= j)%nat -> xadj !! i = Some x -> xadj !! j = Some y -> x <= y.

(** The sizes the specification asks for:
    [xadj.size() == num_vertices+1] and
    [adjncy.size() == adjwgt.size() == xadj[num_vertices]]. *)
Definition sizes_ok (g : MetisGraph.t) : Prop :=
  vsize (MetisGraph.xadj_ g) = MetisGraph.num_vertices_ g + 1
  /\ vsize (MetisGraph.adjncy_ g) = vsize (MetisGraph.adjwgt_ g)
  /\ vget (MetisGraph.xadj_ g) (MetisGraph.num_vertices_ g)
     = Ok (vsize (MetisGraph.adjncy_ g)).

(** A graph in compressed form: the sizes agree, every vertex has a weight,
    and the offsets start at 0 and do not decrease. *)
Definition well_formed (g : MetisGraph.t) : Prop :=
  sizes_ok g
  /\ vsize (MetisGraph.vwgt_ g) = MetisGraph.num_vertices_ g
  /\ vget (MetisGraph.xadj_ g) 0 = Ok 0
  /\ monotone (MetisGraph.xadj_ g).

(** The adjacency list of a vertex and the number of its edges. *)
Definition offset_of (g : MetisGraph.t) (v : Z) : Z :=
  nth (Z.to_nat v) (MetisGraph.xadj_ g) 0.

Definition adjacency (g : MetisGraph.t) (v : Z) : list Z :=
  take (Z.to_nat (offset_of g (v + 1) - offset_of g v))
    (drop (Z.to_nat (offset_of g v)) (MetisGraph.adjncy_ g)).

Definition degree (g : MetisGraph.t) (v : Z) : Z :=
  offset_of g (v + 1) - offset_of g v.

Definition adjacency_sorted (g : MetisGraph.t) : Prop :=
  forall v : Z,
    0 <= v < MetisGraph.num_vertices_ g -> Sorted Z.le (adjacency g v).

(** C6, as the specification states it. *)
Definition invariants (g : MetisGraph.t) : Prop :=
  sizes_ok g /\ adjacency_sorted g.


(** ** The METIS graph: totals *)

(** The sum of the weights of a vector. *)
Definition total (v : list Z) : Z := foldr Z.add 0 v.

(** The triangle with a partitioning into [{0, 1}] and [{2}] and with the
    tensor ids 10, 20 and 30 behind its vertices. *)
Definition partitioned_triangle : MetisGraph.t :=
  MetisGraph.mk 3 [10; 20; 30] [0; 2; 4; 6] [1; 2; 0; 2; 0; 1] [2; 2; 2]
    [3; 5; 3; 7; 5; 7] [0; 0; 1] [4; 2] 12 2 2.

(** ** Connected tensors: edits *)

(** A connected tensor as the constructor and the edits other than
    [resetTensorId] build it, whatever the methods of the stored tensor
    do. *)
Inductive built : TensorConn.t -> Prop :=
| built_new (tensor : Tensor.t) (id : Z) (legs : list TensorLeg.t)
    (conjugated : bool) :
    built (TensorConn.TensorConn tensor id legs conjugated)
| built_conjugate (x : TensorConn.t) :
    built x -> built (TensorConn.conjugate x)
| built_conjugate_to (x : TensorConn.t) (conjug : bool) :
    built x -> built (TensorConn.conjugate_to x conjug)
| built_resetOptimizability (x x' : TensorConn.t) (optimizable : bool) :
    built x -> TensorConn.resetOptimizability x optimizable = Ok x' ->
    built x'
| built_deleteLeg (deleteDimension : Tensor.t -> Z -> Tensor.t)
    (x x' : TensorConn.t) (leg_id : Z) :
    built x -> TensorConn.deleteLeg deleteDimension x leg_id = Ok x' ->
    built x'
| built_appendLeg (appendDimension : Tensor.t -> Z * Z -> Z -> Tensor.t)
    (x : TensorConn.t) (subspace : Z * Z) (dim_extent : Z)
    (tensor_leg : TensorLeg.t) :
    built x ->
    built (TensorConn.appendLeg appendDimension x subspace dim_extent
             tensor_leg)
| built_replaceStoredTensor (permuted : Tensor.t -> list Z -> Tensor.t)
    (hex_name : Tensor.t -> string) (x x' : TensorConn.t) (order : list Z)
    (name : string) :
    built x ->
    TensorConn.replaceStoredTensor permuted hex_name x order name = Ok x' ->
    built x'.

(** The legs that are left when the legs at the positions [leg_ids] are taken
    out, [position] being the position of the first leg of [legs]. *)
Fixpoint legs_without (leg_ids : list Z) (position : Z)
    (legs : list TensorLeg.t) : list TensorLeg.t :=
  match legs with
  | [] => []
  | leg :: rest =>
      if bool_decide (elem_of position leg_ids)
      then legs_without leg_ids (position + 1) rest
      else leg :: legs_without leg_ids (position + 1) rest
  end.

(** A tensor without its dimension [dim_id], and a tensor with its dimensions
    in the given order: the two edits of a stored tensor, on its extents. *)
Definition without_extent (tensor : Tensor.t) (dim_id : Z) : Tensor.t :=
  Tensor.mk (Tensor.name_ tensor)
    (delete (Z.to_nat dim_id) (Tensor.extents_ tensor))
    (Tensor.element_type_ tensor).

Definition with_extents_in_order (tensor : Tensor.t) (order : list Z)
  : Tensor.t :=
  Tensor.mk (Tensor.name_ tensor)
    (map (fun k => nth (Z.to_nat k) (Tensor.extents_ tensor) 0) order)
    (Tensor.element_type_ tensor).

(** A connected tensor with four legs, to the vertices 5, 6, 7 and 8. *)
Definition four_legs : TensorConn.t :=
  TensorConn.TensorConn (Tensor.mk "A" [2; 3; 4; 5] REAL64) 1
    [TensorLeg.mk 5 0 UNDIRECT; TensorLeg.mk 6 0 INWARD;
     TensorLeg.mk 7 1 OUTWARD; TensorLeg.mk 8 2 UNDIRECT]
    false.

(** ** The reconstructor: the tensors of an expansion *)

(** The connected tensors of all networks of an expansion, in the order in
    which [reconstruct] goes through them. *)
Definition tensors_of (e : TensorExpansion.t) : list TensorConn.t :=
  flat_map fst (TensorExpansion.components_ e).

(** The name of the tensor an environment is for. *)
Definition environment_name (environment : Reconstructor.Environment)
  : string :=
  Tensor.getName (Reconstructor.tensor environment).

(** One pass of the inner loop of [prepare_environments], with the names seen
    so far and the environments so far. *)
Definition prepare_step (lagrangian : Reconstructor.expansion)
  : list string * list Reconstructor.Environment -> TensorConn.t ->
    list string * list Reconstructor.Environment :=
  fun '(tensor_names, environments) tensor =>
  if TensorConn.isOptimizable tensor then
    if existsb (String.eqb (TensorConn.getName tensor)) tensor_names
    then (tensor_names, environments)
    else
      (TensorConn.getName tensor :: tensor_names,
       environments ++
       [Reconstructor.mk_env (TensorConn.getTensor tensor)
          (Tensor.mk ("_g" ++ TensorConn.getName tensor)
             (Tensor.extents_ (TensorConn.getTensor tensor)) VOID)
          (Reconstructor.Derivative lagrangian (TensorConn.getName tensor)
             true)])
  else (tensor_names, environments).

(** An approximant without an optimizable tensor: the fixed factor alone. *)
Definition fixed_approximant : TensorExpansion.t :=
  TensorExpansion.mk false 0
    [([ScalarServer.output_tensor; ScalarServer.tensor_C],
      Reconstructor.one)].

(** ** Element types and gates: arithmetic on the tables *)

(** The product and the sum of two [std::complex<double>], and the
    conjugate. *)
Definition cmul (a b : complex) : complex :=
  ((fst a * fst b - snd a * snd b)%float,
   (fst a * snd b + snd a * fst b)%float).

Definition cadd (a b : complex) : complex :=
  ((fst a + fst b)%float, (snd a + snd b)%float).

Definition cconj (a : complex) : complex := (fst a, (- snd a)%float).

(** The product of two 2x2 matrices stored column by column, and the
    conjugate transpose of one. *)
Definition matmul2 (a b : list complex) : list complex :=
  match a, b with
  | [a00; a10; a01; a11], [b00; b10; b01; b11] =>
      [cadd (cmul a00 b00) (cmul a01 b10); cadd (cmul a10 b00) (cmul a11 b10);
       cadd (cmul a00 b01) (cmul a01 b11); cadd (cmul a10 b01) (cmul a11 b11)]
  | _, _ => []
  end.

Definition dagger2 (a : list complex) : list complex :=
  match a with
  | [a00; a10; a01; a11] => [cconj a00; cconj a01; cconj a10; cconj a11]
  | _ => []
  end.

(** Equality of two matrices, entry by entry, as [==] on [double] has it. *)
Definition same_entries (a b : list complex) : bool :=
  (length a =? length b)%nat
  && forallb
       (fun '(x, y) => (fst x =? fst y)%float && (snd x =? snd y)%float)
       (zip a b).

(** ** The METIS graph: partitioned graphs *)

(** A graph in compressed form whose adjacency entries are vertices, with a
    partition for every vertex and, if it has a renumbering, no more
    original ids than vertices. *)
Definition partitioned (g : MetisGraph.t) : Prop :=
  well_formed g
  /\ vsize (MetisGraph.partitions_ g) = MetisGraph.num_vertices_ g
  /\ Forall (fun a => 0 <= a < MetisGraph.num_vertices_ g)
       (MetisGraph.adjncy_ g)
  /\ vsize (MetisGraph.renumber_ g) <= MetisGraph.num_vertices_ g.

(** The original ids of the vertices in the requested partitions. *)
Definition requested_ids (requested : Z -> bool) (g : MetisGraph.t) : list Z :=
  map snd
    (List.filter (fun pr => requested (fst pr))
       (combine (MetisGraph.partitions_ g) (MetisGraph.renumber_ g))).

(** The two vertices of the first partition of the partitioned triangle: the
    edges to vertex 2 have gone into their weights. *)
Definition first_partition : MetisGraph.t :=
  MetisGraph.mk 2 [10; 20] [0; 1; 2] [1; 0] [6; 8] [3; 3] [] [] 0 0 0.

(** ** The METIS graph: what a partitioning is measured by *)

(** The weight of a partition: the weights of the vertices in it, added
    up. *)
Definition partition_weight (partitions vwgt : list Z) (p : Z) : Z :=
  total
    (map snd (List.filter (fun pr => fst pr =? p) (combine partitions vwgt))).

(** The edges of a vertex that end in another partition, and their number
    over all vertices (every cross edge of an undirected graph is counted
    from both ends). *)
Definition crossing (partitions : list Z) (partition : Z) (ends : list Z)
  : Z :=
  Z.of_nat
    (length
       (List.filter
          (fun a => negb (nth (Z.to_nat a) partitions 0 =? partition)) ends)).

Definition cross_ends (g : MetisGraph.t) (partitions : list Z) : Z :=
  total
    (map (fun v =>
            crossing partitions (nth (Z.to_nat v) partitions 0)
              (adjacency g v))
       (seqZ 0 (MetisGraph.num_vertices_ g))).

(** A partitioner that puts vertex 2 of a graph into partition 1 and every
    other vertex into partition 0, and one that fails. *)
Definition splitting_partitioner : MetisGraph.metis_partitioner :=
  fun nvtxs ncon xadj adjncy vwgt adjwgt nparts ubvec part =>
    (MetisGraph.METIS_OK, 12,
     map (fun v => if v =? 2 then 1 else 0) (seqZ 0 nvtxs)).

Definition failing_partitioner : MetisGraph.metis_partitioner :=
  fun nvtxs ncon xadj adjncy vwgt adjwgt nparts ubvec part =>
    (MetisGraph.METIS_ERROR_INPUT, 0, part).

(** A square matrix of [n] rows, as the coarse adjacency matrix is. *)
Definition square (n : Z) (adj : list (list Z)) : Prop :=
  Z.of_nat (length adj) = n /\ Forall (fun row => vsize row = n) adj.

(** ** The METIS graph: volumes *)

(** The weights of the edges of a vertex. *)
Definition edge_weights (g : MetisGraph.t) (v : Z) : list Z :=
  take (Z.to_nat (offset_of g (v + 1) - offset_of g v))
    (drop (Z.to_nat (offset_of g v)) (MetisGraph.adjwgt_ g)).

(** The logarithm of the volume of the tensor behind a vertex: weights are
    logarithms shifted by one, so the vertex weight counts in full and every
    edge with its weight less one. *)
Definition vertex_volume (g : MetisGraph.t) (v : Z) : Z :=
  nth (Z.to_nat v) (MetisGraph.vwgt_ g) 0
  + total (map (fun w => w - 1) (edge_weights g v)).

(** The same, added up over all vertices of a graph, and over the vertices
    of the requested partitions. *)
Definition graph_volume (g : MetisGraph.t) : Z :=
  total (MetisGraph.vwgt_ g) + total (MetisGraph.adjwgt_ g)
  - vsize (MetisGraph.adjwgt_ g).

Definition requested_volume (requested : Z -> bool) (g : MetisGraph.t) : Z :=
  total
    (map (fun v =>
            if requested (nth (Z.to_nat v) (MetisGraph.partitions_ g) 0)
            then vertex_volume g v else 0)
       (seqZ 0 (MetisGraph.num_vertices_ g))).

(** ** The METIS graph: the graph of some partitions, vertex by vertex *)

(** Whether a vertex lies in one of the requested partitions. *)
Definition in_requested (requested : Z -> bool) (g : MetisGraph.t) (v : Z)
  : bool :=
  requested (nth (Z.to_nat v) (MetisGraph.partitions_ g) 0).

(** The id a vertex of the requested partitions has in the child: the number
    of vertices of the requested partitions before it. *)
Definition child_id (requested : Z -> bool) (g : MetisGraph.t) (v : Z) : Z :=
  Z.of_nat (length (List.filter (in_requested requested g) (seqZ 0 v))).

(** The edges of a vertex, in the order of [adjncy_]: the adjacent vertex and
    the weight of each. *)
Definition edges (g : MetisGraph.t) (v : Z) : list (Z * Z) :=
  map (fun edge =>
         (nth (Z.to_nat edge) (MetisGraph.adjncy_ g) 0,
          nth (Z.to_nat edge) (MetisGraph.adjwgt_ g) 0))
    (seqZ (offset_of g v) (degree g v)).

(** The edges of a vertex that stay inside the requested partitions, and the
    ones that leave them. *)
Definition internal_edges (requested : Z -> bool) (g : MetisGraph.t) (v : Z)
  : list (Z * Z) :=
  List.filter (fun e => in_requested requested g (fst e)) (edges g v).

Definition external_edges (requested : Z -> bool) (g : MetisGraph.t) (v : Z)
  : list (Z * Z) :=
  List.filter (fun e => negb (in_requested requested g (fst e))) (edges g v).

(** ** Proof steps *)

(** One more binding of a program whose faults do not matter. *)
Ltac step_bind :=
  match goal with
  | |- context [bind ?m _] =>
      let r := fresh "r" in
      destruct m as [r |]; [| exact I]; unfold bind at 1; cbv beta iota
  end.

(** The offsets of a given graph do not decrease. *)
Ltac concrete_monotone :=
  let i := fresh "i" in
  let j := fresh "j" in
  let x := fresh "x" in
  let y := fresh "y" in
  let Hij := fresh "Hij" in
  let Hx := fresh "Hx" in
  let Hy := fresh "Hy" in
  intros i j x y Hij Hx Hy;
  repeat (destruct i as [| i]; cbn in Hx; [| try discriminate Hx]);
  repeat (destruct j as [| j]; cbn in Hy; [| try discriminate Hy]);
  injection Hx as <-; injection Hy as <-; lia.

(** * The properties of the specification, proved *)

(** ** Tensor operations: operand roles *)

Lemma testbit_1 (i : Z) : Z.testbit 1 i = true <-> i = 0.
Proof.
  destruct (Z.lt_trichotomy i 0) as [Hneg | [-> | Hpos]].
  - rewrite Z.testbit_neg_r by exact Hneg. split; [discriminate | lia].
  - split; reflexivity.
  - rewrite Z.bits_above_log2 by (simpl; lia). split; [discriminate | lia].
Qed.

Lemma testbit_3 (i : Z) : Z.testbit 3 i = true <-> i = 0 \/ i = 1.
Proof.
  destruct (Z.lt_trichotomy i 0) as [Hneg | [-> | Hpos]].
  - rewrite Z.testbit_neg_r by exact Hneg. split; [discriminate | lia].
  - split; [now left | reflexivity].
  - destruct (Z.eq_dec i 1) as [-> | Hne].
    + split; [now right | reflexivity].
    + rewrite Z.bits_above_log2 by (simpl; lia). split; [discriminate | lia].
Qed.

(** C2 (counterexample): the bitset of DECOMPOSE_SVD2 marks operand 1 as
    written too, so it does not mark operand 0 alone. *)
Lemma svd2_writes_two_operands :
  TensorOperation.operandIsMutable TensorOperation.TensorOpDecomposeSVD2 1
    = true
  /\ ~ writes_only_output TensorOperation.TensorOpDecomposeSVD2.
Proof.
  split; [reflexivity |].
  intros H. specialize (H 1). destruct H as [H _].
  discriminate (H eq_refl).
Qed.

(** C2 (amended): CREATE, TRANSFORM and CONTRACT write operand 0 and nothing
    else; DECOMPOSE_SVD2 writes its two factors, operands 0 and 1, and only
    reads operand 2. *)
Theorem operand_roles :
  writes_only_output TensorOperation.TensorOpCreate
  /\ writes_only_output TensorOperation.TensorOpTransform
  /\ writes_only_output TensorOperation.TensorOpContract
  /\ (forall i : Z,
        TensorOperation.operandIsMutable
          TensorOperation.TensorOpDecomposeSVD2 i = true
        <-> i = 0 \/ i = 1).
Proof.
  repeat split; try (intros H; revert H); try apply testbit_1;
    try apply testbit_3.
Qed.

(** ** Connected tensors: conjugation *)

Lemma reverseDirection_involutive (leg : TensorLeg.t) :
  TensorLeg.reverseDirection (TensorLeg.reverseDirection leg) = leg.
Proof. destruct leg as [i d []]; reflexivity. Qed.

Lemma reverseDirection_reversed (leg : TensorLeg.t) :
  leg_reversed leg (TensorLeg.reverseDirection leg).
Proof.
  destruct leg as [i d []]; repeat split; simpl; congruence.
Qed.

(** C7: [conjugate] toggles the flag of an input vertex, leaves the flag of
    the output vertex (id 0) as it is, reverses every directed leg and keeps
    the undirected ones; applied twice it gives the connected tensor back. *)
Theorem conjugate_spec (x : TensorConn.t) :
  (TensorConn.id_ x <> 0 ->
   TensorConn.conjugated_ (TensorConn.conjugate x)
     = negb (TensorConn.conjugated_ x))
  /\ (TensorConn.id_ x = 0 ->
      TensorConn.conjugated_ (TensorConn.conjugate x)
        = TensorConn.conjugated_ x)
  /\ Forall2 leg_reversed (TensorConn.legs_ x)
       (TensorConn.legs_ (TensorConn.conjugate x))
  /\ TensorConn.conjugate (TensorConn.conjugate x) = x.
Proof.
  destruct x as [tensor id legs conjugated optimizable].
  unfold TensorConn.conjugate; simpl.
  repeat split.
  - intros Hid. apply Z.eqb_neq in Hid. now rewrite Hid.
  - intros ->. reflexivity.
  - induction legs as [| leg legs IH]; constructor;
      [apply reverseDirection_reversed | exact IH].
  - f_equal.
    + rewrite map_map. rewrite <- (map_id legs) at 2.
      apply map_ext. intros leg. apply reverseDirection_involutive.
    + destruct (id =? 0); simpl; [reflexivity | apply negb_involutive].
Qed.

(** ** The MPI communicator proxy *)

Section ProxyFacts.

Import MPICommProxy.

Context (M : MPI).

(** C9: the destructor hands a communicator to [MPI_Comm_free] only when the
    destroy_on_free bit is set, the proxy holds the last reference and
    [MPI_Comm_compare] finds the communicator identical neither to
    MPI_COMM_WORLD nor to MPI_COMM_SELF. A communicator is identical to
    itself (the hypothesis on MPI), so neither of the two is ever freed. *)
Theorem destructor_frees_only_owned
    (Hident : forall c : MPI_Comm M,
        snd (MPI_Comm_compare M c c) = MPI_IDENT)
    (mpi_enabled : bool) (p : t M) (c : MPI_Comm M)
    (Hfree : destructor M mpi_enabled p = Ok (Some c)) :
  mpi_enabled = true
  /\ destroy_on_free_ M p = true
  /\ (exists ptr,
        mpi_comm_ptr_ M p = Some ptr
        /\ pointee M ptr = c /\ use_count M ptr = 1)
  /\ snd (MPI_Comm_compare M c (MPI_COMM_WORLD M)) <> MPI_IDENT
  /\ snd (MPI_Comm_compare M c (MPI_COMM_SELF M)) <> MPI_IDENT
  /\ c <> MPI_COMM_WORLD M
  /\ c <> MPI_COMM_SELF M.
Proof.
  unfold destructor in Hfree.
  destruct mpi_enabled; [| discriminate].
  destruct (destroy_on_free_ M p) eqn:Hbit; [| discriminate].
  destruct (mpi_comm_ptr_ M p) as [ptr |] eqn:Hptr; [| discriminate].
  destruct (use_count M ptr =? 1) eqn:Hcount; [| discriminate].
  apply Z.eqb_eq in Hcount.
  destruct (MPI_Comm_compare M (pointee M ptr) (MPI_COMM_WORLD M))
    as [errw resw] eqn:Hw.
  destruct (is_success errw); simpl in Hfree; [| discriminate].
  destruct (is_ident resw) eqn:Hiw; simpl in Hfree; [discriminate |].
  destruct (MPI_Comm_compare M (pointee M ptr) (MPI_COMM_SELF M))
    as [errs ress] eqn:Hs.
  destruct (is_success errs); simpl in Hfree; [| discriminate].
  destruct (is_ident ress) eqn:His; simpl in Hfree; [discriminate |].
  destruct (is_success (MPI_Comm_free M (pointee M ptr))); simpl in Hfree;
    [| discriminate].
  injection Hfree as <-.
  assert (Hnw : snd (MPI_Comm_compare M (pointee M ptr) (MPI_COMM_WORLD M))
                <> MPI_IDENT).
  { rewrite Hw. simpl. intros ->. discriminate. }
  assert (Hns : snd (MPI_Comm_compare M (pointee M ptr) (MPI_COMM_SELF M))
                <> MPI_IDENT).
  { rewrite Hs. simpl. intros ->. discriminate. }
  repeat split; try assumption.
  - exists ptr. repeat split; assumption.
  - intros Heq. apply Hnw. rewrite Heq. apply Hident.
  - intros Heq. apply Hns. rewrite Heq. apply Hident.
Qed.

End ProxyFacts.

Lemma destructor_frees_only_owned_witness :
  MPICommProxy.destroy_on_free_ numbered_mpi owned_proxy = true
  /\ (5%nat : MPICommProxy.MPI_Comm numbered_mpi)
     <> MPICommProxy.MPI_COMM_WORLD numbered_mpi.
Proof.
  pose proof
    (destructor_frees_only_owned numbered_mpi
       (fun c => f_equal
                   (fun b : bool =>
                      if b then MPICommProxy.MPI_IDENT
                      else MPICommProxy.MPI_UNEQUAL)
                   (Nat.eqb_refl c))
       true owned_proxy 5%nat eq_refl) as H.
  split; [apply H | apply H].
Defined.

(** ** The reconstructor: the optimization loop *)

Section LoopFacts.

Import Reconstructor.

Context (B : Backend).

Lemma bind_Ok {A C : Type} (m : res A) (k : A -> res C) (c : C) :
  bind m k = Ok c -> exists a, m = Ok a /\ k a = Ok c.
Proof. destruct m as [a | f]; simpl; [eauto | discriminate]. Qed.

(** The loop is left as soon as a sweep finds no gradient above the
    tolerance: one more unit of fuel than sweeps is enough. *)
Lemma optimize_converged (fuel : nat) (s : t) (residual : expansion)
    (iteration : Z) (w w1 w2 : World B) (max_grad residual_norm2 : float) :
  gradient_sweep B s (environments_ s) (0%float, w) = Ok (max_grad, w1) ->
  read_scalar B residual w1 = Ok (residual_norm2, w2) ->
  (max_grad <=? tolerance_ s)%float = true ->
  optimize B (S fuel) s residual iteration w
  = Ok (residual_norm2, (iteration + 1) mod 2 ^ 32, w2).
Proof.
  intros Hsweep Hread Hconv. simpl.
  rewrite Hsweep. simpl. rewrite Hread. simpl. rewrite Hconv. reflexivity.
Qed.

(** It goes on, whatever the iteration counter and [max_iterations_] are,
    when the sweep leaves a gradient above the tolerance. *)
Lemma optimize_continues (fuel : nat) (s : t) (residual : expansion)
    (iteration : Z) (w w1 w2 : World B) (max_grad residual_norm2 : float) :
  gradient_sweep B s (environments_ s) (0%float, w) = Ok (max_grad, w1) ->
  read_scalar B residual w1 = Ok (residual_norm2, w2) ->
  (max_grad <=? tolerance_ s)%float = false ->
  optimize B (S fuel) s residual iteration w
  = optimize B fuel s residual ((iteration + 1) mod 2 ^ 32) w2.
Proof.
  intros Hsweep Hread Hconv. simpl.
  rewrite Hsweep. simpl. rewrite Hread. simpl. rewrite Hconv. reflexivity.
Qed.

(** A fault of the loop is a fault of [reconstruct]. *)
Lemma reconstruct_loop_fault (fuel : nat) (s : t) (w w1 w2 : World B)
    (environment0 : Environment) (rest : list Environment)
    (input_expansion_norm : float) (f : fault) :
  environments_ (with_environments s) = environment0 :: rest ->
  asserted
    (createTensorSync B scalar_norm
       (Tensor.getElementType (tensor environment0)) w) = Ok w1 ->
  read_scalar B (input_norm (with_environments s)) w1
  = Ok (input_expansion_norm, w2) ->
  optimize B fuel (with_environments s) (residual (with_environments s)) 0 w2
  = Err f ->
  reconstruct B fuel s w = Err f.
Proof.
  intros Henv Hcreate Hinput Hloop.
  unfold reconstruct. cbv zeta. rewrite Henv.
  rewrite Hcreate. unfold bind at 1.
  rewrite Hinput. unfold bind at 1. cbv beta iota.
  rewrite Hloop. reflexivity.
Qed.

End LoopFacts.

Lemma stuck_loop (max_iterations : Z) (fuel : nat) :
  forall (iteration : Z) (a g : float),
    let s := Reconstructor.with_environments
               (stuck_reconstructor max_iterations) in
    Reconstructor.optimize stuck_server fuel s (Reconstructor.residual s)
      iteration (ScalarServer.mk_world 0 a g) = Err OutOfFuel
    /\ Reconstructor.optimize stuck_server fuel s (Reconstructor.residual s)
         iteration (ScalarServer.mk_world 1 a g) = Err OutOfFuel.
Proof.
  induction fuel as [| fuel IH]; intros iteration a g s;
    [split; reflexivity |].
  split.
  - erewrite (optimize_continues stuck_server fuel s _ iteration
                (ScalarServer.mk_world 0 a g)
                (ScalarServer.mk_world 1 a (-2))
                (ScalarServer.mk_world 1 1 (-2)) 2 1);
      [apply IH | vm_compute; reflexivity ..].
  - erewrite (optimize_continues stuck_server fuel s _ iteration
                (ScalarServer.mk_world 1 a g)
                (ScalarServer.mk_world 0 a 2)
                (ScalarServer.mk_world 0 1 2) 2 1);
      [apply IH | vm_compute; reflexivity ..].
Qed.

(** C4 (the code at the failing input): on this problem [reconstruct] is
    still iterating after any number of sweeps, whatever the value of
    [max_iterations_] is. *)
Theorem reconstruct_ignores_max_iterations
    (max_iterations : Z) (fuel : nat) :
  Reconstructor.reconstruct stuck_server fuel
    (Reconstructor.resetMaxIterations (stuck_reconstructor 1000)
       max_iterations)
    stuck_start
  = Err OutOfFuel.
Proof.
  change (Reconstructor.resetMaxIterations (stuck_reconstructor 1000)
            max_iterations)
    with (stuck_reconstructor max_iterations).
  eapply (reconstruct_loop_fault stuck_server fuel _ stuck_start stuck_start
            (ScalarServer.mk_world 0 1 0));
    [reflexivity | reflexivity | vm_compute; reflexivity |].
  apply (stuck_loop max_iterations fuel 0 1 0).
Qed.

(** *** The reported fidelity *)


Section FidelityFacts.

Import Reconstructor.

Context (B : Backend).

(** What [reconstruct] reports is what it has stored; the two expansions
    stay. *)
Lemma reconstruct_stores_results
    (fuel : nat) (s s' : t) (w w' : World B) (flag : bool)
    (residual_norm2 fidelity : float) :
  reconstruct B fuel s w = Ok (flag, (residual_norm2, fidelity), s', w') ->
  flag = true
  /\ residual_norm2_ s' = residual_norm2
  /\ fidelity_ s' = fidelity
  /\ approximant_ s' = approximant_ s
  /\ expansion_ s' = expansion_ s.
Proof.
  intros Hrun. unfold reconstruct in Hrun. cbv zeta in Hrun.
  destruct (environments_ (with_environments s))
    as [| environment0 rest] eqn:Henv.
  - injection Hrun as <- <- <- <- <-. repeat split.
  - apply bind_Ok in Hrun as (w1 & _ & Hrun).
    apply bind_Ok in Hrun as ([input_expansion_norm w2] & _ & Hrun).
    apply bind_Ok in Hrun as ([[r iteration] w3] & _ & Hrun).
    apply bind_Ok in Hrun as ([output_expansion_norm w4] & _ & Hrun).
    apply bind_Ok in Hrun as ([overlap_abs0 w5] & _ & Hrun).
    apply bind_Ok in Hrun as ([overlap_abs w6] & _ & Hrun).
    apply bind_Ok in Hrun as (w7 & _ & Hrun).
    injection Hrun as <- <- <- <- <-. repeat split.
Qed.


End FidelityFacts.

(** ** The reconstructor: [getSolution] *)

(** C10 (amended): [getSolution] returns the null pointer, and leaves the
    output cells alone, exactly when the stored fidelity compares equal to
    0.0; otherwise it stores the residual norm and the fidelity and returns
    the approximant. A reconstructor just built has fidelity 0.0, hence no
    solution. A run of [reconstruct] that returns has returned true, and the
    solution afterwards depends on the fidelity it reported alone: none when
    that compares equal to 0.0, the approximant with the two values the run
    reported otherwise. *)
Theorem getSolution_spec (s : Reconstructor.t) (out : float * float) :
  ((Reconstructor.fidelity_ s =? 0)%float = true ->
   Reconstructor.getSolution s out = (None, out))
  /\ ((Reconstructor.fidelity_ s =? 0)%float = false ->
      Reconstructor.getSolution s out
      = (Some (Reconstructor.approximant_ s),
         (Reconstructor.residual_norm2_ s, Reconstructor.fidelity_ s)))
  /\ (fst (Reconstructor.getSolution s out) = None
      <-> (Reconstructor.fidelity_ s =? 0)%float = true)
  /\ (forall max_iterations rate expansion approximant tolerance s0,
        Reconstructor.TensorNetworkReconstructor max_iterations rate
          expansion approximant tolerance = Ok s0 ->
        Reconstructor.getSolution s0 out = (None, out))
  /\ (forall (B : Reconstructor.Backend) (fuel : nat)
             (w w' : Reconstructor.World B) (s' : Reconstructor.t)
             (flag : bool) (residual_norm2 fidelity : float),
        Reconstructor.reconstruct B fuel s w
        = Ok (flag, (residual_norm2, fidelity), s', w') ->
        flag = true
        /\ Reconstructor.getSolution s' out
           = (if (fidelity =? 0)%float then (None, out)
              else (Some (Reconstructor.approximant_ s),
                    (residual_norm2, fidelity)))).
Proof.
  unfold Reconstructor.getSolution.
  repeat split.
  - intros ->. reflexivity.
  - intros ->. reflexivity.
  - destruct (Reconstructor.fidelity_ s =? 0)%float; simpl;
      [reflexivity | discriminate].
  - destruct (Reconstructor.fidelity_ s =? 0)%float; simpl;
      [reflexivity | discriminate].
  - intros max_iterations rate expansion approximant tolerance s0.
    unfold Reconstructor.TensorNetworkReconstructor.
    destruct (TensorExpansion.isKet expansion); simpl; [| discriminate].
    destruct (TensorExpansion.isBra approximant); simpl; [| discriminate].
    destruct (TensorExpansion.getRank expansion
              =? TensorExpansion.getRank approximant); simpl;
      [| discriminate].
    intros [= <-]. reflexivity.
  - apply reconstruct_stores_results in H as (-> & _). reflexivity.
  - apply reconstruct_stores_results in H as (_ & -> & -> & -> & _).
    reflexivity.
Qed.

(** C10 (counterexample): a null pointer does not tell that no run has
    completed. With the target [x = 0] the descent from [y = 1] converges in
    three sweeps and [reconstruct] returns true; the overlap with the target
    is 0, so the fidelity it stores is 0.0 and [getSolution] still returns
    the null pointer and leaves the output cells alone. *)
Lemma getSolution_null_after_run :
  exists (s' : Reconstructor.t) (w' : ScalarServer.world),
    Reconstructor.reconstruct (ScalarServer.server 0 1) 3
      (ScalarServer.reconstructor 1000 0.5 0.25)
      (ScalarServer.mk_world 1 0 0)
    = Ok (true, (0.0625%float, 0%float), s', w')
    /\ Reconstructor.getSolution s' (1%float, 1%float)
       = (None, (1%float, 1%float)).
Proof.
  eexists. eexists. split; vm_compute; reflexivity.
Qed.



(** ** The METIS graph: contraction cost and a merge, evaluated *)

(** C3 (the code at the failing input): [getContractionCost] returns 0.0 as
    its flop estimate for every graph and every pair of vertices; on the
    triangle, where contracting the vertices 0 and 1 takes
    [2^7 * 2^9 / 2^2 = 2^14] multiply-adds, it stores the intermediate volume
    [2^12] and still returns 0.0. *)
Theorem getContractionCost_flops_zero :
  (forall (g : MetisGraph.t) (vertex1 vertex2 : Z),
     match MetisGraph.getContractionCost g vertex1 vertex2 with
     | Ok c => MetisGraph.flops c = 0%float
     | Err _ => True
     end)
  /\ MetisGraph.getContractionCost triangle 0 1
     = Ok (MetisGraph.mk_cost 0 (Some (4096%float, 3456%float))).
Proof.
  split; [| vm_compute; reflexivity].
  intros g vertex1 vertex2. unfold MetisGraph.getContractionCost.
  destruct (negb (vertex1 =? vertex2) && (vertex1 <? MetisGraph.num_vertices_ g)
            && (vertex2 <? MetisGraph.num_vertices_ g)); [| reflexivity].
  destruct (if vertex2 <? vertex1 then (vertex2, vertex1)
            else (vertex1, vertex2)) as [v1 v2].
  do 4 step_bind.
  match goal with
  | |- context [bind ?m _] =>
      destruct m as [[lv cv] |]; [| exact I]; unfold bind at 1; cbv beta iota
  end.
  do 3 step_bind. reflexivity.
Qed.

(** C1 (the code at the failing input): merging the vertices 0 and 1 of the
    triangle. The two edges to vertex 2 have the weights 5 and 7 and should
    combine into one edge of weight [5 + 7 - 1 = 11] on both sides. The merged
    vertex gets an edge of weight 3 instead (the weights of its edges were
    overwritten by adjacent vertex ids, [2 + 2 - 1]), its neighbour is still
    called 2 although only the vertices 0 and 1 are left, and that neighbour
    keeps two parallel edges of weights 5 and 7. *)
Theorem mergeVertices_triangle :
  MetisGraph.mergeVertices triangle 0 1
  = Ok (true,
        MetisGraph.mk 2 [] [0; 1; 3] [2; 0; 0] [3; 2] [3; 5; 7] [] [] 0 0 0).
Proof. vm_compute. reflexivity. Qed.

(** ** Byte packets: an item written is the item read *)

Section PacketFacts.

Import BytePacket.

Lemma byte_of_Z_value (z : Z) :
  0 <= z < 256 -> Z.of_N (Byte.to_N (byte_of_Z z)) = z.
Proof.
  intros Hz. unfold byte_of_Z.
  destruct (Byte.of_N (Z.to_N z)) as [b |] eqn:Hb.
  - apply Byte.to_of_N in Hb. rewrite Hb. lia.
  - apply Byte.of_N_None_iff in Hb. lia.
Qed.

Lemma le_bytes_length (n : nat) (x : Z) : length (le_bytes n x) = n.
Proof.
  revert x. induction n as [| n IH]; intros x; simpl;
    [reflexivity | now rewrite IH].
Qed.

Lemma le_value_le_bytes (n : nat) (x : Z) :
  le_value (le_bytes n x) = x mod 2 ^ (8 * Z.of_nat n).
Proof.
  revert x. induction n as [| n IH]; intros x.
  - simpl. now rewrite Z.mod_1_r.
  - cbn [le_bytes le_value]. rewrite IH.
    rewrite byte_of_Z_value by (apply Z.mod_pos_bound; lia).
    replace (8 * Z.of_nat (S n)) with (8 + 8 * Z.of_nat n) by lia.
    rewrite Z.pow_add_r by lia.
    change (2 ^ 8) with 256.
    rewrite Z.rem_mul_r by lia. reflexivity.
Qed.

Lemma extract_append (n : nat) (x : Z) (rest : t) :
  extractFromBytePacket n (le_bytes n x ++ rest)
  = Ok (x mod 2 ^ (8 * Z.of_nat n), rest).
Proof.
  unfold extractFromBytePacket.
  rewrite length_app, le_bytes_length.
  replace (n <=? n + length rest)%nat with true
    by (symmetry; apply Nat.leb_le; lia).
  rewrite take_app_length' by (symmetry; apply le_bytes_length).
  rewrite drop_app_length' by (symmetry; apply le_bytes_length).
  now rewrite le_value_le_bytes.
Qed.

Lemma extractSigned_append (n : nat) (x : Z) (rest : t) :
  (0 < n)%nat -> fits n x ->
  extractSigned n (le_bytes n x ++ rest) = Ok (x, rest).
Proof.
  intros Hn [Hlo Hhi]. unfold extractSigned.
  rewrite extract_append. unfold bind.
  set (k := 8 * Z.of_nat n) in *.
  assert (Hpow : 2 ^ k = 2 * 2 ^ (k - 1)).
  { rewrite <- Z.pow_succ_r by lia. f_equal. lia. }
  assert (Hpos : 0 < 2 ^ (k - 1)) by (apply Z.pow_pos_nonneg; lia).
  f_equal. f_equal.
  destruct (Z_lt_le_dec x 0) as [Hneg | Hnn].
  - rewrite <- (Z.mod_add x 1 (2 ^ k)) by lia.
    rewrite Z.mod_small by lia.
    destruct (Z.ltb_spec (x + 1 * 2 ^ k) (2 ^ (k - 1))); lia.
  - rewrite Z.mod_small by lia.
    destruct (Z.ltb_spec x (2 ^ (k - 1))); lia.
Qed.

End PacketFacts.

(** ** Vectors *)

Lemma vsize_nonneg (v : list Z) : 0 <= vsize v.
Proof. unfold vsize. lia. Qed.

Lemma vsize_app (v1 v2 : list Z) : vsize (v1 ++ v2) = vsize v1 + vsize v2.
Proof. unfold vsize. rewrite length_app. lia. Qed.

Lemma vsize_cons (x : Z) (v : list Z) : vsize (x :: v) = 1 + vsize v.
Proof. unfold vsize. simpl. lia. Qed.

Lemma in_range_true (i n : Z) : 0 <= i < n -> (0 <=? i) && (i <? n) = true.
Proof.
  intros H. apply andb_true_intro.
  split; [apply Z.leb_le | apply Z.ltb_lt]; lia.
Qed.

Lemma in_range_inv (i n : Z) : (0 <=? i) && (i <? n) = true -> 0 <= i < n.
Proof.
  intros H. apply andb_prop in H as [H1 H2].
  apply Z.leb_le in H1. apply Z.ltb_lt in H2. lia.
Qed.

Lemma vget_in_range (v : list Z) (i : Z) :
  0 <= i < vsize v -> vget v i = Ok (nth (Z.to_nat i) v 0).
Proof. intros H. unfold vget. now rewrite in_range_true. Qed.

Lemma vset_in_range (v : list Z) (i x : Z) :
  0 <= i < vsize v -> vset v i x = Ok (<[Z.to_nat i := x]> v).
Proof. intros H. unfold vset. now rewrite in_range_true. Qed.

Lemma verase_in_range (v : list Z) (i : Z) :
  0 <= i < vsize v -> verase v i = Ok (delete (Z.to_nat i) v).
Proof. intros H. unfold verase. now rewrite in_range_true. Qed.

Lemma vget_Ok (v : list Z) (i x : Z) :
  vget v i = Ok x -> 0 <= i < vsize v /\ x = nth (Z.to_nat i) v 0.
Proof.
  unfold vget. destruct ((0 <=? i) && (i <? vsize v)) eqn:H;
    [| discriminate].
  intros [= <-]. split; [now apply in_range_inv | reflexivity].
Qed.

Lemma vset_Ok (v v' : list Z) (i x : Z) :
  vset v i x = Ok v' ->
  0 <= i < vsize v /\ v' = <[Z.to_nat i := x]> v /\ vsize v' = vsize v.
Proof.
  unfold vset. destruct ((0 <=? i) && (i <? vsize v)) eqn:H;
    [| discriminate].
  intros [= <-]. split; [now apply in_range_inv |].
  split; [reflexivity |]. unfold vsize. now rewrite length_insert.
Qed.

Lemma vsize_insert (v : list Z) (i : nat) (x : Z) :
  vsize (<[i := x]> v) = vsize v.
Proof. unfold vsize. now rewrite length_insert. Qed.

Lemma vsize_delete (v : list Z) (i : Z) :
  0 <= i < vsize v -> vsize (delete (Z.to_nat i) v) = vsize v - 1.
Proof.
  unfold vsize. intros H.
  rewrite length_delete; [lia |].
  apply lookup_lt_is_Some. lia.
Qed.

Lemma vget_middle (prefix suffix : list Z) (x : Z) :
  vget (prefix ++ x :: suffix) (vsize prefix) = Ok x.
Proof.
  rewrite vget_in_range.
  - unfold vsize. rewrite Nat2Z.id. now rewrite nth_middle.
  - rewrite vsize_app, vsize_cons.
    pose proof (vsize_nonneg prefix). pose proof (vsize_nonneg suffix). lia.
Qed.

Lemma vset_middle (prefix suffix : list Z) (x0 x : Z) :
  vset (prefix ++ x0 :: suffix) (vsize prefix) x = Ok (prefix ++ x :: suffix).
Proof.
  rewrite vset_in_range.
  - unfold vsize. rewrite Nat2Z.id.
    rewrite insert_app_r_alt by lia.
    now rewrite Nat.sub_diag.
  - rewrite vsize_app, vsize_cons.
    pose proof (vsize_nonneg prefix). pose proof (vsize_nonneg suffix). lia.
Qed.

(** ** The METIS graph: the packet of a graph and its round trip *)

Section PackingFacts.

Import MetisGraph.

Context (sizeof_idx_t : nat).

Lemma pack_elements (suffix prefix : list Z) (p : BytePacket.t) :
  iter_up (length suffix) (vsize prefix)
    (fun i byte_packet =>
       do x <- vget (prefix ++ suffix) i;;
       Ok (BytePacket.appendToBytePacket sizeof_idx_t byte_packet x))
    p
  = Ok (p ++ flat_map (BytePacket.le_bytes sizeof_idx_t) suffix).
Proof.
  revert prefix p. induction suffix as [| x suffix IH]; intros prefix p.
  - simpl. now rewrite app_nil_r.
  - cbn [length iter_up flat_map]. rewrite vget_middle. cbn [bind].
    replace (vsize prefix + 1) with (vsize (prefix ++ [x]))
      by (rewrite vsize_app; reflexivity).
    replace (prefix ++ x :: suffix) with ((prefix ++ [x]) ++ suffix)
      by (now rewrite <- app_assoc).
    rewrite IH. unfold BytePacket.appendToBytePacket.
    now rewrite <- app_assoc.
Qed.

Lemma pack_vector_bytes (v : list Z) (p : BytePacket.t) :
  pack_vector sizeof_idx_t v p = Ok (p ++ vector_bytes sizeof_idx_t v).
Proof.
  unfold pack_vector, for_up, vector_bytes.
  replace (Z.to_nat (vsize v - 0)) with (length v) by (unfold vsize; lia).
  rewrite (pack_elements v [] _). unfold BytePacket.appendToBytePacket.
  now rewrite <- app_assoc.
Qed.

Lemma pack_bytes (g : t) (p : BytePacket.t) :
  pack sizeof_idx_t g p = Ok (p ++ graph_bytes sizeof_idx_t g).
Proof.
  unfold pack, graph_bytes.
  repeat (rewrite pack_vector_bytes; unfold bind at 1).
  rewrite pack_vector_bytes. unfold BytePacket.appendToBytePacket.
  now rewrite <- !app_assoc.
Qed.

Lemma unpack_elements (suffix prefix junk : list Z) (rest : BytePacket.t) :
  (0 < sizeof_idx_t)%nat ->
  Forall (fits sizeof_idx_t) suffix ->
  length junk = length suffix ->
  iter_up (length suffix) (vsize prefix)
    (fun i '(v, byte_packet) =>
       do '(x, byte_packet) <-
         BytePacket.extractSigned sizeof_idx_t byte_packet;;
       do v <- vset v i x;;
       Ok (v, byte_packet))
    (prefix ++ junk,
     flat_map (BytePacket.le_bytes sizeof_idx_t) suffix ++ rest)
  = Ok (prefix ++ suffix, rest).
Proof.
  intros Hn. revert prefix junk.
  induction suffix as [| x suffix IH]; intros prefix junk Hfits Hlen.
  - destruct junk; [reflexivity | discriminate].
  - destruct junk as [| j junk]; [discriminate |].
    inversion Hfits as [| ? ? Hx Hrest]; subst.
    cbn [length iter_up flat_map]. rewrite <- app_assoc.
    rewrite extractSigned_append by assumption.
    cbn [bind]. rewrite vset_middle. cbn [bind].
    replace (vsize prefix + 1) with (vsize (prefix ++ [x]))
      by (rewrite vsize_app; reflexivity).
    replace (prefix ++ x :: junk) with ((prefix ++ [x]) ++ junk)
      by (now rewrite <- app_assoc).
    rewrite IH; [| assumption | simpl in Hlen; lia].
    now rewrite <- app_assoc.
Qed.

Lemma resize_length (v : list Z) (n : nat) :
  length (resize v (Z.of_nat n)) = n.
Proof.
  unfold resize. rewrite Nat2Z.id, length_app, length_take, length_replicate.
  lia.
Qed.

Lemma unpack_vector_bytes (v0 v : list Z) (rest : BytePacket.t) :
  (0 < sizeof_idx_t)%nat ->
  Forall (fits sizeof_idx_t) v ->
  vsize v < 2 ^ 64 ->
  unpack_vector sizeof_idx_t v0 (vector_bytes sizeof_idx_t v ++ rest)
  = Ok (v, rest).
Proof.
  intros Hn Hfits Hlen. unfold unpack_vector, vector_bytes, sizeof_size_t.
  rewrite <- app_assoc, extract_append. unfold bind at 1. cbv beta iota.
  change (8 * Z.of_nat 8) with 64.
  rewrite Z.mod_small by (pose proof (vsize_nonneg v); lia).
  unfold for_up.
  replace (Z.to_nat (vsize v - 0)) with (length v) by (unfold vsize; lia).
  apply (unpack_elements v [] (resize v0 (vsize v)) rest Hn Hfits).
  apply resize_length.
Qed.

(** C5: the packet of a graph is its number of vertices followed by the
    vectors [renumber_], [xadj_], [adjncy_], [vwgt_] and [adjwgt_], each as a
    64-bit length and its elements; unpacking it, into whatever graph, gives a
    graph equal to the packed one for [operator==] and uses up the packet. *)
Theorem unpack_pack (g h : t)
    (Hsize : (0 < sizeof_idx_t)%nat) (Hg : representable sizeof_idx_t g) :
  pack sizeof_idx_t g [] = Ok (graph_bytes sizeof_idx_t g)
  /\ exists g' : t,
       unpack sizeof_idx_t h (graph_bytes sizeof_idx_t g) = Ok (g', [])
       /\ eqb g' g = true
       /\ (num_vertices_ g', xadj_ g', adjncy_ g', vwgt_ g', adjwgt_ g',
           renumber_ g')
          = (num_vertices_ g, xadj_ g, adjncy_ g, vwgt_ g, adjwgt_ g,
             renumber_ g).
Proof.
  split; [apply pack_bytes |].
  destruct Hg as [Hnv Hvecs].
  repeat match goal with
         | H : Forall _ (_ :: _) |- _ =>
             let H1 := fresh "Hv" in
             apply Forall_cons in H as [[? H1] H]
         end.
  unfold unpack, graph_bytes.
  rewrite extractSigned_append by assumption.
  unfold bind at 1. cbv beta iota.
  do 4 (rewrite unpack_vector_bytes by assumption;
        unfold bind at 1; cbv beta iota).
  rewrite <- (app_nil_r (vector_bytes sizeof_idx_t (adjwgt_ g))).
  rewrite unpack_vector_bytes by assumption.
  unfold bind at 1. cbv beta iota.
  eexists. split; [reflexivity |]. split; [| reflexivity].
  unfold eqb. cbn [num_vertices_ xadj_ adjncy_ vwgt_ adjwgt_ renumber_].
  apply bool_decide_eq_true. reflexivity.
Qed.

End PackingFacts.

Lemma unpack_pack_witness :
  MetisGraph.pack 8 triangle [] = Ok (graph_bytes 8 triangle)
  /\ exists g' : MetisGraph.t,
       MetisGraph.unpack 8 MetisGraph.empty (graph_bytes 8 triangle)
       = Ok (g', [])
       /\ MetisGraph.eqb g' triangle = true
       /\ (MetisGraph.num_vertices_ g', MetisGraph.xadj_ g',
           MetisGraph.adjncy_ g', MetisGraph.vwgt_ g', MetisGraph.adjwgt_ g',
           MetisGraph.renumber_ g')
          = (MetisGraph.num_vertices_ triangle, MetisGraph.xadj_ triangle,
             MetisGraph.adjncy_ triangle, MetisGraph.vwgt_ triangle,
             MetisGraph.adjwgt_ triangle, MetisGraph.renumber_ triangle).
Proof.
  apply (unpack_pack 8 triangle MetisGraph.empty).
  - lia.
  - unfold representable, fits, vsize. simpl.
    repeat constructor; lia.
Defined.

(** ** Loops: invariants *)

Lemma iter_up_invariant {St : Type} (P : Z -> St -> Prop)
    (body : Z -> St -> res St) (n : nat) (i : Z) (s : St) :
  P i s ->
  (forall k s0, i <= k < i + Z.of_nat n -> P k s0 ->
     exists s1, body k s0 = Ok s1 /\ P (k + 1) s1) ->
  exists s', iter_up n i body s = Ok s' /\ P (i + Z.of_nat n) s'.
Proof.
  revert i s. induction n as [| n IH]; intros i s Hinit Hstep.
  - exists s. split; [reflexivity |].
    now replace (i + Z.of_nat 0) with i by lia.
  - destruct (Hstep i s) as (s1 & Hbody & Hs1); [lia | assumption |].
    destruct (IH (i + 1) s1) as (s' & Hrun & Hs'); [assumption | |].
    + intros k s0 Hk. apply Hstep. lia.
    + exists s'. cbn [iter_up]. rewrite Hbody. cbn [bind].
      split; [assumption |].
      now replace (i + Z.of_nat (S n)) with (i + 1 + Z.of_nat n) by lia.
Qed.

Lemma for_up_invariant {St : Type} (P : Z -> St -> Prop)
    (body : Z -> St -> res St) (lo hi : Z) (s : St) :
  lo <= hi ->
  P lo s ->
  (forall k s0, lo <= k < hi -> P k s0 ->
     exists s1, body k s0 = Ok s1 /\ P (k + 1) s1) ->
  exists s', for_up lo hi body s = Ok s' /\ P hi s'.
Proof.
  intros Hle Hinit Hstep. unfold for_up.
  destruct (iter_up_invariant P body (Z.to_nat (hi - lo)) lo s)
    as (s' & Hrun & Hs'); [assumption | |].
  - intros k s0 Hk. apply Hstep. lia.
  - exists s'. split; [assumption |].
    replace (lo + Z.of_nat (Z.to_nat (hi - lo))) with hi in Hs' by lia.
    assumption.
Qed.

Lemma for_up_empty {St : Type} (body : Z -> St -> res St) (lo hi : Z) (s : St) :
  hi <= lo -> for_up lo hi body s = Ok s.
Proof.
  intros H. unfold for_up.
  now replace (Z.to_nat (hi - lo)) with O by lia.
Qed.



Lemma for_down_empty {St : Type} (body : Z -> St -> res St) (hi lo : Z)
    (s : St) :
  hi < lo -> for_down hi lo body s = Ok s.
Proof.
  intros H. unfold for_down.
  now replace (Z.to_nat (hi - lo + 1)) with O by lia.
Qed.

(** ** Vectors: reads, writes and erasures through lookups *)

Lemma vget_lookup (v : list Z) (i x : Z) :
  vget v i = Ok x <-> 0 <= i /\ v !! Z.to_nat i = Some x.
Proof.
  split.
  - intros H. apply vget_Ok in H as [Hi ->]. split; [lia |].
    destruct (nth_lookup_or_length v (Z.to_nat i) 0) as [Hnth | Hlen];
      [exact Hnth | unfold vsize in Hi; lia].
  - intros [Hi Hx]. pose proof (lookup_lt_Some _ _ _ Hx) as Hlt.
    rewrite vget_in_range by (unfold vsize; lia).
    f_equal. rewrite nth_lookup, Hx. reflexivity.
Qed.

Lemma vget_exists (v : list Z) (i : Z) :
  0 <= i < vsize v -> exists x, vget v i = Ok x.
Proof. intros H. rewrite vget_in_range by assumption. eauto. Qed.

Lemma vset_exists (v : list Z) (i x : Z) :
  0 <= i < vsize v -> exists v', vset v i x = Ok v' /\ vsize v' = vsize v.
Proof.
  intros H. rewrite vset_in_range by assumption.
  eexists. split; [reflexivity | apply vsize_insert].
Qed.

Lemma verase_exists (v : list Z) (i : Z) :
  0 <= i < vsize v -> exists v', verase v i = Ok v' /\ vsize v' = vsize v - 1.
Proof.
  intros H. rewrite verase_in_range by assumption.
  eexists. split; [reflexivity | now apply vsize_delete].
Qed.

Lemma valloc_exists (n : Z) :
  0 <= n -> exists v, valloc n = Ok v /\ vsize v = n.
Proof.
  intros H. unfold valloc.
  replace (0 <=? n) with true by (symmetry; now apply Z.leb_le).
  eexists. split; [reflexivity |].
  unfold vsize. rewrite length_replicate. lia.
Qed.

(** ** The METIS graph: the helpers of the two edits *)

Section EditFacts.

Import MetisGraph.




Lemma append_from_take (sizeof_idx_t : nat) (src dst : list Z) (n : Z) :
  0 <= n <= vsize src ->
  append_from sizeof_idx_t src n dst
  = Ok (dst ++ map (to_idx_t sizeof_idx_t) (take (Z.to_nat n) src)).
Proof.
  intros Hn. unfold append_from.
  destruct (for_up_invariant
              (fun k d =>
                 0 <= k
                 /\ d = dst
                        ++ map (to_idx_t sizeof_idx_t)
                             (take (Z.to_nat k) src))
              (fun i dst =>
                 do x <- vget src i;; Ok (dst ++ [to_idx_t sizeof_idx_t x]))
              0 n dst) as (d & Hrun & _ & ->).
  - lia.
  - split; [lia |]. now rewrite app_nil_r.
  - intros k d Hk [_ ->].
    destruct (vget_exists src k) as [x Hx]; [lia |].
    rewrite Hx. cbn [bind]. eexists. split; [reflexivity |].
    split; [lia |].
    apply vget_lookup in Hx as [_ Hx].
    replace (Z.to_nat (k + 1)) with (S (Z.to_nat k)) by lia.
    rewrite (take_S_r _ _ _ Hx), map_app. now rewrite app_assoc.
  - exact Hrun.
Qed.

(** [appendVertex] returns on a graph with one offset more than vertices,
    whatever the values are. *)
Lemma appendVertex_returns (sizeof_idx_t : nat) (g : t) (num_edges : Z)
    (adj_vertices edge_weights : list Z) (vertex_weight : Z) :
  0 <= num_vertices_ g -> vsize (xadj_ g) = num_vertices_ g + 1 ->
  0 <= num_edges <= vsize adj_vertices -> num_edges <= vsize edge_weights ->
  exists g',
    appendVertex sizeof_idx_t g num_edges adj_vertices edge_weights
      vertex_weight = Ok g'
    /\ 0 <= num_vertices_ g'
    /\ vsize (xadj_ g') = num_vertices_ g' + 1.
Proof.
  intros Hnv Hxs Hadj Hew.
  destruct g as [nv ren X A VW W parts pw ec nce np].
  cbn [num_vertices_ xadj_] in *.
  unfold appendVertex. cbv zeta.
  set (g0 := if 0 <? num_parts_ _ then _ else _).
  assert (Hg0 : num_vertices_ g0 = nv /\ xadj_ g0 = X).
  { subst g0. cbn [num_parts_]. destruct (0 <? np); split; reflexivity. }
  destruct Hg0 as (-> & ->).
  rewrite !append_from_take by lia. cbn [bind].
  destruct (vget_exists X nv) as [last Hlast]; [lia |].
  rewrite Hlast. cbn [bind].
  eexists. split; [reflexivity |]. cbn [num_vertices_ xadj_].
  rewrite vsize_app. change (vsize [_]) with 1. lia.
Qed.








End EditFacts.

(** ** The METIS graph: structural invariants *)

Section InvariantFacts.

Import MetisGraph.



Lemma lookup_in_range (v : list Z) (i : Z) :
  0 <= i < vsize v -> exists x, v !! Z.to_nat i = Some x.
Proof.
  intros H. destruct (vget_exists v i H) as [x Hx].
  apply vget_lookup in Hx as [_ Hx]. eauto.
Qed.


End InvariantFacts.

Section MergeFacts.

Import MetisGraph.

Lemma vget_of_lookup (v : list Z) (i x : Z) :
  0 <= i -> v !! Z.to_nat i = Some x -> vget v i = Ok x.
Proof. intros Hi Hx. apply vget_lookup. split; assumption. Qed.

Lemma monotone_le (v : list Z) (i j x y : Z) :
  monotone v -> 0 <= i <= j ->
  v !! Z.to_nat i = Some x -> v !! Z.to_nat j = Some y -> x <= y.
Proof.
  intros Hmono Hij Hx Hy.
  apply (Hmono (Z.to_nat i) (Z.to_nat j)); [lia | assumption ..].
Qed.


Lemma mergeVertices_swap (g : t) (vertex1 vertex2 : Z) :
  mergeVertices g vertex1 vertex2 = mergeVertices g vertex2 vertex1.
Proof.
  unfold mergeVertices. cbv zeta.
  destruct (assert _); cbn [bind]; [| reflexivity].
  destruct (Z.eq_dec vertex1 vertex2) as [-> | Hne]; [reflexivity |].
  replace (vertex1 =? vertex2) with false
    by (symmetry; apply Z.eqb_neq; lia).
  replace (vertex2 =? vertex1) with false
    by (symmetry; apply Z.eqb_neq; lia).
  cbn [orb]. rewrite orb_comm.
  destruct (_ || _); [reflexivity |].
  destruct (Z.ltb_spec vertex2 vertex1), (Z.ltb_spec vertex1 vertex2);
    try lia; reflexivity.
Qed.



End MergeFacts.

Lemma well_formed_triangle : well_formed triangle.
Proof.
  unfold well_formed, sizes_ok. repeat split; try reflexivity.
  concrete_monotone.
Qed.





(** A value from [2 ^ 63] on does not fit a 64-bit [idx_t] and is stored
    negative: the list [{1, 2^63}] the caller gives in increasing order is
    stored as [1; -2^63], which is not sorted. *)
Lemma appendVertex_stores_idx_t :
  exists g' : MetisGraph.t,
    MetisGraph.appendVertex 8 two_leaves 2 [1; 2 ^ 63] [4; 3] 1 = Ok g'
    /\ adjacency g' 2 = [1; - 2 ^ 63]
    /\ Sorted Z.le [1; 2 ^ 63]
    /\ ~ Sorted Z.le (adjacency g' 2).
Proof.
  eexists. split; [vm_compute; reflexivity |].
  match goal with
  | |- ?stored = _ /\ _ =>
      assert (Hstored : stored = [1; - 2 ^ 63]) by (vm_compute; reflexivity)
  end.
  rewrite Hstored. split; [reflexivity |]. split.
  - repeat constructor. lia.
  - intros Hsorted.
    apply Sorted_inv in Hsorted as [_ Hhd].
    apply HdRel_inv in Hhd. lia.
Qed.

(** ** Further properties of the code *)

(** [TensorOpContract::getFlopEstimate]: the square root of the product of
    the three operand volumes once the three operands and an index pattern
    are set, 0.0 before. *)
Theorem getFlopEstimate_sqrt :
  TensorOperation.getFlopEstimate TensorOperation.TensorOpContract
  = Ok 0%float
  /\ forall (t0 t1 t2 : Tensor.t) (c : Ascii.ascii) (pattern : string),
       TensorOperation.getFlopEstimate
         (TensorOperation.mk CONTRACT 3 2 1 [0; 1; 2] [t0; t1; t2]
            [Reconstructor.one; Reconstructor.one] (String c pattern))
       = Ok (sqrt (double_of_u64 (Tensor.getVolume t0)
                   * double_of_u64 (Tensor.getVolume t1)
                   * double_of_u64 (Tensor.getVolume t2)))%float.
Proof. split; reflexivity. Qed.

(** [mergeVertices] on two vertices without edges in a graph without edges:
    line 430 reads [adjncy_[xadj_[vertex1]]], the element 0 of an empty
    vector. *)
Theorem mergeVertices_isolated_pair :
  well_formed isolated_pair
  /\ MetisGraph.mergeVertices isolated_pair 0 1 = Err OutOfBounds.
Proof.
  split; [| reflexivity].
  unfold well_formed, sizes_ok. repeat split; try reflexivity.
  concrete_monotone.
Qed.

(** [mergeVertices] sorts the list of the merged vertex only: merging the two
    ends of the path renames vertex 3 to 0 in the list of vertex 2, which
    becomes [1; 0]. *)
Theorem mergeVertices_unsorted_neighbour :
  invariants path4
  /\ (exists g' : MetisGraph.t,
        MetisGraph.mergeVertices path4 0 3 = Ok (true, g')
        /\ adjacency g' 2 = [1; 0]
        /\ ~ invariants g').
Proof.
  split.
  - split; [repeat split; reflexivity |].
    intros v Hv.
    assert (v = 0 \/ v = 1 \/ v = 2 \/ v = 3) as [-> | [-> | [-> | ->]]]
      by (cbn in Hv; lia);
      vm_compute; repeat constructor; discriminate.
  - eexists. split; [vm_compute; reflexivity |].
    split; [reflexivity |].
    intros [_ Hsorted].
    specialize (Hsorted 2 ltac:(cbn; lia)).
    vm_compute in Hsorted.
    apply Sorted_inv in Hsorted as [_ Hhd].
    apply HdRel_inv in Hhd. apply Hhd. reflexivity.
Qed.

(** The loop of [reconstruct] is left by the sweep that finds no gradient
    above the tolerance: the third sweep of the converging run. *)
Lemma optimize_converged_witness :
  Reconstructor.optimize (ScalarServer.server 2 1) 1
    (Reconstructor.with_environments
       (ScalarServer.reconstructor 1000 0.5 0.25))
    (Reconstructor.residual (ScalarServer.reconstructor 1000 0.5 0.25))
    2 third_sweep_start
  = Ok (0.0625%float, 3, ScalarServer.mk_world 1.75 0.0625 (-0.25)).
Proof.
  apply (optimize_converged (ScalarServer.server 2 1) 0 _ _ 2
           third_sweep_start (ScalarServer.mk_world 1.75 0.0625 (-0.25))
           (ScalarServer.mk_world 1.75 0.0625 (-0.25)) 0.25 0.0625);
    vm_compute; reflexivity.
Defined.

(** ** The METIS graph: what a merge leaves behind *)

(** One binding of a program that has returned. *)
Ltac bind_inv H :=
  let x := fresh "x" in
  let Hx := fresh "Hx" in
  apply bind_Ok in H as (x & Hx & H).

Lemma total_cons (x : Z) (v : list Z) : total (x :: v) = x + total v.
Proof. reflexivity. Qed.

Lemma total_app (v1 v2 : list Z) : total (v1 ++ v2) = total v1 + total v2.
Proof.
  induction v1 as [| x v1 IH]; [reflexivity |].
  cbn [app]. rewrite !total_cons, IH. lia.
Qed.

Lemma total_insert (v : list Z) (i : nat) (x y : Z) :
  v !! i = Some x -> total (<[i := y]> v) = total v - x + y.
Proof.
  revert i. induction v as [| z v IH]; intros [| i] Hx; try discriminate.
  - injection Hx as ->. cbn [insert list_insert]. rewrite !total_cons. lia.
  - change (<[S i := y]> (z :: v)) with (z :: <[i := y]> v).
    rewrite !total_cons, (IH i Hx). lia.
Qed.

Lemma total_delete (v : list Z) (i : nat) (x : Z) :
  v !! i = Some x -> total (delete i v) = total v - x.
Proof.
  revert i. induction v as [| z v IH]; intros [| i] Hx; try discriminate.
  - injection Hx as ->. cbn [delete list_delete]. rewrite total_cons. lia.
  - change (delete (S i) (z :: v)) with (z :: delete i v).
    rewrite !total_cons, (IH i Hx). lia.
Qed.

Lemma verase_Ok (v v' : list Z) (i : Z) :
  verase v i = Ok v' -> 0 <= i < vsize v /\ v' = delete (Z.to_nat i) v.
Proof.
  unfold verase. intros H.
  destruct ((0 <=? i) && (i <? vsize v)) eqn:Hr; [| discriminate].
  apply in_range_inv in Hr. injection H as <-. split; [lia | reflexivity].
Qed.

Lemma reassign_no_reference (vertex1 vertex2 : Z) (adjncy : list Z) :
  vertex1 <> vertex2 ->
  Forall (fun adj_vertex_id => adj_vertex_id <> vertex2)
    (MetisGraph.reassign vertex1 vertex2 adjncy).
Proof.
  intros Hne. unfold MetisGraph.reassign.
  induction adjncy as [| a0 adjncy IH]; cbn [map]; constructor;
    [| exact IH].
  destruct (Z.eqb_spec a0 vertex2); congruence.
Qed.

(** What a merge that went through has done, as far as the vertices go. *)
Lemma mergeVertices_true_inv (g g' : MetisGraph.t) (vertex1 vertex2 : Z) :
  MetisGraph.mergeVertices g vertex1 vertex2 = Ok (true, g') ->
  let a := Z.min vertex1 vertex2 in
  let b := Z.max vertex1 vertex2 in
  vertex1 <> vertex2
  /\ 0 <= a /\ b < MetisGraph.num_vertices_ g
  /\ MetisGraph.num_vertices_ g' = MetisGraph.num_vertices_ g - 1
  /\ MetisGraph.renumber_ g' = []
  /\ (exists wa wb : Z,
        MetisGraph.vwgt_ g !! Z.to_nat a = Some wa
        /\ MetisGraph.vwgt_ g !! Z.to_nat b = Some wb
        /\ MetisGraph.vwgt_ g'
           = delete (Z.to_nat b)
               (<[Z.to_nat a := wa + (wb - 1)]> (MetisGraph.vwgt_ g)))
  /\ (exists adjncy : list Z,
        MetisGraph.adjncy_ g' = MetisGraph.reassign a b adjncy).
Proof.
  intros Hrun a b. unfold MetisGraph.mergeVertices in Hrun. cbv zeta in Hrun.
  set (g0 := if 0 <? MetisGraph.num_parts_ g then _ else _) in Hrun.
  assert (Hg0 : MetisGraph.num_vertices_ g0 = MetisGraph.num_vertices_ g
                /\ MetisGraph.vwgt_ g0 = MetisGraph.vwgt_ g).
  { subst g0. destruct (0 <? MetisGraph.num_parts_ g); split; reflexivity. }
  destruct Hg0 as [Hnv0 Hvw0].
  cbn [MetisGraph.num_vertices_ MetisGraph.xadj_ MetisGraph.adjncy_
       MetisGraph.vwgt_ MetisGraph.adjwgt_] in Hrun.
  rewrite Hnv0, Hvw0 in Hrun.
  bind_inv Hrun.
  destruct ((vertex1 =? vertex2) || (MetisGraph.num_vertices_ g <=? vertex1)
            || (MetisGraph.num_vertices_ g <=? vertex2)) eqn:Hpair;
    [discriminate |].
  apply orb_false_iff in Hpair as [Hpair Hv2].
  apply orb_false_iff in Hpair as [Hne Hv1].
  apply Z.eqb_neq in Hne. apply Z.leb_gt in Hv1, Hv2.
  assert (Hab : (if vertex2 <? vertex1 then (vertex2, vertex1)
                 else (vertex1, vertex2)) = (a, b)).
  { subst a b. destruct (Z.ltb_spec vertex2 vertex1).
    - rewrite Z.min_r, Z.max_l by lia. reflexivity.
    - rewrite Z.min_l, Z.max_r by lia. reflexivity. }
  rewrite Hab in Hrun.
  assert (Hlt : a < b) by (subst a b; lia).
  assert (Hb : b < MetisGraph.num_vertices_ g) by (subst a b; lia).
  clearbody a b.
  apply bind_Ok in Hrun as (w1 & Hw1 & Hrun).
  apply bind_Ok in Hrun as (w2 & Hw2 & Hrun).
  apply bind_Ok in Hrun as (vwgt1 & Hset & Hrun).
  apply bind_Ok in Hrun as (vwgt2 & Herase & Hrun).
  do 4 bind_inv Hrun.
  apply bind_Ok in Hrun as ([[xadj1 adjncy1] adjwgt1] & _ & Hrun).
  do 5 bind_inv Hrun.
  apply bind_Ok in Hrun as ([[e1 ew1] off1] & _ & Hrun).
  apply bind_Ok in Hrun as ([[e2 ew2] off2] & _ & Hrun).
  bind_inv Hrun.
  apply bind_Ok in Hrun as ([[off3 adjncy2] adjwgt2] & _ & Hrun).
  do 3 bind_inv Hrun.
  apply bind_Ok in Hrun as ([[adjncy3 adjwgt3] nd3] & _ & Hrun).
  bind_inv Hrun.
  apply bind_Ok in Hrun as ([[adjncy4 adjwgt4] nd4] & _ & Hrun).
  do 5 bind_inv Hrun.
  injection Hrun as <-.
  cbn [MetisGraph.num_vertices_ MetisGraph.renumber_ MetisGraph.vwgt_
       MetisGraph.adjncy_].
  apply vget_lookup in Hw1 as [Ha0 Hw1].
  apply vget_lookup in Hw2 as [_ Hw2].
  apply vset_Ok in Hset as (_ & -> & _).
  apply verase_Ok in Herase as [_ ->].
  repeat split; try assumption; try lia.
  - exists w1, w2. repeat split; assumption.
  - eexists. reflexivity.
Qed.

(** What any call of [mergeVertices] that returns has done to the
    renumbering and to the partitioning. *)
Lemma mergeVertices_inv (g g' : MetisGraph.t) (vertex1 vertex2 : Z)
    (b : bool) :
  MetisGraph.mergeVertices g vertex1 vertex2 = Ok (b, g') ->
  MetisGraph.renumber_ g' = []
  /\ (MetisGraph.partitions_ g', MetisGraph.part_weights_ g',
      MetisGraph.num_parts_ g')
     = (if 0 <? MetisGraph.num_parts_ g then ([], [], 0)
        else (MetisGraph.partitions_ g, MetisGraph.part_weights_ g,
              MetisGraph.num_parts_ g))
  /\ (b = false
      <-> vertex1 = vertex2 \/ MetisGraph.num_vertices_ g <= vertex1
          \/ MetisGraph.num_vertices_ g <= vertex2).
Proof.
  intros Hrun. unfold MetisGraph.mergeVertices in Hrun. cbv zeta in Hrun.
  set (g0 := if 0 <? MetisGraph.num_parts_ g then _ else _) in Hrun.
  assert (Hg0 : MetisGraph.num_vertices_ g0 = MetisGraph.num_vertices_ g
                /\ (MetisGraph.partitions_ g0, MetisGraph.part_weights_ g0,
                    MetisGraph.num_parts_ g0)
                   = (if 0 <? MetisGraph.num_parts_ g then ([], [], 0)
                      else (MetisGraph.partitions_ g,
                            MetisGraph.part_weights_ g,
                            MetisGraph.num_parts_ g))).
  { subst g0. destruct (0 <? MetisGraph.num_parts_ g); split; reflexivity. }
  destruct Hg0 as [Hnv0 Hparts0].
  cbn [MetisGraph.num_vertices_ MetisGraph.xadj_ MetisGraph.adjncy_
       MetisGraph.vwgt_ MetisGraph.adjwgt_ MetisGraph.partitions_
       MetisGraph.part_weights_ MetisGraph.num_parts_] in Hrun.
  rewrite Hnv0 in Hrun.
  bind_inv Hrun.
  destruct ((vertex1 =? vertex2) || (MetisGraph.num_vertices_ g <=? vertex1)
            || (MetisGraph.num_vertices_ g <=? vertex2)) eqn:Hpair.
  - injection Hrun as <- <-.
    cbn [MetisGraph.renumber_ MetisGraph.partitions_
         MetisGraph.part_weights_ MetisGraph.num_parts_].
    repeat split; try assumption.
    intros _.
    apply orb_true_iff in Hpair as [Hpair | Hv2].
    + apply orb_true_iff in Hpair as [Heq | Hv1].
      * left. now apply Z.eqb_eq.
      * right. left. now apply Z.leb_le.
    + right. right. now apply Z.leb_le.
  - apply orb_false_iff in Hpair as [Hpair Hv2].
    apply orb_false_iff in Hpair as [Hne Hv1].
    apply Z.eqb_neq in Hne. apply Z.leb_gt in Hv1, Hv2.
    destruct (if vertex2 <? vertex1 then (vertex2, vertex1)
              else (vertex1, vertex2)) as [a c].
    do 8 bind_inv Hrun.
    apply bind_Ok in Hrun as ([[xadj1 adjncy1] adjwgt1] & _ & Hrun).
    do 5 bind_inv Hrun.
    apply bind_Ok in Hrun as ([[e1 ew1] off1] & _ & Hrun).
    apply bind_Ok in Hrun as ([[e2 ew2] off2] & _ & Hrun).
    bind_inv Hrun.
    apply bind_Ok in Hrun as ([[off3 adjncy2] adjwgt2] & _ & Hrun).
    do 3 bind_inv Hrun.
    apply bind_Ok in Hrun as ([[adjncy3 adjwgt3] nd3] & _ & Hrun).
    bind_inv Hrun.
    apply bind_Ok in Hrun as ([[adjncy4 adjwgt4] nd4] & _ & Hrun).
    do 5 bind_inv Hrun.
    injection Hrun as <- <-.
    cbn [MetisGraph.renumber_ MetisGraph.partitions_
         MetisGraph.part_weights_ MetisGraph.num_parts_].
    repeat split; try assumption; try discriminate.
    intros [Heq | [Hge | Hge]]; [congruence | lia | lia].
Qed.

(** X2. Whatever it returns, [mergeVertices] has dropped the renumbering, so
    that [getOriginalVertexId] is the identity afterwards, and has cleared a
    partitioning the graph had; it returns false exactly when the two ids are
    equal or one of them is not a vertex. *)
Theorem mergeVertices_drops_renumbering
    (g g' : MetisGraph.t) (vertex1 vertex2 : Z) (b : bool)
    (Hmerge : MetisGraph.mergeVertices g vertex1 vertex2 = Ok (b, g')) :
  MetisGraph.renumber_ g' = []
  /\ (forall vertex_id : Z,
        MetisGraph.getOriginalVertexId g' vertex_id = Ok vertex_id)
  /\ (0 < MetisGraph.num_parts_ g ->
      MetisGraph.partitions_ g' = [] /\ MetisGraph.part_weights_ g' = []
      /\ MetisGraph.num_parts_ g' = 0)
  /\ (b = false
      <-> vertex1 = vertex2 \/ MetisGraph.num_vertices_ g <= vertex1
          \/ MetisGraph.num_vertices_ g <= vertex2).
Proof.
  apply mergeVertices_inv in Hmerge as (Hren & Hparts & Hflag).
  split; [exact Hren |]. split; [| split; [| exact Hflag]].
  - intros vertex_id. unfold MetisGraph.getOriginalVertexId.
    rewrite Hren. reflexivity.
  - intros Hnp. apply Z.ltb_lt in Hnp. rewrite Hnp in Hparts.
    injection Hparts as -> -> ->. repeat split.
Qed.

Lemma mergeVertices_drops_renumbering_witness :
  MetisGraph.getOriginalVertexId partitioned_triangle 1 = Ok 20
  /\ exists g' : MetisGraph.t,
       MetisGraph.mergeVertices partitioned_triangle 1 1 = Ok (false, g')
       /\ MetisGraph.getOriginalVertexId g' 1 = Ok 1
       /\ MetisGraph.partitions_ g' = [].
Proof.
  split; [reflexivity |].
  eexists. split; [reflexivity |].
  pose proof
    (mergeVertices_drops_renumbering partitioned_triangle _ 1 1 false
       eq_refl) as (_ & Hid & Hparts & _).
  split; [apply Hid | apply Hparts; reflexivity].
Defined.

(** X3. A merge that goes through leaves one vertex less: the smaller of the
    two ids takes the sum of both weights less one, the weight of the larger id
    is erased, so that the weights add up to one less than before; and no entry
    of [adjncy_] is the larger id afterwards. *)
Theorem mergeVertices_absorbs_weight
    (g g' : MetisGraph.t) (vertex1 vertex2 : Z)
    (Hmerge : MetisGraph.mergeVertices g vertex1 vertex2 = Ok (true, g')) :
  MetisGraph.num_vertices_ g' = MetisGraph.num_vertices_ g - 1
  /\ (exists wa wb : Z,
        MetisGraph.vwgt_ g !! Z.to_nat (Z.min vertex1 vertex2) = Some wa
        /\ MetisGraph.vwgt_ g !! Z.to_nat (Z.max vertex1 vertex2) = Some wb
        /\ MetisGraph.vwgt_ g'
           = delete (Z.to_nat (Z.max vertex1 vertex2))
               (<[Z.to_nat (Z.min vertex1 vertex2) := wa + (wb - 1)]>
                  (MetisGraph.vwgt_ g)))
  /\ total (MetisGraph.vwgt_ g') = total (MetisGraph.vwgt_ g) - 1
  /\ Forall (fun adj_vertex_id => adj_vertex_id <> Z.max vertex1 vertex2)
       (MetisGraph.adjncy_ g').
Proof.
  apply mergeVertices_true_inv in Hmerge
    as (Hne & Ha & Hb & Hnv & _ & (wa & wb & Hwa & Hwb & Hvw)
        & (adjncy & Hadj)).
  repeat split.
  - exact Hnv.
  - exists wa, wb. repeat split; assumption.
  - rewrite Hvw.
    rewrite (total_delete _ _ wb).
    + rewrite (total_insert _ _ wa) by exact Hwa. lia.
    + rewrite list_lookup_insert_ne by lia. exact Hwb.
  - rewrite Hadj. apply reassign_no_reference. lia.
Qed.

Lemma mergeVertices_absorbs_weight_witness :
  exists g' : MetisGraph.t,
    MetisGraph.mergeVertices triangle 1 0 = Ok (true, g')
    /\ MetisGraph.vwgt_ g' = [3; 2]
    /\ total (MetisGraph.vwgt_ g') = total (MetisGraph.vwgt_ triangle) - 1.
Proof.
  eexists. split; [vm_compute; reflexivity |].
  split; [reflexivity |].
  apply (mergeVertices_absorbs_weight triangle _ 1 0).
  vm_compute. reflexivity.
Defined.

(** ** The METIS graph: a merge in a graph without edges *)

Lemma merge_without_edges_ordered (g : MetisGraph.t) (a b : Z) :
  well_formed g -> MetisGraph.adjncy_ g = [] ->
  0 <= a -> a < b -> b < MetisGraph.num_vertices_ g ->
  MetisGraph.mergeVertices g a b = Err OutOfBounds.
Proof.
  intros Hwf Hnone Ha Hab Hb.
  pose proof Hwf as [(Hxs & Hsame & Hlast) (Hvw & Hzero & Hmono)].
  destruct g as [nv ren X A VW W parts pw ec nce np].
  cbn [MetisGraph.num_vertices_ MetisGraph.xadj_ MetisGraph.adjncy_
       MetisGraph.vwgt_ MetisGraph.adjwgt_] in *.
  subst A.
  assert (W = []) as ->.
  { destruct W; [reflexivity | unfold vsize in Hsame; cbn in Hsame; lia]. }
  assert (Hx0 : forall i : Z, 0 <= i <= nv -> vget X i = Ok 0).
  { intros i Hi.
    destruct (lookup_in_range X i) as [x Hx]; [lia |].
    apply vget_lookup in Hzero as [_ Hzero].
    apply vget_lookup in Hlast as [_ Hlast].
    pose proof (monotone_le X 0 i 0 x Hmono ltac:(lia) Hzero Hx).
    pose proof (monotone_le X i nv x _ Hmono ltac:(lia) Hx Hlast).
    apply vget_of_lookup; [lia |].
    replace 0 with x by (unfold vsize in *; cbn in *; lia). exact Hx. }
  unfold MetisGraph.mergeVertices. cbv zeta.
  set (g0 := if 0 <? MetisGraph.num_parts_ _ then _ else _).
  assert (Hg0 : MetisGraph.num_vertices_ g0 = nv /\ MetisGraph.xadj_ g0 = X
                /\ MetisGraph.adjncy_ g0 = []
                /\ MetisGraph.vwgt_ g0 = VW /\ MetisGraph.adjwgt_ g0 = []).
  { subst g0. cbn [MetisGraph.num_parts_]. destruct (0 <? np); repeat split. }
  destruct Hg0 as (Hnv0 & HX0 & HA0 & HVW0 & HW0).
  cbn [MetisGraph.num_vertices_ MetisGraph.xadj_ MetisGraph.adjncy_
       MetisGraph.vwgt_ MetisGraph.adjwgt_].
  rewrite Hnv0, HX0, HA0, HVW0, HW0.
  replace ((vsize X =? nv + 1) && (vsize VW =? nv)) with true
    by (symmetry; apply andb_true_intro; split; apply Z.eqb_eq; lia).
  cbn [assert bind].
  replace ((a =? b) || (nv <=? a) || (nv <=? b)) with false.
  2:{ symmetry. apply orb_false_iff. split; [apply orb_false_iff; split |].
      - apply Z.eqb_neq. lia.
      - apply Z.leb_gt. lia.
      - apply Z.leb_gt. lia. }
  replace (b <? a) with false by (symmetry; apply Z.ltb_ge; lia).
  destruct (vget_exists VW a) as [w1 Hw1]; [lia |].
  destruct (vget_exists VW b) as [w2 Hw2]; [lia |].
  rewrite Hw1, Hw2. cbn [bind].
  destruct (vset_exists VW a (w1 + (w2 - 1))) as (VW1 & HVW1 & Hlen1);
    [lia |].
  rewrite HVW1. cbn [bind].
  destruct (verase_exists VW1 b) as (VW2 & HVW2 & Hlen2); [lia |].
  rewrite HVW2. cbn [bind].
  rewrite !Hx0 by lia. cbn [bind].
  change (0 - 0) with 0.
  unfold MetisGraph.move_edges. change (0 <? 0) with false.
  cbv iota. cbn [bind].
  change (valloc 0) with (Ok (@nil Z)). cbn [bind].
  rewrite !Hx0 by lia. cbn [bind].
  unfold MetisGraph.load_run. rewrite !for_up_empty by lia. cbn [bind].
  change (Z.to_nat (0 + 0)) with 0%nat.
  cbn [MetisGraph.merge_runs].
  change (0 <? 0) with false. change (0 =? 0) with true.
  cbn [andb assert bind].
  unfold MetisGraph.dedupe. rewrite for_down_empty by lia. cbn [bind].
  reflexivity.
Qed.

(** X1. In a graph without any edge, merging two of its vertices is an access
    outside a vector: after the (empty) lists of the two vertices have been
    combined, line 430 reads [adjncy_[xadj_[vertex1]]], the element 0 of the
    empty [adjncy_]. *)
Theorem mergeVertices_without_edges
    (g : MetisGraph.t) (vertex1 vertex2 : Z)
    (Hwf : well_formed g) (Hnone : MetisGraph.adjncy_ g = [])
    (H1 : 0 <= vertex1 < MetisGraph.num_vertices_ g)
    (H2 : 0 <= vertex2 < MetisGraph.num_vertices_ g)
    (Hne : vertex1 <> vertex2) :
  MetisGraph.mergeVertices g vertex1 vertex2 = Err OutOfBounds.
Proof.
  destruct (Z.lt_ge_cases vertex1 vertex2) as [Hlt | Hge].
  - apply merge_without_edges_ordered; try assumption; lia.
  - rewrite mergeVertices_swap.
    apply merge_without_edges_ordered; try assumption; lia.
Qed.

Lemma well_formed_isolated_pair : well_formed isolated_pair.
Proof.
  unfold well_formed, sizes_ok. repeat split; try reflexivity.
  concrete_monotone.
Qed.

Lemma mergeVertices_without_edges_witness :
  MetisGraph.mergeVertices isolated_pair 1 0 = Err OutOfBounds.
Proof.
  apply (mergeVertices_without_edges isolated_pair 1 0
           well_formed_isolated_pair eq_refl);
    cbn; lia.
Defined.

(** ** The METIS graph: the two operations on a pair of vertices *)

Lemma getContractionCost_swap (g : MetisGraph.t) (vertex1 vertex2 : Z) :
  MetisGraph.getContractionCost g vertex1 vertex2
  = MetisGraph.getContractionCost g vertex2 vertex1.
Proof.
  unfold MetisGraph.getContractionCost. cbv zeta.
  destruct (Z.eq_dec vertex1 vertex2) as [-> | Hne]; [reflexivity |].
  replace (vertex1 =? vertex2) with false
    by (symmetry; apply Z.eqb_neq; lia).
  replace (vertex2 =? vertex1) with false
    by (symmetry; apply Z.eqb_neq; lia).
  cbn [negb andb].
  destruct (vertex1 <? MetisGraph.num_vertices_ g),
    (vertex2 <? MetisGraph.num_vertices_ g); cbn [andb]; try reflexivity.
  destruct (Z.ltb_spec vertex2 vertex1), (Z.ltb_spec vertex1 vertex2);
    try lia; reflexivity.
Qed.

(** X4. Both operations on a pair of vertices order the pair themselves: the
    order in which the caller gives the two ids makes no difference to the
    result. *)
Theorem vertex_pair_order_irrelevant (g : MetisGraph.t) (vertex1 vertex2 : Z) :
  MetisGraph.mergeVertices g vertex1 vertex2
  = MetisGraph.mergeVertices g vertex2 vertex1
  /\ MetisGraph.getContractionCost g vertex1 vertex2
     = MetisGraph.getContractionCost g vertex2 vertex1.
Proof.
  split; [apply mergeVertices_swap | apply getContractionCost_swap].
Qed.

Lemma edges_in_range (g : MetisGraph.t) (v : Z) :
  well_formed g -> 0 <= v < MetisGraph.num_vertices_ g ->
  exists lo hi : Z,
    vget (MetisGraph.xadj_ g) v = Ok lo
    /\ vget (MetisGraph.xadj_ g) (v + 1) = Ok hi
    /\ 0 <= lo <= hi /\ hi <= vsize (MetisGraph.adjncy_ g).
Proof.
  intros [(Hxs & Hsame & Hlast) (Hvw & Hzero & Hmono)] Hv.
  destruct (lookup_in_range (MetisGraph.xadj_ g) v) as [lo Hlo]; [lia |].
  destruct (lookup_in_range (MetisGraph.xadj_ g) (v + 1)) as [hi Hhi];
    [lia |].
  apply vget_lookup in Hzero as [_ Hzero].
  apply vget_lookup in Hlast as [_ Hlast].
  pose proof (monotone_le _ 0 v _ _ Hmono ltac:(lia) Hzero Hlo).
  pose proof (monotone_le _ v (v + 1) _ _ Hmono ltac:(lia) Hlo Hhi).
  pose proof (monotone_le _ (v + 1) (MetisGraph.num_vertices_ g) _ _ Hmono
                ltac:(lia) Hhi Hlast).
  exists lo, hi.
  repeat split; try lia; apply vget_of_lookup; (lia || assumption).
Qed.




(** ** The METIS graph: packets, beyond one round trip *)

Section PacketSequences.

Import MetisGraph.

Context (sizeof_idx_t : nat).

(** [unpack] reads one graph off the front of a packet and leaves the rest;
    the partitioning of the graph it unpacks into stays as it was. *)
Lemma unpack_bytes (g h : t) (rest : BytePacket.t) :
  (0 < sizeof_idx_t)%nat -> representable sizeof_idx_t g ->
  unpack sizeof_idx_t h (graph_bytes sizeof_idx_t g ++ rest)
  = Ok (mk (num_vertices_ g) (renumber_ g) (xadj_ g) (adjncy_ g) (vwgt_ g)
           (adjwgt_ g) (partitions_ h) (part_weights_ h) (edge_cut_ h)
           (num_cross_edges_ h) (num_parts_ h),
        rest).
Proof.
  intros Hsize [Hnv Hvecs].
  repeat match goal with
         | H : Forall _ (_ :: _) |- _ =>
             let H1 := fresh "Hv" in
             apply Forall_cons in H as [[? H1] H]
         end.
  unfold unpack, graph_bytes.
  rewrite <- !app_assoc.
  rewrite extractSigned_append by assumption.
  unfold bind at 1. cbv beta iota.
  do 5 (rewrite unpack_vector_bytes by assumption;
        unfold bind at 1; cbv beta iota).
  reflexivity.
Qed.

(** X6. The constructor from a packet gives the packed graph back without its
    partitioning: the six members [pack] writes are restored, the partitions,
    their weights and the three counters are those of an empty graph. *)
Theorem of_packet_restores_members (g : t)
    (Hsize : (0 < sizeof_idx_t)%nat) (Hg : representable sizeof_idx_t g) :
  exists byte_packet : BytePacket.t,
    pack sizeof_idx_t g [] = Ok byte_packet
    /\ of_packet sizeof_idx_t byte_packet = Ok (clearPartitions g, []).
Proof.
  exists (graph_bytes sizeof_idx_t g). split; [apply pack_bytes |].
  unfold of_packet.
  rewrite <- (app_nil_r (graph_bytes sizeof_idx_t g)).
  rewrite unpack_bytes by assumption. reflexivity.
Qed.

(** X7. [pack] appends to what the packet holds and [unpack] reads from its
    front: two graphs packed one after the other come out in the order in which
    they went in, and the packet is used up. *)
Theorem packets_in_sequence (g1 g2 h1 h2 : t)
    (Hsize : (0 < sizeof_idx_t)%nat)
    (Hg1 : representable sizeof_idx_t g1)
    (Hg2 : representable sizeof_idx_t g2) :
  exists (p1 p2 : BytePacket.t) (g1' g2' : t),
    pack sizeof_idx_t g1 [] = Ok p1
    /\ pack sizeof_idx_t g2 p1 = Ok p2
    /\ unpack sizeof_idx_t h1 p2 = Ok (g1', graph_bytes sizeof_idx_t g2)
    /\ unpack sizeof_idx_t h2 (graph_bytes sizeof_idx_t g2) = Ok (g2', [])
    /\ eqb g1' g1 = true /\ eqb g2' g2 = true.
Proof.
  eexists _, _, _, _.
  split; [apply pack_bytes |]. split; [apply pack_bytes |].
  cbn [app].
  split; [apply unpack_bytes; assumption |].
  split.
  - rewrite <- (app_nil_r (graph_bytes sizeof_idx_t g2)).
    apply unpack_bytes; assumption.
  - split; unfold eqb; apply bool_decide_eq_true; reflexivity.
Qed.

(** X8. [operator==] is equality of packets: two graphs whose members fit their
    types compare equal exactly when [pack] writes the same bytes for both. *)
Theorem eqb_iff_same_packet (g h : t)
    (Hsize : (0 < sizeof_idx_t)%nat)
    (Hg : representable sizeof_idx_t g)
    (Hh : representable sizeof_idx_t h) :
  eqb g h = true <-> pack sizeof_idx_t g [] = pack sizeof_idx_t h [].
Proof.
  rewrite !pack_bytes. cbn [app]. unfold eqb.
  rewrite bool_decide_eq_true. split.
  - intros [= Hnv Hx Ha Hvw Hw Hr]. unfold graph_bytes.
    rewrite Hnv, Hx, Ha, Hvw, Hw, Hr. reflexivity.
  - intros [= Hbytes].
    pose proof (unpack_bytes g empty [] Hsize Hg) as Hug.
    pose proof (unpack_bytes h empty [] Hsize Hh) as Huh.
    rewrite app_nil_r in Hug, Huh. rewrite Hbytes, Huh in Hug.
    injection Hug as -> -> -> -> -> ->. reflexivity.
Qed.

End PacketSequences.

Lemma of_packet_restores_members_witness :
  exists byte_packet : BytePacket.t,
    MetisGraph.pack 8 partitioned_triangle [] = Ok byte_packet
    /\ MetisGraph.of_packet 8 byte_packet
       = Ok (MetisGraph.mk 3 [10; 20; 30] [0; 2; 4; 6] [1; 2; 0; 2; 0; 1]
               [2; 2; 2] [3; 5; 3; 7; 5; 7] [] [] 0 0 0, []).
Proof.
  apply (of_packet_restores_members 8 partitioned_triangle).
  - lia.
  - unfold representable, fits, vsize. simpl.
    repeat constructor; lia.
Defined.

Lemma representable_triangle : representable 8 triangle.
Proof.
  unfold representable, fits, vsize. simpl. repeat constructor; lia.
Qed.

Lemma representable_path4 : representable 8 path4.
Proof.
  unfold representable, fits, vsize. simpl. repeat constructor; lia.
Qed.

Lemma packets_in_sequence_witness :
  exists (p1 p2 : BytePacket.t) (g1' g2' : MetisGraph.t),
    MetisGraph.pack 8 triangle [] = Ok p1
    /\ MetisGraph.pack 8 path4 p1 = Ok p2
    /\ MetisGraph.unpack 8 MetisGraph.empty p2 = Ok (g1', graph_bytes 8 path4)
    /\ MetisGraph.unpack 8 MetisGraph.empty (graph_bytes 8 path4)
       = Ok (g2', [])
    /\ MetisGraph.eqb g1' triangle = true /\ MetisGraph.eqb g2' path4 = true.
Proof.
  apply (packets_in_sequence 8 triangle path4 MetisGraph.empty
           MetisGraph.empty);
    [lia | exact representable_triangle | exact representable_path4].
Defined.

Lemma eqb_iff_same_packet_witness :
  MetisGraph.eqb triangle path4 = true
  <-> MetisGraph.pack 8 triangle [] = MetisGraph.pack 8 path4 [].
Proof.
  apply (eqb_iff_same_packet 8 triangle path4);
    [lia | exact representable_triangle | exact representable_path4].
Defined.

(** ** Connected tensors: conjugation to a given state *)

(** X17. [conjugate(bool)] brings the flag of an input vertex to the value
    asked for and does nothing when the flag has that value already, so that a
    second call with the same value changes nothing. The flag of the output
    vertex (id 0) never changes: when it differs from the value asked for,
    every call reverses the legs again, and the second call gives the connected
    tensor back. *)
Theorem conjugate_to_spec (x : TensorConn.t) (conjug : bool) :
  (TensorConn.id_ x <> 0 ->
   TensorConn.isComplexConjugated (TensorConn.conjugate_to x conjug) = conjug)
  /\ (TensorConn.id_ x = 0 ->
      TensorConn.isComplexConjugated (TensorConn.conjugate_to x conjug)
      = TensorConn.isComplexConjugated x)
  /\ (TensorConn.isComplexConjugated x = conjug ->
      TensorConn.conjugate_to x conjug = x)
  /\ (TensorConn.id_ x <> 0 ->
      TensorConn.conjugate_to (TensorConn.conjugate_to x conjug) conjug
      = TensorConn.conjugate_to x conjug)
  /\ (TensorConn.id_ x = 0 ->
      TensorConn.isComplexConjugated x <> conjug ->
      TensorConn.conjugate_to (TensorConn.conjugate_to x conjug) conjug = x).
Proof.
  destruct x as [tensor id legs conjugated optimizable].
  unfold TensorConn.conjugate_to, TensorConn.isComplexConjugated,
    TensorConn.conjugate.
  cbn [TensorConn.id_ TensorConn.conjugated_ TensorConn.legs_
       TensorConn.tensor_ TensorConn.optimizable_].
  repeat split.
  - intros Hid. apply Z.eqb_neq in Hid.
    destruct conjugated, conjug; cbn; rewrite ?Hid; reflexivity.
  - intros ->. destruct conjugated, conjug; reflexivity.
  - intros ->. destruct conjug; reflexivity.
  - intros Hid. apply Z.eqb_neq in Hid.
    destruct conjugated, conjug; cbn; rewrite ?Hid; cbn; reflexivity.
  - intros -> Hflag.
    assert (Hlegs : map TensorLeg.reverseDirection
                      (map TensorLeg.reverseDirection legs) = legs).
    { rewrite map_map. rewrite <- (map_id legs) at 2.
      apply map_ext. intros leg. apply reverseDirection_involutive. }
    destruct conjugated, conjug; try congruence; cbn; rewrite Hlegs;
      reflexivity.
Qed.

(** ** Connected tensors: the output vertex is not optimizable *)

(** X18. No sequence of the edits other than [resetTensorId] makes a connected
    tensor with id 0 optimizable: [resetOptimizability(true)] asserts on it.
    [resetTensorId] does not look at the flag: it turns an optimizable input
    vertex into one with id 0 that is still optimizable. *)
Theorem output_never_optimizable :
  (forall x : TensorConn.t,
     built x -> TensorConn.id_ x = 0 -> TensorConn.isOptimizable x = false)
  /\ (forall x : TensorConn.t,
        TensorConn.id_ x = 0 ->
        TensorConn.resetOptimizability x true = Err AssertionFailed)
  /\ (forall x : TensorConn.t,
        TensorConn.isOptimizable x = true ->
        TensorConn.id_ (TensorConn.resetTensorId x 0) = 0
        /\ TensorConn.isOptimizable (TensorConn.resetTensorId x 0) = true).
Proof.
  split; [| split].
  - intros x Hbuilt. unfold TensorConn.isOptimizable.
    induction Hbuilt as
      [tensor id legs conjugated
      | x _ IH
      | x conjug _ IH
      | x x' optimizable _ IH Hreset
      | deleteDimension x x' leg_id _ IH Hdelete
      | appendDimension x subspace dim_extent tensor_leg _ IH
      | permuted hex_name x x' order name _ IH Hreplace].
    + reflexivity.
    + exact IH.
    + unfold TensorConn.conjugate_to.
      destruct (negb _); exact IH.
    + unfold TensorConn.resetOptimizability in Hreset.
      apply bind_Ok in Hreset as ([] & Hassert & Hreset).
      injection Hreset as <-.
      cbn [TensorConn.id_ TensorConn.optimizable_]. intros Hid.
      rewrite Hid in Hassert.
      destruct optimizable; [discriminate | reflexivity].
    + unfold TensorConn.deleteLeg in Hdelete.
      apply bind_Ok in Hdelete as ([] & _ & Hdelete).
      injection Hdelete as <-. exact IH.
    + exact IH.
    + unfold TensorConn.replaceStoredTensor in Hreplace. cbv zeta in Hreplace.
      apply bind_Ok in Hreplace as ([] & _ & Hreplace).
      apply bind_Ok in Hreplace as (legs & _ & Hreplace).
      injection Hreplace as <-. exact IH.
  - intros x Hid. unfold TensorConn.resetOptimizability.
    rewrite Hid. reflexivity.
  - intros x Hopt. split; [reflexivity | exact Hopt].
Qed.

(** ** Connected tensors: deleting several legs *)

Lemma legs_without_ext (ids1 ids2 : list Z) (legs : list TensorLeg.t) :
  forall position : Z,
    (forall k : Z, position <= k -> elem_of k ids1 <-> elem_of k ids2) ->
    legs_without ids1 position legs = legs_without ids2 position legs.
Proof.
  induction legs as [| leg legs IH]; intros position Hsame; [reflexivity |].
  cbn [legs_without].
  rewrite (IH (position + 1)) by (intros k Hk; apply Hsame; lia).
  destruct (decide (elem_of position ids1)) as [Hin | Hout].
  - rewrite !bool_decide_eq_true_2;
      [reflexivity | apply Hsame; [lia | exact Hin] | exact Hin].
  - rewrite !bool_decide_eq_false_2; [reflexivity | | exact Hout].
    intros Hin. apply Hout. apply Hsame; [lia | exact Hin].
Qed.

Lemma legs_without_nil (legs : list TensorLeg.t) (position : Z) :
  legs_without [] position legs = legs.
Proof.
  revert position. induction legs as [| leg legs IH]; intros position;
    [reflexivity |].
  cbn [legs_without].
  rewrite bool_decide_eq_false_2 by apply not_elem_of_nil.
  now rewrite IH.
Qed.

(** Taking out the leg at the smallest of the positions first moves every
    other leg to be taken out one position down. *)
Lemma legs_without_delete (ids : list Z) (legs : list TensorLeg.t) :
  forall i d : Z,
    d <= i -> Forall (fun j => i < j) ids ->
    legs_without ids (d + 1) (delete (Z.to_nat (i - d)) legs)
    = legs_without (i :: ids) d legs.
Proof.
  induction legs as [| leg legs IH]; intros i d Hdi Hids; [reflexivity |].
  rewrite Forall_forall in Hids.
  destruct (Z.eq_dec i d) as [-> | Hne].
  - rewrite Z.sub_diag. cbn [Z.to_nat delete list_delete legs_without].
    rewrite bool_decide_eq_true_2 by apply list_elem_of_here.
    apply legs_without_ext. intros k Hk. rewrite elem_of_cons. split.
    + now right.
    + intros [-> | Hin]; [lia | exact Hin].
  - replace (Z.to_nat (i - d)) with (S (Z.to_nat (i - (d + 1)))) by lia.
    cbn [delete list_delete legs_without].
    rewrite (bool_decide_eq_false_2 (elem_of (d + 1) ids)).
    2:{ intros Hin. specialize (Hids _ Hin). lia. }
    rewrite (bool_decide_eq_false_2 (elem_of d (i :: ids))).
    2:{ rewrite elem_of_cons. intros [-> | Hin]; [lia |].
        specialize (Hids _ Hin). lia. }
    f_equal. apply IH; [lia |]. rewrite Forall_forall. exact Hids.
Qed.

Section DeleteLegs.

Import TensorConn.

Context (deleteDimension : Tensor.t -> Z -> Tensor.t).

Lemma delete_each_spec (leg_ids : list Z) :
  forall (x : t) (deleted : Z),
    StronglySorted Z.le leg_ids -> NoDup leg_ids ->
    0 <= deleted ->
    deleted + Z.of_nat (length (legs_ x)) < 2 ^ 32 ->
    Forall (fun leg_id =>
              deleted <= leg_id < deleted + Z.of_nat (length (legs_ x)))
      leg_ids ->
    exists x' : t,
      delete_each deleteDimension leg_ids x deleted = Ok x'
      /\ legs_ x' = legs_without leg_ids deleted (legs_ x)
      /\ Z.of_nat (length (legs_ x'))
         = Z.of_nat (length (legs_ x)) - Z.of_nat (length leg_ids)
      /\ (id_ x', conjugated_ x', optimizable_ x')
         = (id_ x, conjugated_ x, optimizable_ x).
Proof.
  induction leg_ids as [| leg_id rest IH];
    intros x deleted Hsorted Hdistinct Hdeleted Hsmall Hrange.
  - exists x. cbn [delete_each length]. rewrite legs_without_nil.
    repeat split. lia.
  - apply StronglySorted_inv in Hsorted as [Hsorted Hle].
    apply NoDup_cons in Hdistinct as [Hfresh Hdistinct].
    apply Forall_cons in Hrange as [Hid Hrange].
    assert (Habove : Forall (fun j => leg_id < j) rest).
    { rewrite Forall_forall in Hle |- *. intros j Hj.
      specialize (Hle j Hj).
      destruct (Z.eq_dec leg_id j) as [-> | Hne]; [contradiction | lia]. }
    cbn [delete_each].
    rewrite (Z.mod_small (leg_id - deleted)) by lia.
    rewrite (Z.mod_small (deleted + 1)) by lia.
    unfold deleteLeg at 1.
    replace (leg_id - deleted <? Z.of_nat (length (legs_ x))) with true
      by (symmetry; apply Z.ltb_lt; lia).
    cbn [assert bind].
    set (x1 := mk _ _ _ _ _).
    assert (Hlen1 : Z.of_nat (length (legs_ x1))
                    = Z.of_nat (length (legs_ x)) - 1).
    { subst x1. cbn [legs_]. rewrite length_delete.
      - lia.
      - apply lookup_lt_is_Some_2. lia. }
    destruct (IH x1 (deleted + 1) Hsorted Hdistinct ltac:(lia) ltac:(lia))
      as (x' & Hrun & Hlegs & Hlen & Hrest).
    { rewrite Forall_forall in Hrange, Habove |- *. intros j Hj.
      specialize (Hrange j Hj). specialize (Habove j Hj). lia. }
    exists x'. split; [exact Hrun |].
    split; [| split].
    + rewrite Hlegs. subst x1. cbn [legs_].
      apply legs_without_delete; [lia | exact Habove].
    + rewrite Hlen, Hlen1. cbn [length]. lia.
    + rewrite Hrest. reflexivity.
Qed.

(** X19. [deleteLegs] with positions that are all different and all positions
    of legs: the caller's vector comes back sorted, and the legs that are left
    are the legs at the other positions, in their order; the id and the two
    flags stay. ([std::sort] gives the one sorted arrangement of the
    positions.) *)
Theorem deleteLegs_removes_positions (x : t) (leg_ids : list Z)
    (Hdistinct : NoDup leg_ids)
    (Hrange : Forall
                (fun leg_id => 0 <= leg_id < Z.of_nat (length (legs_ x)))
                leg_ids)
    (Hsmall : Z.of_nat (length (legs_ x)) < 2 ^ 32) :
  exists x' : t,
    deleteLegs deleteDimension x leg_ids = Ok (x', merge_sort Z.le leg_ids)
    /\ legs_ x' = legs_without leg_ids 0 (legs_ x)
    /\ Z.of_nat (length (legs_ x'))
       = Z.of_nat (length (legs_ x)) - Z.of_nat (length leg_ids)
    /\ (id_ x', conjugated_ x', optimizable_ x')
       = (id_ x, conjugated_ x, optimizable_ x).
Proof.
  unfold deleteLegs.
  destruct leg_ids as [| leg_id rest].
  - exists x. cbn [length]. change (0 <? Z.of_nat 0) with false.
    rewrite legs_without_nil. repeat split. lia.
  - replace (0 <? Z.of_nat (length (leg_id :: rest))) with true
      by (symmetry; apply Z.ltb_lt; cbn [length]; lia).
    set (ids := leg_id :: rest) in *.
    pose proof (merge_sort_Permutation Z.le ids) as Hperm.
    destruct (delete_each_spec (merge_sort Z.le ids) x 0)
      as (x' & Hrun & Hlegs & Hlen & Hrest).
    + apply StronglySorted_merge_sort; [exact Z.le_trans | exact Z.le_total].
    + rewrite Hperm. exact Hdistinct.
    + lia.
    + lia.
    + rewrite Hperm. exact Hrange.
    + exists x'. rewrite Hrun. cbn [bind].
      split; [reflexivity |]. split; [| split].
      * rewrite Hlegs. apply legs_without_ext.
        intros k _. now rewrite Hperm.
      * rewrite Hlen. now rewrite Hperm.
      * exact Hrest.
Qed.

End DeleteLegs.

Lemma deleteLegs_removes_positions_witness :
  exists x' : TensorConn.t,
    TensorConn.deleteLegs without_extent four_legs [2; 0] = Ok (x', [0; 2])
    /\ TensorConn.legs_ x'
       = [TensorLeg.mk 6 0 INWARD; TensorLeg.mk 8 2 UNDIRECT].
Proof.
  destruct (deleteLegs_removes_positions without_extent four_legs [2; 0])
    as (x' & Hrun & Hlegs & _).
  - apply NoDup_cons. split; [| apply NoDup_singleton].
    rewrite list_elem_of_singleton. discriminate.
  - repeat constructor; cbn; lia.
  - cbn. lia.
  - exists x'. split; [exact Hrun | exact Hlegs].
Defined.

(** ** Connected tensors: the legs after the stored tensor is permuted *)

Lemma leg_at_lookup (legs : list TensorLeg.t) (i : Z) (leg : TensorLeg.t) :
  0 <= i -> legs !! Z.to_nat i = Some leg -> TensorConn.leg_at legs i = Ok leg.
Proof.
  intros Hi Hleg. unfold TensorConn.leg_at. rewrite Hleg.
  replace (0 <=? i) with true by (symmetry; apply Z.leb_le; lia).
  reflexivity.
Qed.

Lemma legs_in_order (legs : list TensorLeg.t) (d : TensorLeg.t) :
  (fun k => nth (Z.to_nat k) legs d) <$> seqZ 0 (Z.of_nat (length legs))
  = legs.
Proof.
  apply list_eq. intros i. rewrite list_lookup_fmap.
  destruct (Nat.lt_ge_cases i (length legs)) as [Hlt | Hge].
  - rewrite lookup_seqZ_lt by lia. cbn [fmap option_fmap option_map].
    destruct (lookup_lt_is_Some_2 legs i Hlt) as [leg Hleg].
    rewrite Hleg. f_equal.
    replace (Z.to_nat (0 + Z.of_nat i)) with i by lia.
    now apply nth_lookup_Some.
  - rewrite lookup_seqZ_ge by lia.
    now rewrite lookup_ge_None_2.
Qed.

Section PermutedLegs.

Import TensorConn.

Context (permuted : Tensor.t -> list Z -> Tensor.t)
        (hex_name : Tensor.t -> string).

Lemma old_legs_copied (legs : list TensorLeg.t) (rank : Z) :
  0 <= rank <= Z.of_nat (length legs) ->
  for_up 0 rank
    (fun i old_legs => do leg <- leg_at legs i;; Ok (old_legs ++ [leg])) []
  = Ok (take (Z.to_nat rank) legs).
Proof.
  intros Hrank.
  match goal with
  | |- for_up 0 rank ?body ?s = _ =>
      destruct (for_up_invariant
                  (fun i old_legs => old_legs = take (Z.to_nat i) legs)
                  body 0 rank s) as (old_legs & Hrun & ->);
        [lia | reflexivity | | exact Hrun]
  end.
  intros k old_legs Hk ->.
  destruct (lookup_lt_is_Some_2 legs (Z.to_nat k)) as [leg Hleg];
    [lia |].
  rewrite (leg_at_lookup legs k leg ltac:(lia) Hleg). cbn [bind].
  eexists. split; [reflexivity |].
  replace (Z.to_nat (k + 1)) with (S (Z.to_nat k)) by lia.
  now rewrite (take_S_r _ _ _ Hleg).
Qed.

Lemma permute_legs_spec (old_legs legs : list TensorLeg.t) (order : list Z)
    (d : TensorLeg.t) :
  length order = length legs ->
  Forall (fun k => 0 <= k < Z.of_nat (length old_legs)) order ->
  permute_legs old_legs order (vsize order) legs
  = Ok (map (fun k => nth (Z.to_nat k) old_legs d) order).
Proof.
  intros Hlen Hrange. unfold permute_legs.
  match goal with
  | |- for_up 0 _ ?body ?s = _ =>
      destruct (for_up_invariant
                  (fun i cur =>
                     cur = map (fun k => nth (Z.to_nat k) old_legs d)
                             (take (Z.to_nat i) order)
                           ++ drop (Z.to_nat i) legs)
                  body 0 (vsize order) s) as (cur & Hrun & ->);
        [apply vsize_nonneg | reflexivity | |]
  end.
  - intros i cur Hi ->. unfold vsize in Hi.
    destruct (lookup_lt_is_Some_2 order (Z.to_nat i)) as [k Hk]; [lia |].
    destruct (lookup_lt_is_Some_2 legs (Z.to_nat i)) as [leg Hleg]; [lia |].
    rewrite (vget_of_lookup order i k ltac:(lia) Hk). cbn [bind].
    pose proof (proj1 (Forall_lookup _ _) Hrange _ _ Hk) as Hkr.
    cbv beta in Hkr.
    destruct (lookup_lt_is_Some_2 old_legs (Z.to_nat k)) as [old Hold];
      [lia |].
    rewrite (leg_at_lookup old_legs k old ltac:(lia) Hold). cbn [bind].
    set (done := map _ (take (Z.to_nat i) order)).
    assert (Hdone : length done = Z.to_nat i).
    { subst done. rewrite length_map, length_take. lia. }
    rewrite (leg_at_lookup _ i leg ltac:(lia)).
    2:{ rewrite lookup_app_r by lia.
        rewrite Hdone, Nat.sub_diag, lookup_drop, Nat.add_0_r. exact Hleg. }
    cbn [bind]. eexists. split; [reflexivity |].
    replace (Z.to_nat (i + 1)) with (S (Z.to_nat i)) by lia.
    rewrite (take_S_r _ _ _ Hk), map_app. cbn [map].
    rewrite (drop_S _ _ _ Hleg).
    rewrite <- Hdone at 1.
    rewrite insert_app_r_alt by lia.
    rewrite Nat.sub_diag. cbn [insert list_insert].
    rewrite <- app_assoc. cbn [app].
    now rewrite (nth_lookup_Some _ _ _ _ Hold).
  - rewrite Hrun. f_equal. unfold vsize.
    rewrite Nat2Z.id, take_ge, drop_ge, app_nil_r by lia. reflexivity.
Qed.

(** X20. [replaceStoredTensor(order,name)] on a connected tensor with as many
    legs as its tensor has dimensions and an order of that length made of
    positions of legs: leg [i] afterwards is leg [order[i]] before; when the
    order is a permutation, the legs are the same legs rearranged. The id and
    the two flags stay, and a name that is not empty becomes the name of the
    stored tensor. *)
Theorem replaceStoredTensor_permutes (x : t) (order : list Z) (name : string)
    (Hrank : Tensor.getRank (tensor_ x) = Z.of_nat (length (legs_ x)))
    (Horder : vsize order = Tensor.getRank (tensor_ x))
    (Hrange : Forall (fun k => 0 <= k < Tensor.getRank (tensor_ x)) order) :
  exists x' : t,
    replaceStoredTensor permuted hex_name x order name = Ok x'
    /\ Forall2 (fun k leg' => legs_ x !! Z.to_nat k = Some leg') order
         (legs_ x')
    /\ (Permutation order (seqZ 0 (Tensor.getRank (tensor_ x))) ->
        Permutation (legs_ x') (legs_ x))
    /\ (id_ x', conjugated_ x', optimizable_ x')
       = (id_ x, conjugated_ x, optimizable_ x)
    /\ (name <> EmptyString -> getName x' = name).
Proof.
  set (d := TensorLeg.mk 0 0 UNDIRECT).
  assert (Hlegs : exists legs',
             (if 0 <? Tensor.getRank (tensor_ x) then
                do old_legs <-
                  for_up 0 (Tensor.getRank (tensor_ x))
                    (fun i old_legs =>
                       do leg <- leg_at (legs_ x) i;; Ok (old_legs ++ [leg]))
                    [];;
                permute_legs old_legs order (Tensor.getRank (tensor_ x))
                  (legs_ x)
              else Ok (legs_ x)) = Ok legs'
             /\ legs' = map (fun k => nth (Z.to_nat k) (legs_ x) d) order).
  { destruct (Z.ltb_spec 0 (Tensor.getRank (tensor_ x))) as [Hpos | Hzero].
    - rewrite old_legs_copied by lia. cbn [bind].
      rewrite Hrank, Nat2Z.id, firstn_all.
      rewrite <- Hrank, <- Horder.
      eexists. split; [| reflexivity].
      apply permute_legs_spec.
      + unfold vsize in Horder. lia.
      + rewrite <- Hrank. exact Hrange.
    - exists (legs_ x). split; [reflexivity |].
      assert (Hnil : legs_ x = [])
        by (destruct (legs_ x); [easy | cbn in *; lia]).
      assert (Hnil' : order = [])
        by (destruct order; [easy | unfold vsize in *; cbn in *; lia]).
      rewrite Hnil, Hnil'. reflexivity. }
  destruct Hlegs as (legs' & Hrun & Hlegs').
  unfold replaceStoredTensor. cbv zeta.
  replace (Tensor.getRank (tensor_ x) =? vsize order) with true
    by (symmetry; apply Z.eqb_eq; lia).
  cbn [assert bind]. rewrite Hrun. cbn [bind].
  eexists. split; [reflexivity |].
  cbn [legs_ id_ conjugated_ optimizable_].
  split; [| split; [| split; [reflexivity |]]].
  - rewrite Hlegs'. clear Hrun Hlegs' Horder.
    induction order as [| k order IH]; [constructor |].
    apply Forall_cons in Hrange as [Hk Hrange].
    cbn [map]. constructor; [| apply IH; exact Hrange].
    destruct (lookup_lt_is_Some_2 (legs_ x) (Z.to_nat k)) as [leg Hleg];
      [lia |].
    now rewrite (nth_lookup_Some _ _ _ _ Hleg).
  - intros Hperm. rewrite Hlegs'.
    change (map ?f order) with (f <$> order). rewrite Hperm, Hrank.
    now rewrite legs_in_order.
  - intros Hname. unfold getName, Tensor.getName. cbn [tensor_ Tensor.name_].
    destruct name as [| c name]; [contradiction | reflexivity].
Qed.

End PermutedLegs.

Lemma replaceStoredTensor_permutes_witness :
  exists x' : TensorConn.t,
    TensorConn.replaceStoredTensor with_extents_in_order
      (fun _ => "z0"%string) four_legs [3; 0; 2; 1] "B" = Ok x'
    /\ Forall2
         (fun k leg' => TensorConn.legs_ four_legs !! Z.to_nat k = Some leg')
         [3; 0; 2; 1] (TensorConn.legs_ x')
    /\ TensorConn.getName x' = "B"%string.
Proof.
  destruct (replaceStoredTensor_permutes with_extents_in_order
              (fun _ => "z0"%string) four_legs [3; 0; 2; 1] "B")
    as (x' & Hrun & Hlegs & _ & _ & Hname).
  - reflexivity.
  - reflexivity.
  - repeat constructor; cbn; lia.
  - exists x'. split; [exact Hrun |]. split; [exact Hlegs |].
    apply Hname. discriminate.
Defined.

(** ** The reconstructor: the derivative environments *)

Section EnvironmentFacts.

Import Reconstructor.

Context (lagrangian : expansion).

Lemma prepare_environments_fold (approximant : TensorExpansion.t)
    (environments : list Environment) :
  prepare_environments lagrangian approximant environments
  = snd (fold_left (prepare_step lagrangian) (tensors_of approximant)
           ([], environments)).
Proof.
  unfold prepare_environments, tensors_of.
  change (snd (fold_left
                 (fun acc network =>
                    fold_left (prepare_step lagrangian) (fst network) acc)
                 (TensorExpansion.components_ approximant)
                 ([], environments))
          = snd (fold_left (prepare_step lagrangian)
                   (flat_map fst (TensorExpansion.components_ approximant))
                   ([], environments))).
  f_equal.
  generalize (@nil string, environments).
  induction (TensorExpansion.components_ approximant) as [| network rest IH];
    intros acc; [reflexivity |].
  cbn [fold_left flat_map]. rewrite fold_left_app. apply IH.
Qed.

Lemma existsb_eqb_name (name : string) (names : list string) :
  existsb (String.eqb name) names = true <-> In name names.
Proof.
  rewrite existsb_exists. split.
  - intros (n & Hin & Heq). apply String.eqb_eq in Heq. now subst.
  - intros Hin. exists name. split; [exact Hin | apply String.eqb_refl].
Qed.

(** What the preparation keeps true of the names seen and the environments
    added so far. *)
Lemma prepare_fold_inv (tensors : list TensorConn.t) :
  forall (names : list string) (added : list Environment),
    map environment_name added = rev names -> List.NoDup names ->
    exists (names' : list string) (added' : list Environment),
      (forall base : list Environment,
         fold_left (prepare_step lagrangian) tensors (names, base ++ added)
         = (names', base ++ added'))
      /\ map environment_name added' = rev names'
      /\ List.NoDup names'
      /\ (forall name : string,
            In name names'
            <-> In name names
                \/ exists tensor : TensorConn.t,
                     In tensor tensors
                     /\ TensorConn.isOptimizable tensor = true
                     /\ TensorConn.getName tensor = name)
      /\ (Forall
            (fun environment =>
               gradient_expansion environment
               = Derivative lagrangian (environment_name environment) true)
            added ->
          Forall
            (fun environment =>
               gradient_expansion environment
               = Derivative lagrangian (environment_name environment) true)
            added').
Proof.
  induction tensors as [| tensor tensors IH];
    intros names added Hnames Hdistinct.
  - exists names, added.
    split; [reflexivity |]. split; [exact Hnames |].
    split; [exact Hdistinct |]. split; [| intros H; exact H].
    intros name. split.
    + intros Hin. now left.
    + intros [Hin | (tensor & [] & _)]. exact Hin.
  - cbn [fold_left]. unfold prepare_step at 2. cbv beta iota.
    destruct (TensorConn.isOptimizable tensor) eqn:Hopt.
    + destruct (existsb (String.eqb (TensorConn.getName tensor)) names)
        eqn:Hseen.
      * destruct (IH names added Hnames Hdistinct)
          as (names' & added' & Hrun & Hnames' & Hdistinct' & Hmem & Hder).
        exists names', added'.
        split; [exact Hrun |]. split; [exact Hnames' |].
        split; [exact Hdistinct' |]. split; [| exact Hder].
        intros name. split.
        -- intros Hin. apply Hmem in Hin as [Hin | (t0 & Ht0 & Ho & Hn)].
           ++ now left.
           ++ right. exists t0. repeat split; try assumption. now right.
        -- intros [Hin | (t0 & [<- | Ht0] & Ho & Hn)]; apply Hmem.
           ++ now left.
           ++ left. subst name. now apply existsb_eqb_name.
           ++ right. exists t0. repeat split; assumption.
      * destruct (IH (TensorConn.getName tensor :: names)
                    (added ++
                     [mk_env (TensorConn.getTensor tensor)
                        (Tensor.mk ("_g" ++ TensorConn.getName tensor)
                           (Tensor.extents_ (TensorConn.getTensor tensor))
                           VOID)
                        (Derivative lagrangian (TensorConn.getName tensor)
                           true)]))
          as (names' & added' & Hrun & Hnames' & Hdistinct' & Hmem & Hder).
        -- rewrite map_app, Hnames. reflexivity.
        -- constructor; [| exact Hdistinct].
           intros Hin. apply existsb_eqb_name in Hin. congruence.
        -- exists names', added'.
           split; [intros base; rewrite <- app_assoc; apply Hrun |].
           split; [exact Hnames' |].
           split; [exact Hdistinct' |]. split.
           ++ intros name. split.
              ** intros Hin.
                 apply Hmem in Hin as [[<- | Hin] | (t0 & Ht0 & Ho & Hn)].
                 --- right. exists tensor.
                     repeat split; [now left | exact Hopt].
                 --- now left.
                 --- right. exists t0. repeat split; try assumption.
                     now right.
              ** intros [Hin | (t0 & [<- | Ht0] & Ho & Hn)]; apply Hmem.
                 --- left. now right.
                 --- left. left. exact Hn.
                 --- right. exists t0. repeat split; assumption.
           ++ intros Hadded. apply Hder. apply Forall_app. split;
                [exact Hadded |].
              constructor; [reflexivity | constructor].
    + destruct (IH names added Hnames Hdistinct)
        as (names' & added' & Hrun & Hnames' & Hdistinct' & Hmem & Hder).
      exists names', added'.
      split; [exact Hrun |]. split; [exact Hnames' |].
      split; [exact Hdistinct' |]. split; [| exact Hder].
      intros name. split.
      * intros Hin. apply Hmem in Hin as [Hin | (t0 & Ht0 & Ho & Hn)].
        -- now left.
        -- right. exists t0. repeat split; try assumption. now right.
      * intros [Hin | (t0 & [<- | Ht0] & Ho & Hn)]; apply Hmem.
        -- now left.
        -- congruence.
        -- right. exists t0. repeat split; assumption.
Qed.

Lemma prepare_environments_added (approximant : TensorExpansion.t) :
  exists (names : list string) (added : list Environment),
    (forall environments : list Environment,
       prepare_environments lagrangian approximant environments
       = environments ++ added)
    /\ map environment_name added = rev names
    /\ List.NoDup names
    /\ (forall name : string,
          In name names
          <-> exists tensor : TensorConn.t,
                In tensor (tensors_of approximant)
                /\ TensorConn.isOptimizable tensor = true
                /\ TensorConn.getName tensor = name)
    /\ Forall
         (fun environment =>
            gradient_expansion environment
            = Derivative lagrangian (environment_name environment) true)
         added.
Proof.
  destruct (prepare_fold_inv (tensors_of approximant) [] []
              eq_refl (List.NoDup_nil _))
    as (names & added & Hrun & Hnames & Hdistinct & Hmem & Hder).
  exists names, added.
  split; [| split; [exact Hnames | split; [exact Hdistinct | split]]].
  - intros environments. rewrite prepare_environments_fold.
    specialize (Hrun environments). rewrite app_nil_r in Hrun.
    now rewrite Hrun.
  - intros name. rewrite Hmem. split.
    + intros [[] | H]. exact H.
    + intros H. now right.
  - apply Hder. constructor.
Qed.

End EnvironmentFacts.

(** X22. One derivative environment is prepared for each name of an optimizable
    tensor of the approximant, however many networks the tensor occurs in: the
    names of the environments are all different, they are the names of the
    optimizable tensors, and each environment holds the derivative of the
    Lagrangian with respect to the conjugated tensor of its name. *)
Theorem environments_once_per_name
    (lagrangian : Reconstructor.expansion)
    (approximant : TensorExpansion.t) :
  let environments :=
    Reconstructor.prepare_environments lagrangian approximant [] in
  List.NoDup (map environment_name environments)
  /\ (forall name : string,
        In name (map environment_name environments)
        <-> exists tensor : TensorConn.t,
              In tensor (tensors_of approximant)
              /\ TensorConn.isOptimizable tensor = true
              /\ TensorConn.getName tensor = name)
  /\ Forall
       (fun environment =>
          Reconstructor.gradient_expansion environment
          = Reconstructor.Derivative lagrangian
              (environment_name environment) true)
       environments.
Proof.
  destruct (prepare_environments_added lagrangian approximant)
    as (names & added & Hrun & Hnames & Hdistinct & Hmem & Hder).
  cbv zeta. rewrite (Hrun []). cbn [app]. rewrite Hnames.
  split; [| split; [| exact Hder]].
  - apply List.NoDup_rev, Hdistinct.
  - intros name. rewrite <- in_rev. apply Hmem.
Qed.

Section RunFacts.

Import Reconstructor.

Context (B : Backend).

Lemma reconstruct_environments
    (fuel : nat) (s s' : t) (w w' : World B) (flag : bool)
    (out : float * float) :
  reconstruct B fuel s w = Ok (flag, out, s', w') ->
  environments_ s'
  = prepare_environments (lagrangian s) (approximant_ s) (environments_ s).
Proof.
  intros Hrun. unfold reconstruct in Hrun. cbv zeta in Hrun.
  destruct (environments_ (with_environments s))
    as [| environment0 rest] eqn:Henv.
  - injection Hrun as <- <- <- <-. reflexivity.
  - apply bind_Ok in Hrun as (w1 & _ & Hrun).
    apply bind_Ok in Hrun as ([input_expansion_norm w2] & _ & Hrun).
    apply bind_Ok in Hrun as ([[r iteration] w3] & _ & Hrun).
    apply bind_Ok in Hrun as ([output_expansion_norm w4] & _ & Hrun).
    apply bind_Ok in Hrun as ([overlap_abs0 w5] & _ & Hrun).
    apply bind_Ok in Hrun as ([overlap_abs w6] & _ & Hrun).
    apply bind_Ok in Hrun as (w7 & _ & Hrun).
    injection Hrun as <- <- <- <-.
    cbn [environments_]. rewrite <- Henv. reflexivity.
Qed.

(** X23. [reconstruct] appends the environments it prepares to the ones the
    reconstructor holds and never removes any: after a second run on the same
    reconstructor every environment is there twice, so that every sweep of that
    run goes through each optimizable tensor twice. *)
Theorem environments_accumulate
    (fuel : nat) (s s' : t) (w w' : World B) (flag : bool)
    (out : float * float)
    (Hrun : reconstruct B fuel s w = Ok (flag, out, s', w')) :
  let fresh := prepare_environments (lagrangian s) (approximant_ s) [] in
  environments_ s' = environments_ s ++ fresh
  /\ (forall (fuel2 : nat) (s'' : t) (w'' : World B) (flag2 : bool)
             (out2 : float * float),
        reconstruct B fuel2 s' w' = Ok (flag2, out2, s'', w'') ->
        environments_ s'' = environments_ s ++ fresh ++ fresh).
Proof.
  cbv zeta.
  destruct (prepare_environments_added (lagrangian s) (approximant_ s))
    as (names & added & Hadd & _).
  pose proof (reconstruct_environments _ _ _ _ _ _ _ Hrun) as Henv.
  rewrite Hadd in Henv. rewrite (Hadd []). cbn [app].
  split; [exact Henv |].
  intros fuel2 s'' w'' flag2 out2 Hrun2.
  pose proof (reconstruct_environments _ _ _ _ _ _ _ Hrun2) as Henv2.
  destruct out as [residual_norm2 fidelity].
  apply reconstruct_stores_results in Hrun as (_ & _ & _ & Happ & Hexp).
  assert (Hlag : lagrangian s' = lagrangian s).
  { unfold lagrangian, normalization, overlap, approximant_ket.
    now rewrite Happ, Hexp. }
  rewrite Hlag, Happ, Hadd, Henv, <- app_assoc in Henv2. exact Henv2.
Qed.

(** X24. With no optimizable tensor in the approximant there is nothing to
    iterate on: [reconstruct] returns true at once, whatever the tolerance and
    the fuel, with the residual norm and the fidelity at 0.0 and without a call
    of the numerical server; [getSolution] has no solution afterwards. *)
Theorem reconstruct_nothing_to_optimize
    (fuel : nat) (s : t) (w : World B)
    (Hnone : Forall
               (fun tensor => TensorConn.isOptimizable tensor = false)
               (tensors_of (approximant_ s)))
    (Hfresh : environments_ s = []) :
  reconstruct B fuel s w
  = Ok (true, (0%float, 0%float), with_environments s, w)
  /\ environments_ (with_environments s) = []
  /\ forall out : float * float,
       getSolution (with_environments s) out = (None, out).
Proof.
  assert (Henv : environments_ (with_environments s) = []).
  { cbn [with_environments environments_]. rewrite Hfresh.
    destruct (prepare_environments_added (lagrangian s) (approximant_ s))
      as (names & added & Hadd & Hnames & _ & Hmem & _).
    rewrite (Hadd []). cbn [app].
    destruct names as [| name names].
    - destruct added; [reflexivity | discriminate].
    - destruct (proj1 (Hmem name) (or_introl eq_refl))
        as (tensor & Hin & Hopt & _).
      rewrite Forall_forall in Hnone.
      rewrite (Hnone tensor) in Hopt; [discriminate |].
      now apply list_elem_of_In. }
  split; [| split; [exact Henv |]].
  - unfold reconstruct. cbv zeta. rewrite Henv. reflexivity.
  - intros out. reflexivity.
Qed.

End RunFacts.

Lemma environments_accumulate_witness :
  length (Reconstructor.environments_ converged_state) = 1%nat
  /\ forall (s'' : Reconstructor.t) (w'' : ScalarServer.world) (flag2 : bool)
            (out2 : float * float),
       Reconstructor.reconstruct (ScalarServer.server 2 1) 3 converged_state
         converged_world = Ok (flag2, out2, s'', w'') ->
       length (Reconstructor.environments_ s'') = 2%nat.
Proof.
  assert (Hrun : Reconstructor.reconstruct (ScalarServer.server 2 1) 3
                   (ScalarServer.reconstructor 1000 0.5 0.25)
                   (ScalarServer.mk_world 1 0 0)
                 = Ok (true, (0.0625%float, 12.25%float), converged_state,
                       converged_world))
    by (vm_compute; reflexivity).
  pose proof
    (environments_accumulate (ScalarServer.server 2 1) 3
       (ScalarServer.reconstructor 1000 0.5 0.25) converged_state
       (ScalarServer.mk_world 1 0 0) converged_world true
       (0.0625%float, 12.25%float) Hrun) as [Hfirst Hsecond].
  split.
  - rewrite Hfirst. reflexivity.
  - intros s'' w'' flag2 out2 Hrun2.
    rewrite (Hsecond 3%nat s'' w'' flag2 out2 Hrun2). reflexivity.
Defined.

Lemma reconstruct_nothing_to_optimize_witness :
  Reconstructor.reconstruct stuck_server 0
    (Reconstructor.mk ScalarServer.target fixed_approximant 1000 0.5 0.125
       0 0 [])
    stuck_start
  = Ok (true, (0%float, 0%float),
        Reconstructor.mk ScalarServer.target fixed_approximant 1000 0.5 0.125
          0 0 [],
        stuck_start).
Proof.
  apply (reconstruct_nothing_to_optimize stuck_server 0
           (Reconstructor.mk ScalarServer.target fixed_approximant 1000 0.5
              0.125 0 0 [])
           stuck_start).
  - repeat constructor.
  - reflexivity.
Defined.

(** ** Element types: the two tables of each kind *)

(** X26. The function that takes the element type at run time and the template
    specialisations agree on every element type, for the size and for the
    operation factor; VOID, for which the switches have no case, gets 0 from
    both. Only VOID has the size 0; a complex type takes twice the bytes and
    four times the operations of the real type of its precision. *)
Theorem element_type_tables_agree :
  (forall element_type : TensorElementType,
     TensorElementTypeSize element_type
     = TensorElementTypeSize_constexpr element_type
     /\ tensorElementTypeOpFactor element_type
        = TensorElementTypeOpFactor_constexpr element_type
     /\ (TensorElementTypeSize element_type = 0 <-> element_type = VOID))
  /\ Forall
       (fun '(real, cmplx) =>
          TensorElementTypeSize cmplx = 2 * TensorElementTypeSize real
          /\ tensorElementTypeOpFactor cmplx
             = (4 * tensorElementTypeOpFactor real)%float)
       [(REAL16, COMPLEX16); (REAL32, COMPLEX32); (REAL64, COMPLEX64)].
Proof.
  split.
  - intros []; repeat split; try reflexivity; try discriminate.
  - repeat constructor.
Qed.

(** X27. The two type-level tables are inverse to each other on the four
    element types that have a C++ type; the half-precision types have none
    ([void]), and [void] and any other C++ type are of kind VOID. *)
Theorem element_type_of_data_type :
  (forall T : cxx_type,
     TensorDataType (TensorDataKind T)
     = match T with
       | cxx_other => cxx_void
       | _ => T
       end)
  /\ (forall element_type : TensorElementType,
        TensorDataKind (TensorDataType element_type)
        = match element_type with
          | REAL16 | COMPLEX16 => VOID
          | _ => element_type
          end).
Proof. split; intros []; reflexivity. Qed.

(** ** Quantum gates *)

(** X28. The data of the gates: each is a 2x2 matrix; I, X, Y, Z and S are
    unitary and I, X, Y and Z are their own inverses, entry by entry in
    binary64; the matrix stored for H is not scaled by 1/sqrt(2), its square is
    twice the identity. A gate without a case is an assertion failure, and the
    angles play no role. *)
Theorem gate_data :
  (forall (gate_name : Quantum.QuantumGate) (angles : list float),
     match gate_name with
     | Quantum.gate_other =>
         Quantum.getQuantumGateData gate_name angles = Err AssertionFailed
     | _ =>
         exists data : list complex,
           Quantum.getQuantumGateData gate_name angles = Ok data
           /\ Quantum.getQuantumGateData gate_name [] = Ok data
           /\ length data = 4%nat
     end)
  /\ Forall
       (fun data =>
          same_entries (matmul2 (dagger2 data) data) Quantum.GATE_I = true)
       [Quantum.GATE_I; Quantum.GATE_X; Quantum.GATE_Y; Quantum.GATE_Z;
        Quantum.GATE_S]
  /\ Forall
       (fun data => same_entries (matmul2 data data) Quantum.GATE_I = true)
       [Quantum.GATE_I; Quantum.GATE_X; Quantum.GATE_Y; Quantum.GATE_Z]
  /\ same_entries (matmul2 Quantum.GATE_H Quantum.GATE_H)
       (map (cmul (2%float, 0%float)) Quantum.GATE_I) = true
  /\ same_entries (matmul2 (dagger2 Quantum.GATE_H) Quantum.GATE_H)
       Quantum.GATE_I = false.
Proof.
  split; [| split; [| split; [| split]]].
  - intros [] angles; try reflexivity; eexists; repeat split.
  - repeat constructor; vm_compute; reflexivity.
  - repeat constructor; vm_compute; reflexivity.
  - vm_compute. reflexivity.
  - vm_compute. reflexivity.
Qed.

(** ** The METIS graph: clearing *)

(** [clear] brings any graph back to the graph the default constructor
    builds: no vertex, the one offset 0, no partitioning. *)
Theorem clear_resets (g : MetisGraph.t) :
  MetisGraph.clear g = MetisGraph.empty
  /\ well_formed (MetisGraph.clear g)
  /\ MetisGraph.getNumVertices (MetisGraph.clear g) = 0
  /\ MetisGraph.getNumPartitions (MetisGraph.clear g) = 0.
Proof.
  split; [reflexivity |].
  split; [| split; reflexivity].
  unfold well_formed, sizes_ok. repeat split; try reflexivity.
  concrete_monotone.
Qed.

(** ** The METIS graph: the graph of some partitions *)

Lemma monotone_snoc (xadj : list Z) (last y : Z) :
  monotone xadj -> xadj !! (length xadj - 1)%nat = Some last -> last <= y ->
  monotone (xadj ++ [y]).
Proof.
  intros Hmono Hlast Hle i j a b Hij Ha Hb.
  pose proof (lookup_lt_Some _ _ _ Hlast) as Hlen.
  destruct (Nat.lt_ge_cases j (length xadj)) as [Hj | Hj].
  - rewrite lookup_app_l in Ha, Hb by lia.
    exact (Hmono _ _ _ _ Hij Ha Hb).
  - pose proof (lookup_lt_Some _ _ _ Hb) as Hjlen.
    rewrite length_app in Hjlen. cbn [length] in Hjlen.
    assert (j = length xadj) as -> by lia.
    rewrite lookup_app_r, Nat.sub_diag in Hb by lia.
    injection Hb as <-.
    destruct (Nat.lt_ge_cases i (length xadj)) as [Hi | Hi].
    + rewrite lookup_app_l in Ha by lia.
      pose proof (Hmono i (length xadj - 1)%nat _ _ ltac:(lia) Ha Hlast).
      lia.
    + assert (i = length xadj) as -> by lia.
      rewrite lookup_app_r, Nat.sub_diag in Ha by lia.
      injection Ha as <-. lia.
Qed.

Section SubgraphFacts.

Import MetisGraph.

Context (requested : Z -> bool).

(** The edges of one vertex: what the inner loop keeps. *)
Lemma collect_edges_ok (parent : t) (n lo hi : Z)
    (adjncy adjwgt vwgt : list Z) :
  0 <= lo <= hi -> hi <= vsize (adjncy_ parent) ->
  vsize (adjwgt_ parent) = vsize (adjncy_ parent) ->
  Forall (fun a => 0 <= a < vsize (partitions_ parent)) (adjncy_ parent) ->
  0 <= n -> vsize vwgt = n + 1 -> vsize adjwgt = vsize adjncy ->
  Forall (fun a => 0 <= a < vsize (partitions_ parent)
                   /\ requested (nth (Z.to_nat a) (partitions_ parent) 0)
                      = true) adjncy ->
  exists (adjncy' adjwgt' vwgt' : list Z) (num_edges : Z),
    collect_edges requested parent n lo hi (adjncy, adjwgt, vwgt, 0)
    = Ok (adjncy', adjwgt', vwgt', num_edges)
    /\ 0 <= num_edges
    /\ vsize adjncy' = vsize adjncy + num_edges
    /\ vsize adjwgt' = vsize adjncy'
    /\ vsize vwgt' = n + 1
    /\ Forall (fun a => 0 <= a < vsize (partitions_ parent)
                        /\ requested (nth (Z.to_nat a) (partitions_ parent) 0)
                           = true) adjncy'.
Proof.
  intros Hlo Hhi Hsame Hadj Hn Hvw Hw Hin.
  unfold collect_edges.
  match goal with
  | |- context [for_up lo hi ?body ?s] =>
      destruct (for_up_invariant
                  (fun (_ : Z) '(A, W, VW, ne) =>
                     0 <= ne
                     /\ vsize A = vsize adjncy + ne
                     /\ vsize W = vsize A
                     /\ vsize VW = n + 1
                     /\ Forall
                          (fun a =>
                             0 <= a < vsize (partitions_ parent)
                             /\ requested
                                  (nth (Z.to_nat a) (partitions_ parent) 0)
                                = true) A)
                  body lo hi s)
        as ([[[A W] VW] ne] & Hrun & Hinv); [lia | | |]
  end.
  - repeat split; try lia; assumption.
  - intros e [[[A W] VW] ne] He (Hne & HA & HW & HVW & HinA).
    destruct (lookup_in_range (adjncy_ parent) e) as [a Ha]; [lia |].
    rewrite (vget_of_lookup _ e a ltac:(lia) Ha). cbn [bind].
    pose proof (proj1 (Forall_lookup _ _) Hadj _ _ Ha) as Har.
    cbv beta in Har.
    rewrite (vget_in_range (partitions_ parent) a) by lia. cbn [bind].
    destruct (vget_exists (adjwgt_ parent) e) as [w Hwe]; [lia |].
    destruct (requested (nth (Z.to_nat a) (partitions_ parent) 0)) eqn:Hreq.
    + rewrite Hwe. cbn [bind]. eexists. split; [reflexivity |].
      cbv beta iota. rewrite !vsize_app.
      change (vsize [a]) with 1. change (vsize [w]) with 1.
      repeat split; try lia.
      apply Forall_app. split; [exact HinA |].
      constructor; [| constructor]. split; [lia | exact Hreq].
    + rewrite Hwe. cbn [bind].
      destruct (vget_exists VW n) as [x Hx]; [lia |].
      rewrite Hx. cbn [bind].
      destruct (vset_exists VW n (x + (w - 1))) as (VW' & HVW' & Hlen);
        [lia |].
      rewrite HVW'. cbn [bind]. eexists. split; [reflexivity |].
      cbv beta iota. repeat split; try lia; assumption.
  - exists A, W, VW, ne. split; [exact Hrun |].
    destruct Hinv as (Hne & HA & HW & HVW & HinA).
    repeat split; try lia; assumption.
Qed.

Lemma filter_snoc (P : list Z) (k : nat) (p : Z) :
  P !! k = Some p ->
  length (List.filter requested (take (S k) P))
  = (length (List.filter requested (take k P))
     + if requested p then 1 else 0)%nat.
Proof.
  intros Hp. rewrite (take_S_r _ _ _ Hp), List.filter_app, length_app.
  cbn [List.filter]. destruct (requested p); reflexivity.
Qed.

(** The vertices of the requested partitions: what the outer loop keeps. *)
Lemma collect_vertices_ok (parent : t) :
  partitioned parent ->
  exists (m : gmap Z Z) (n : Z) (X A VW W : list Z),
    collect_vertices requested parent = Ok (m, n, X, A, VW, W)
    /\ n = Z.of_nat (length (List.filter requested (partitions_ parent)))
    /\ vsize X = n + 1 /\ vsize VW = n /\ vsize W = vsize A
    /\ X !! Z.to_nat n = Some (vsize A) /\ X !! 0%nat = Some 0
    /\ monotone X
    /\ Forall (fun a => exists c : Z, m !! a = Some c /\ 0 <= c < n) A.
Proof.
  intros (Hwf & Hparts & Hadj & Hren).
  pose proof Hwf as [(Hxs & Hsame & Hlast) (Hvw & Hzero & Hmono)].
  set (P := partitions_ parent) in *.
  assert (HadjP : Forall (fun a => 0 <= a < vsize P) (adjncy_ parent))
    by (rewrite Hparts; exact Hadj).
  unfold collect_vertices. fold P.
  pose (Inv := fun (k : Z)
                   (st : gmap Z Z * Z * list Z * list Z * list Z * list Z) =>
     let '(m, n, X, A, VW, W) := st in
     n = Z.of_nat (length (List.filter requested (take (Z.to_nat k) P)))
     /\ vsize X = n + 1 /\ vsize VW = n /\ vsize W = vsize A
     /\ X !! Z.to_nat n = Some (vsize A) /\ X !! 0%nat = Some 0
     /\ monotone X
     /\ (forall v c : Z, m !! v = Some c -> 0 <= v < k /\ 0 <= c < n)
     /\ (forall v : Z,
           0 <= v < k -> requested (nth (Z.to_nat v) P 0) = true ->
           is_Some (m !! v))
     /\ Forall (fun a => 0 <= a < vsize P
                         /\ requested (nth (Z.to_nat a) P 0) = true) A).
  match goal with
  | |- context [for_up 0 (vsize P) ?body ?s] =>
      destruct (for_up_invariant Inv body 0 (vsize P) s)
        as ([[[[[m n] X] A] VW] W] & Hrun & Hinv);
        [apply vsize_nonneg | | |]
  end.
  - (* before the loop *)
    unfold Inv.
    split; [reflexivity |]. split; [reflexivity |]. split; [reflexivity |].
    split; [reflexivity |]. split; [reflexivity |]. split; [reflexivity |].
    split; [| split; [| split; [| constructor]]].
    + intros i j x y Hij Hx Hy.
      destruct i, j; cbn in Hx, Hy; try discriminate.
      injection Hx as <-. injection Hy as <-. lia.
    + intros v c Hvc. rewrite lookup_empty in Hvc. discriminate.
    + intros v Hv. lia.
  - (* one vertex *)
    intros k [[[[[m n] X] A] VW] W] Hk
      (Hn & HX & HVW & HW & HXn & HX0 & HXm & Hm1 & Hm2 & HA).
    destruct (lookup_in_range P k) as [p Hp]; [lia |].
    rewrite (vget_of_lookup P k p ltac:(lia) Hp). cbn [bind].
    assert (Hnth : nth (Z.to_nat k) P 0 = p) by now apply nth_lookup_Some.
    assert (Hn0 : 0 <= n) by lia.
    pose proof (filter_snoc P (Z.to_nat k) p Hp) as Hcount.
    replace (S (Z.to_nat k)) with (Z.to_nat (k + 1)) in Hcount by lia.
    destruct (requested p) eqn:Hreq.
    + assert (Hnone : m !! k = None).
      { destruct (m !! k) as [c |] eqn:Hc; [| reflexivity].
        apply Hm1 in Hc. lia. }
      rewrite bool_decide_eq_true_2 by exact Hnone. cbn [assert bind].
      destruct (vget_exists (vwgt_ parent) k) as [w Hw]; [lia |].
      rewrite Hw. cbn [bind].
      destruct (edges_in_range parent k Hwf ltac:(lia))
        as (lo & hi & Hlo & Hhi & Hr & Hend).
      rewrite Hlo, Hhi. cbn [bind].
      destruct (collect_edges_ok parent n lo hi A W (VW ++ [w]))
        as (A' & W' & VW' & ne & Hedges & Hne & HA' & HW' & HVW' & HinA');
        try assumption; try lia.
      { rewrite vsize_app. change (vsize [w]) with 1. lia. }
      fold P in Hedges. rewrite Hedges. cbn [bind].
      rewrite (vget_of_lookup X n (vsize A) ltac:(lia) HXn). cbn [bind].
      eexists. split; [reflexivity |]. unfold Inv.
      split; [lia |]. rewrite vsize_app. change (vsize [_]) with 1.
      split; [lia |]. split; [lia |]. split; [lia |].
      split; [| split; [| split; [| split; [| split]]]].
      * replace (Z.to_nat (n + 1)) with (length X)
          by (unfold vsize in HX; lia).
        rewrite lookup_app_r, Nat.sub_diag by lia. cbn. f_equal. lia.
      * rewrite lookup_app_l by (unfold vsize in HX; lia). exact HX0.
      * apply (monotone_snoc X (vsize A)); [exact HXm | | lia].
        replace (length X - 1)%nat with (Z.to_nat n)
          by (unfold vsize in HX; lia).
        exact HXn.
      * intros v c Hvc.
        destruct (Z.eq_dec v k) as [-> | Hne'].
        -- rewrite lookup_insert_eq in Hvc. injection Hvc as <-. lia.
        -- rewrite lookup_insert_ne in Hvc by congruence.
           apply Hm1 in Hvc. lia.
      * intros v Hv Hrv.
        destruct (Z.eq_dec v k) as [-> | Hne'].
        -- rewrite lookup_insert_eq. eauto.
        -- rewrite lookup_insert_ne by congruence. apply Hm2; [lia | exact Hrv].
      * exact HinA'.
    + eexists. split; [reflexivity |]. unfold Inv.
      split; [lia |]. split; [lia |]. split; [lia |]. split; [lia |].
      split; [exact HXn |]. split; [exact HX0 |]. split; [exact HXm |].
      split; [| split; [| exact HA]].
      * intros v c Hvc. apply Hm1 in Hvc. lia.
      * intros v Hv Hrv.
        destruct (Z.eq_dec v k) as [-> | Hne']; [congruence |].
        apply Hm2; [lia | exact Hrv].
  - (* after the loop *)
    destruct Hinv as (Hn & HX & HVW & HW & HXn & HX0 & HXm & Hm1 & Hm2 & HA).
    exists m, n, X, A, VW, W. split; [exact Hrun |].
    unfold vsize in Hn at 1. rewrite Nat2Z.id, firstn_all in Hn.
    repeat split; try assumption.
    rewrite Forall_forall in HA |- *. intros a Ha.
    destruct (HA a Ha) as [Har Hreq].
    destruct (Hm2 a Har Hreq) as [c Hc].
    exists c. split; [exact Hc |]. apply Hm1 in Hc. lia.
Qed.

Lemma collect_renumber_ok (parent : t) :
  vsize (renumber_ parent) <= vsize (partitions_ parent) ->
  collect_renumber requested parent = Ok (requested_ids requested parent).
Proof.
  intros Hlen. unfold collect_renumber, requested_ids.
  set (P := partitions_ parent) in *. set (R := renumber_ parent) in *.
  match goal with
  | |- for_up 0 (vsize R) ?body ?s = _ =>
      destruct (for_up_invariant
                  (fun (k : Z) (renumber : list Z) =>
                     renumber
                     = map snd
                         (List.filter (fun pr => requested (fst pr))
                            (take (Z.to_nat k) (combine P R))))
                  body 0 (vsize R) s) as (renumber & Hrun & ->);
        [apply vsize_nonneg | reflexivity | |]
  end.
  - intros k renumber Hk ->.
    destruct (lookup_in_range P k) as [p Hp]; [lia |].
    destruct (lookup_in_range R k) as [r Hr]; [lia |].
    rewrite (vget_of_lookup P k p ltac:(lia) Hp). cbn [bind].
    assert (Hpr : combine P R !! Z.to_nat k = Some (p, r)).
    { change (combine P R) with (zip P R).
      rewrite lookup_zip_with, Hp, Hr. reflexivity. }
    replace (Z.to_nat (k + 1)) with (S (Z.to_nat k)) by lia.
    rewrite (take_S_r _ _ _ Hpr), List.filter_app, map_app.
    cbn [List.filter fst]. destruct (requested p).
    + rewrite (vget_of_lookup R k r ltac:(lia) Hr). cbn [bind].
      eexists. split; reflexivity.
    + eexists. split; [reflexivity |]. cbn [map]. now rewrite app_nil_r.
  - rewrite Hrun. do 3 f_equal. apply take_ge.
    rewrite length_combine. unfold vsize in *. lia.
Qed.

(** The graph of the requested partitions, in full. *)
Lemma subgraph_ok (parent : t) (Hparent : partitioned parent) :
  exists child : t,
    subgraph requested parent = Ok child
    /\ well_formed child
    /\ num_vertices_ child
       = Z.of_nat (length (List.filter requested (partitions_ parent)))
    /\ Forall (fun a => 0 <= a < num_vertices_ child) (adjncy_ child)
    /\ renumber_ child = requested_ids requested parent
    /\ (partitions_ child, part_weights_ child, num_parts_ child)
       = ([], [], 0).
Proof.
  destruct (collect_vertices_ok parent Hparent)
    as (m & n & X & A & VW & W & Hrun & Hn & HX & HVW & HW & HXn & HX0
        & HXm & HA).
  destruct Hparent as (Hwf & Hparts & Hadj & Hren).
  unfold subgraph. rewrite Hrun. cbn [bind].
  rewrite collect_renumber_ok by lia. cbn [bind].
  eexists. split; [reflexivity |].
  cbn [num_vertices_ xadj_ adjncy_ vwgt_ adjwgt_ renumber_ partitions_
       part_weights_ num_parts_].
  assert (Hsize : vsize (renumber_ids m A) = vsize A)
    by (unfold renumber_ids, vsize; now rewrite length_map).
  split; [| split; [exact Hn | split; [| split; reflexivity]]].
  - unfold well_formed, sizes_ok.
    cbn [num_vertices_ xadj_ adjncy_ vwgt_ adjwgt_]. rewrite Hsize.
    repeat split; try assumption; try lia.
    + apply vget_of_lookup; [lia | exact HXn].
    + apply vget_of_lookup; [lia | exact HX0].
  - unfold renumber_ids. rewrite Forall_forall in HA.
    apply Forall_forall. intros c Hc.
    apply list_elem_of_fmap in Hc as (a & -> & Ha).
    destruct (HA a Ha) as (c & -> & Hrange). exact Hrange.
Qed.

End SubgraphFacts.

Lemma iter_up_ext {St : Type} (body1 body2 : Z -> St -> res St) (n : nat) :
  (forall (k : Z) (s : St), body1 k s = body2 k s) ->
  forall (i : Z) (s : St), iter_up n i body1 s = iter_up n i body2 s.
Proof.
  intros Hext. induction n as [| n IH]; intros i s; [reflexivity |].
  cbn [iter_up]. rewrite Hext. destruct (body2 i s); [apply IH | reflexivity].
Qed.

Lemma for_up_ext {St : Type} (body1 body2 : Z -> St -> res St) (lo hi : Z)
    (s : St) :
  (forall (k : Z) (s0 : St), body1 k s0 = body2 k s0) ->
  for_up lo hi body1 s = for_up lo hi body2 s.
Proof. intros Hext. unfold for_up. now apply iter_up_ext. Qed.

(** Only the values of the test matter. *)
Lemma subgraph_ext (requested1 requested2 : Z -> bool)
    (parent : MetisGraph.t) :
  (forall p : Z, requested1 p = requested2 p) ->
  MetisGraph.subgraph requested1 parent
  = MetisGraph.subgraph requested2 parent.
Proof.
  intros Hext.
  assert (Hedges : forall n lo hi st,
             MetisGraph.collect_edges requested1 parent n lo hi st
             = MetisGraph.collect_edges requested2 parent n lo hi st).
  { intros n lo hi st. unfold MetisGraph.collect_edges.
    apply for_up_ext. intros edge [[[A W] VW] ne].
    destruct (vget (MetisGraph.adjncy_ parent) edge) as [a |];
      cbn [bind]; [| reflexivity].
    destruct (vget (MetisGraph.partitions_ parent) a) as [p |];
      cbn [bind]; [| reflexivity].
    now rewrite Hext. }
  unfold MetisGraph.subgraph.
  replace (MetisGraph.collect_vertices requested1 parent)
    with (MetisGraph.collect_vertices requested2 parent).
  2:{ unfold MetisGraph.collect_vertices. apply for_up_ext.
      intros vert [[[[[m n] X] A] VW] W].
      destruct (vget (MetisGraph.partitions_ parent) vert) as [p |];
        cbn [bind]; [| reflexivity].
      rewrite Hext. destruct (requested2 p); [| reflexivity].
      destruct (assert _); cbn [bind]; [| reflexivity].
      destruct (vget (MetisGraph.vwgt_ parent) vert); cbn [bind];
        [| reflexivity].
      destruct (vget (MetisGraph.xadj_ parent) vert); cbn [bind];
        [| reflexivity].
      destruct (vget (MetisGraph.xadj_ parent) (vert + 1)); cbn [bind];
        [| reflexivity].
      now rewrite Hedges. }
  replace (MetisGraph.collect_renumber requested1 parent)
    with (MetisGraph.collect_renumber requested2 parent); [reflexivity |].
  unfold MetisGraph.collect_renumber. apply for_up_ext.
  intros vert renumber.
  destruct (vget (MetisGraph.partitions_ parent) vert) as [p |];
    cbn [bind]; [| reflexivity].
  now rewrite Hext.
Qed.

(** X11. The constructor from one partition is the constructor from a list with
    that partition alone when the partition is below the number of parts of the
    parent; otherwise it is an assertion failure. *)
Theorem of_partition_is_of_partitions
    (parent : MetisGraph.t) (partition : Z) :
  (partition < MetisGraph.to_size_t (MetisGraph.num_parts_ parent) ->
   MetisGraph.of_partition parent partition
   = MetisGraph.of_partitions parent [partition])
  /\ (MetisGraph.to_size_t (MetisGraph.num_parts_ parent) <= partition ->
      MetisGraph.of_partition parent partition = Err AssertionFailed).
Proof.
  unfold MetisGraph.of_partition, MetisGraph.of_partitions. split.
  - intros Hlt. apply Z.ltb_lt in Hlt. rewrite Hlt.
    apply subgraph_ext. intros p. cbn [existsb].
    rewrite orb_false_r. apply Z.eqb_sym.
  - intros Hge. apply Z.ltb_ge in Hge. now rewrite Hge.
Qed.

Lemma partitioned_partitioned_triangle : partitioned partitioned_triangle.
Proof.
  split; [| split; [reflexivity | split; [| unfold vsize; simpl; lia]]].
  - unfold well_formed, sizes_ok. repeat split; try reflexivity.
    concrete_monotone.
  - repeat constructor; simpl; lia.
Qed.

(** ** The METIS graph: partitioning *)

Lemma partition_weight_snoc (partitions vwgt : list Z) (k : nat) (q w p : Z) :
  partitions !! k = Some q -> vwgt !! k = Some w ->
  partition_weight (take (S k) partitions) (take (S k) vwgt) p
  = partition_weight (take k partitions) (take k vwgt) p
    + (if q =? p then w else 0).
Proof.
  intros Hq Hw. unfold partition_weight.
  rewrite <- !combine_firstn.
  assert (Hqw : combine partitions vwgt !! k = Some (q, w)).
  { change (combine partitions vwgt) with (zip partitions vwgt).
    rewrite lookup_zip_with, Hq, Hw. reflexivity. }
  change (firstn ?n ?l) with (take n l).
  rewrite (take_S_r _ _ _ Hqw), List.filter_app, map_app, total_app.
  cbn [List.filter fst]. destruct (q =? p); cbn; lia.
Qed.

Lemma count_cross_edges_ok (g : MetisGraph.t) (partitions : list Z)
    (vert partition c : Z) :
  well_formed g -> 0 <= vert < MetisGraph.num_vertices_ g ->
  Forall (fun a => 0 <= a < vsize partitions) (MetisGraph.adjncy_ g) ->
  MetisGraph.count_cross_edges g partitions vert partition c
  = Ok (c + crossing partitions partition (adjacency g vert)).
Proof.
  intros Hwf Hv Hadj.
  destruct (edges_in_range g vert Hwf Hv) as (lo & hi & Hlo & Hhi & Hr & Hend).
  unfold MetisGraph.count_cross_edges. rewrite Hlo, Hhi. cbn [bind].
  assert (Hadjacency : adjacency g vert
                       = take (Z.to_nat (hi - lo))
                           (drop (Z.to_nat lo) (MetisGraph.adjncy_ g))).
  { unfold adjacency, offset_of.
    apply vget_Ok in Hlo as [_ ->]. apply vget_Ok in Hhi as [_ ->].
    reflexivity. }
  rewrite Hadjacency.
  match goal with
  | |- for_up lo hi ?body ?s = _ =>
      destruct (for_up_invariant
                  (fun (e : Z) (count : Z) =>
                     count
                     = c + crossing partitions partition
                             (take (Z.to_nat (e - lo))
                                (drop (Z.to_nat lo) (MetisGraph.adjncy_ g))))
                  body lo hi s) as (count & Hrun & ->); [lia | | |]
  end.
  - rewrite Z.sub_diag. change (Z.to_nat 0) with 0%nat. rewrite take_0.
    unfold crossing. cbn [List.filter length]. lia.
  - intros e count He ->.
    destruct (lookup_in_range (MetisGraph.adjncy_ g) e) as [a Ha]; [lia |].
    rewrite (vget_of_lookup _ e a ltac:(lia) Ha). cbn [bind].
    pose proof (proj1 (Forall_lookup _ _) Hadj _ _ Ha) as Har.
    cbv beta in Har.
    rewrite (vget_in_range partitions a) by lia. cbn [bind].
    eexists. split; [reflexivity |].
    replace (Z.to_nat (e + 1 - lo)) with (S (Z.to_nat (e - lo))) by lia.
    assert (Hdrop : drop (Z.to_nat lo) (MetisGraph.adjncy_ g)
                      !! Z.to_nat (e - lo) = Some a).
    { rewrite lookup_drop.
      replace (Z.to_nat lo + Z.to_nat (e - lo))%nat with (Z.to_nat e) by lia.
      exact Ha. }
    rewrite (take_S_r _ _ _ Hdrop). unfold crossing.
    rewrite List.filter_app, length_app. cbn [List.filter].
    destruct (negb (nth (Z.to_nat a) partitions 0 =? partition)); cbn; lia.
  - exact Hrun.
Qed.

Lemma total_replicate_zero (n : nat) : total (replicate n 0) = 0.
Proof. induction n as [| n IH]; [reflexivity |]. cbn. exact IH. Qed.

Lemma halve_even (c : Z) :
  0 <= c ->
  MetisGraph.halve c
  = if Z.even c then Ok (c / 2) else Err AssertionFailed.
Proof.
  intros Hc. unfold MetisGraph.halve.
  rewrite Z.rem_mod_nonneg by lia. rewrite Zeven_mod.
  destruct (c mod 2 =? 0); cbn [assert bind]; [| reflexivity].
  now rewrite Z.quot_div_nonneg by lia.
Qed.

Section PartitioningFacts.

Import MetisGraph.

Context (sizeof_idx_t : nat) (METIS_PartGraphKway : metis_partitioner).

(** The loop over the vertices after METIS has returned. *)
Lemma weigh_partitions (g : t) (parts : list Z) (np : Z) :
  well_formed g ->
  Forall (fun a => 0 <= a < num_vertices_ g) (adjncy_ g) ->
  vsize parts = num_vertices_ g ->
  Forall (fun p => 0 <= p < np) parts ->
  exists part_weights : list Z,
    for_up 0 (num_vertices_ g)
      (fun vert '(part_weights, num_cross_edges) =>
         do partition <- vget parts vert;;
         do w <- vget (vwgt_ g) vert;;
         do x <- vget part_weights partition;;
         do part_weights <- vset part_weights partition (x + w);;
         do num_cross_edges <-
           count_cross_edges g parts vert partition num_cross_edges;;
         Ok (part_weights, num_cross_edges))
      (replicate (Z.to_nat np) 0, 0)
    = Ok (part_weights, cross_ends g parts)
    /\ vsize part_weights = Z.max 0 np
    /\ (forall p : Z,
          0 <= p < np ->
          part_weights !! Z.to_nat p
          = Some (partition_weight parts (vwgt_ g) p))
    /\ total part_weights = total (vwgt_ g).
Proof.
  intros Hwf Hadj Hlen Hrange.
  pose proof Hwf as [(Hxs & Hsame & Hlast) (Hvw & Hzero & Hmono)].
  assert (Hnv : 0 <= num_vertices_ g) by (pose proof (vsize_nonneg parts); lia).
  set (VW := vwgt_ g) in *.
  match goal with
  | |- context [for_up 0 (num_vertices_ g) ?body ?s] =>
      destruct (for_up_invariant
                  (fun (k : Z) '(pw, c) =>
                     vsize pw = Z.max 0 np
                     /\ (forall p : Z,
                           0 <= p < np ->
                           pw !! Z.to_nat p
                           = Some (partition_weight
                                     (take (Z.to_nat k) parts)
                                     (take (Z.to_nat k) VW) p))
                     /\ total pw = total (take (Z.to_nat k) VW)
                     /\ c = total
                              (map (fun v =>
                                      crossing parts
                                        (nth (Z.to_nat v) parts 0)
                                        (adjacency g v))
                                 (seqZ 0 k)))
                  body 0 (num_vertices_ g) s)
        as ([pw c] & Hrun & Hinv); [lia | | |]
  end.
  - split; [unfold vsize; rewrite length_replicate; lia |].
    split; [| split; [apply total_replicate_zero | reflexivity]].
    intros p Hp. now rewrite lookup_replicate_2 by lia.
  - intros k [pw c] Hk (Hsize & Hpw & Htotal & Hc).
    destruct (lookup_in_range parts k) as [q Hq]; [lia |].
    destruct (lookup_in_range VW k) as [w Hw]; [lia |].
    rewrite (vget_of_lookup parts k q ltac:(lia) Hq). cbn [bind].
    rewrite (vget_of_lookup VW k w ltac:(lia) Hw). cbn [bind].
    pose proof (proj1 (Forall_lookup _ _) Hrange _ _ Hq) as Hqr.
    cbv beta in Hqr.
    rewrite (vget_of_lookup pw q _ ltac:(lia) (Hpw q Hqr)). cbn [bind].
    rewrite vset_in_range by lia. cbn [bind].
    rewrite count_cross_edges_ok; [| exact Hwf | lia |].
    2:{ rewrite Hlen. exact Hadj. }
    cbn [bind]. eexists. split; [reflexivity |]. cbv beta iota.
    replace (Z.to_nat (k + 1)) with (S (Z.to_nat k)) by lia.
    split; [rewrite vsize_insert; exact Hsize |].
    split; [| split].
    + intros p Hp. rewrite (partition_weight_snoc _ _ _ q w p Hq Hw).
      destruct (Z.eqb_spec q p) as [-> | Hne].
      * rewrite list_lookup_insert_eq by (unfold vsize in Hsize; lia).
        reflexivity.
      * rewrite list_lookup_insert_ne by lia.
        rewrite (Hpw p Hp). f_equal. lia.
    + rewrite (total_insert _ _ _ _ (Hpw q Hqr)), Htotal.
      rewrite (take_S_r _ _ _ Hw), total_app. cbn. lia.
    + replace (k + 1) with (Z.of_nat (S (Z.to_nat k))) by lia.
      rewrite seqZ_S, map_app, total_app. cbn [map].
      rewrite Z2Nat.id by lia. rewrite <- Hc. cbn.
      rewrite Z.add_0_l, (nth_lookup_Some _ _ _ _ Hq). lia.
  - destruct Hinv as (Hsize & Hpw & Htotal & Hc).
    exists pw. rewrite Hrun.
    assert (Hall : Z.to_nat (num_vertices_ g) = length parts)
      by (unfold vsize in Hlen; lia).
    assert (Hall' : Z.to_nat (num_vertices_ g) = length VW)
      by (unfold vsize in Hvw; lia).
    split; [now rewrite Hc |]. split; [exact Hsize |]. split.
    + intros p Hp. rewrite (Hpw p Hp).
      rewrite Hall at 1. rewrite Hall'. now rewrite !firstn_all.
    + rewrite Htotal, Hall'. now rewrite firstn_all.
Qed.

Lemma cross_ends_nonneg (g : t) (parts : list Z) : 0 <= cross_ends g parts.
Proof.
  unfold cross_ends.
  induction (seqZ 0 (num_vertices_ g)) as [| v vs IH]; [reflexivity |].
  cbn [map]. rewrite total_cons. unfold crossing at 1. lia.
Qed.

(** The one-level partitioning, when METIS succeeds. *)
Lemma partitionGraph_ok
    (g : t) (num_parts : Z) (imbalance : float) (edge_cut : Z)
    (parts : list Z)
    (Hwf : well_formed g)
    (Hadj : Forall (fun a => 0 <= a < num_vertices_ g) (adjncy_ g))
    (Hnv : 0 < num_vertices_ g < 2 ^ 64)
    (Hnp : 0 < num_parts)
    (Hfit : to_idx_t sizeof_idx_t num_parts = num_parts)
    (Himb : (1 <=? imbalance)%float = true)
    (Hmetis : METIS_PartGraphKway (num_vertices_ g) 1 (xadj_ g) (adjncy_ g)
                (vwgt_ g) (adjwgt_ g) (Z.min num_parts (num_vertices_ g))
                imbalance
                (resize (if 0 <? num_parts_ g then [] else partitions_ g)
                   (num_vertices_ g))
              = (METIS_OK, edge_cut, parts))
    (Hlen : vsize parts = num_vertices_ g)
    (Hrange : Forall
                (fun p => 0 <= p < Z.min num_parts (num_vertices_ g))
                parts) :
  exists part_weights : list Z,
    partitionGraph sizeof_idx_t METIS_PartGraphKway g num_parts imbalance
    = (if Z.even (cross_ends g parts)
       then Ok (true,
                mk (num_vertices_ g) (renumber_ g) (xadj_ g) (adjncy_ g)
                   (vwgt_ g) (adjwgt_ g) parts part_weights edge_cut
                   (cross_ends g parts / 2)
                   (Z.min num_parts (num_vertices_ g)))
       else Err AssertionFailed)
    /\ vsize part_weights = Z.min num_parts (num_vertices_ g)
    /\ (forall p : Z,
          0 <= p < Z.min num_parts (num_vertices_ g) ->
          part_weights !! Z.to_nat p
          = Some (partition_weight parts (vwgt_ g) p))
    /\ total part_weights = total (vwgt_ g).
Proof.
  destruct (weigh_partitions g parts (Z.min num_parts (num_vertices_ g))
              Hwf Hadj Hlen Hrange)
    as (part_weights & Hloop & Hsize & Hweights & Htotal).
  exists part_weights.
  split; [| split; [lia | split; assumption]].
  unfold partitionGraph.
  replace (0 <? num_vertices_ g) with true by (symmetry; apply Z.ltb_lt; lia).
  replace (0 <? num_parts) with true by (symmetry; apply Z.ltb_lt; lia).
  rewrite Himb. cbn [assert bind]. cbv zeta. rewrite Hfit.
  set (g0 := if 0 <? num_parts_ g then clearPartitions g else g).
  assert (Hg0 : (num_vertices_ g0, renumber_ g0, xadj_ g0, adjncy_ g0,
                 vwgt_ g0, adjwgt_ g0)
                = (num_vertices_ g, renumber_ g, xadj_ g, adjncy_ g, vwgt_ g,
                   adjwgt_ g)
                /\ partitions_ g0
                   = (if 0 <? num_parts_ g then [] else partitions_ g)).
  { subst g0. destruct (0 <? num_parts_ g); split; reflexivity. }
  destruct Hg0 as [Hsame Hparts0].
  injection Hsame as Hnv0 Hren0 Hx0 Ha0 Hvw0 Hw0.
  rewrite Hnv0, Hren0, Hx0, Ha0, Hvw0, Hw0, Hparts0.
  unfold to_size_t. rewrite (Z.mod_small (num_vertices_ g)) by lia.
  rewrite Hmetis. cbn [is_ok].
  unfold assign_zero.
  replace (0 <=? Z.min num_parts (num_vertices_ g)) with true
    by (symmetry; apply Z.leb_le; lia).
  cbn [bind].
  assert (Hbody : forall vert st,
             (let '(part_weights, num_cross_edges) := st in
              do partition <- vget parts vert;;
              do w <- vget (vwgt_ g) vert;;
              do x <- vget part_weights partition;;
              do part_weights <- vset part_weights partition (x + w);;
              do num_cross_edges <-
                count_cross_edges g0 parts vert partition num_cross_edges;;
              Ok (part_weights, num_cross_edges))
             = (let '(part_weights, num_cross_edges) := st in
                do partition <- vget parts vert;;
                do w <- vget (vwgt_ g) vert;;
                do x <- vget part_weights partition;;
                do part_weights <- vset part_weights partition (x + w);;
                do num_cross_edges <-
                  count_cross_edges g parts vert partition num_cross_edges;;
                Ok (part_weights, num_cross_edges))).
  { intros vert [pw c]. unfold count_cross_edges.
    now rewrite Hx0, Ha0. }
  rewrite (for_up_ext _ _ _ _ _ Hbody), Hloop. cbn [bind].
  rewrite halve_even by apply cross_ends_nonneg.
  destruct (Z.even (cross_ends g parts)); reflexivity.
Qed.

(** X12. [partitionGraph(num_parts,imbalance)] when METIS succeeds and gives
    every vertex a partition below the number of parts: the graph itself stays,
    the partitions are those of METIS, there is one weight for each part, the
    sum of the weights of the vertices in it, so that the part weights add up
    to the vertex weights; the number of parts is the smaller of the number
    asked for and the number of vertices. The cross edges are counted from both
    ends: an odd count is an assertion failure, an even one is halved. *)
Theorem partitionGraph_weighs_partitions
    (g : t) (num_parts : Z) (imbalance : float) (edge_cut : Z)
    (parts : list Z)
    (Hwf : well_formed g)
    (Hadj : Forall (fun a => 0 <= a < num_vertices_ g) (adjncy_ g))
    (Hnv : 0 < num_vertices_ g < 2 ^ 64)
    (Hnp : 0 < num_parts)
    (Hfit : to_idx_t sizeof_idx_t num_parts = num_parts)
    (Himb : (1 <=? imbalance)%float = true)
    (Hmetis : METIS_PartGraphKway (num_vertices_ g) 1 (xadj_ g) (adjncy_ g)
                (vwgt_ g) (adjwgt_ g) (Z.min num_parts (num_vertices_ g))
                imbalance
                (resize (if 0 <? num_parts_ g then [] else partitions_ g)
                   (num_vertices_ g))
              = (METIS_OK, edge_cut, parts))
    (Hlen : vsize parts = num_vertices_ g)
    (Hrange : Forall
                (fun p => 0 <= p < Z.min num_parts (num_vertices_ g))
                parts) :
  exists part_weights : list Z,
    partitionGraph sizeof_idx_t METIS_PartGraphKway g num_parts imbalance
    = (if Z.even (cross_ends g parts)
       then Ok (true,
                mk (num_vertices_ g) (renumber_ g) (xadj_ g) (adjncy_ g)
                   (vwgt_ g) (adjwgt_ g) parts part_weights edge_cut
                   (cross_ends g parts / 2)
                   (Z.min num_parts (num_vertices_ g)))
       else Err AssertionFailed)
    /\ vsize part_weights = Z.min num_parts (num_vertices_ g)
    /\ (forall p : Z,
          0 <= p < Z.min num_parts (num_vertices_ g) ->
          part_weights !! Z.to_nat p
          = Some (partition_weight parts (vwgt_ g) p))
    /\ total part_weights = total (vwgt_ g).
Proof.
  exact (partitionGraph_ok g num_parts imbalance edge_cut parts Hwf Hadj Hnv
           Hnp Hfit Himb Hmetis Hlen Hrange).
Qed.

(** X13. When METIS fails, [partitionGraph] returns false; the graph is left
    with the number of parts that was asked for (at most the number of
    vertices), with the partition array as METIS left it and with no cross
    edges. *)
Theorem partitionGraph_failure
    (g : t) (num_parts : Z) (imbalance : float) (errc : rstatus_et)
    (edge_cut : Z) (parts : list Z)
    (Hnv : 0 < num_vertices_ g < 2 ^ 64)
    (Hnp : 0 < num_parts)
    (Hfit : to_idx_t sizeof_idx_t num_parts = num_parts)
    (Himb : (1 <=? imbalance)%float = true)
    (Hmetis : METIS_PartGraphKway (num_vertices_ g) 1 (xadj_ g) (adjncy_ g)
                (vwgt_ g) (adjwgt_ g) (Z.min num_parts (num_vertices_ g))
                imbalance
                (resize (if 0 <? num_parts_ g then [] else partitions_ g)
                   (num_vertices_ g))
              = (errc, edge_cut, parts))
    (Herr : errc <> METIS_OK) :
  exists g' : t,
    partitionGraph sizeof_idx_t METIS_PartGraphKway g num_parts imbalance
    = Ok (false, g')
    /\ getNumPartitions g' = Z.min num_parts (num_vertices_ g)
    /\ 0 < getNumPartitions g'
    /\ partitions_ g' = parts
    /\ num_cross_edges_ g' = 0
    /\ part_weights_ g'
       = (if 0 <? num_parts_ g then [] else part_weights_ g).
Proof.
  unfold partitionGraph.
  replace (0 <? num_vertices_ g) with true by (symmetry; apply Z.ltb_lt; lia).
  replace (0 <? num_parts) with true by (symmetry; apply Z.ltb_lt; lia).
  rewrite Himb. cbn [assert bind]. cbv zeta. rewrite Hfit.
  set (g0 := if 0 <? num_parts_ g then clearPartitions g else g).
  assert (Hg0 : (num_vertices_ g0, renumber_ g0, xadj_ g0, adjncy_ g0,
                 vwgt_ g0, adjwgt_ g0)
                = (num_vertices_ g, renumber_ g, xadj_ g, adjncy_ g, vwgt_ g,
                   adjwgt_ g)
                /\ partitions_ g0
                   = (if 0 <? num_parts_ g then [] else partitions_ g)
                /\ part_weights_ g0
                   = (if 0 <? num_parts_ g then [] else part_weights_ g)).
  { subst g0. destruct (0 <? num_parts_ g); repeat split. }
  destruct Hg0 as (Hsame & Hparts0 & Hpw0).
  injection Hsame as Hnv0 Hren0 Hx0 Ha0 Hvw0 Hw0.
  rewrite Hnv0, Hren0, Hx0, Ha0, Hvw0, Hw0, Hparts0, Hpw0.
  unfold to_size_t. rewrite (Z.mod_small (num_vertices_ g)) by lia.
  rewrite Hmetis.
  assert (Hfail : is_ok errc = false)
    by (destruct errc; [exfalso; apply Herr |..]; reflexivity).
  rewrite Hfail.
  eexists. split; [reflexivity |].
  unfold getNumPartitions, to_size_t. cbn [num_parts_ partitions_
    num_cross_edges_ part_weights_].
  rewrite Z.mod_small by lia.
  repeat split. lia.
Qed.

End PartitioningFacts.

Lemma partitionGraph_weighs_partitions_witness :
  exists part_weights : list Z,
    MetisGraph.partitionGraph 8 splitting_partitioner
      (MetisGraph.clearPartitions partitioned_triangle) 2 1.5
    = Ok (true, partitioned_triangle)
    /\ part_weights = [4; 2]
    /\ total part_weights = 6.
Proof.
  destruct (partitionGraph_weighs_partitions 8 splitting_partitioner
              (MetisGraph.clearPartitions partitioned_triangle) 2 1.5 12
              [0; 0; 1])
    as (part_weights & Hrun & Hsize & Hweights & Htotal).
  - unfold well_formed, sizes_ok. repeat split; try reflexivity.
    concrete_monotone.
  - repeat constructor; simpl; lia.
  - simpl. lia.
  - lia.
  - reflexivity.
  - reflexivity.
  - reflexivity.
  - reflexivity.
  - repeat constructor; simpl; lia.
  - exists part_weights.
    assert (H0 : part_weights !! 0%nat = Some 4)
      by (apply (Hweights 0); simpl; lia).
    assert (H1 : part_weights !! 1%nat = Some 2)
      by (apply (Hweights 1); simpl; lia).
    assert (Hpw : part_weights = [4; 2]).
    { destruct part_weights as [| a [| b [| c pw]]];
        try (unfold vsize in Hsize; simpl in Hsize; lia).
      cbn in H0, H1. congruence. }
    split; [| split; [exact Hpw | rewrite Htotal; reflexivity]].
    rewrite Hrun, Hpw. vm_compute. reflexivity.
Defined.

Lemma partitionGraph_failure_witness :
  exists g' : MetisGraph.t,
    MetisGraph.partitionGraph 8 failing_partitioner triangle 2 1.5
    = Ok (false, g')
    /\ MetisGraph.getNumPartitions g' = 2
    /\ MetisGraph.part_weights_ g' = [].
Proof.
  destruct (partitionGraph_failure 8 failing_partitioner triangle 2 1.5
              MetisGraph.METIS_ERROR_INPUT 0 [0; 0; 0])
    as (g' & Hrun & Hnp & _ & _ & _ & Hpw).
  - simpl. lia.
  - lia.
  - reflexivity.
  - reflexivity.
  - reflexivity.
  - discriminate.
  - exists g'. split; [exact Hrun |]. split; [exact Hnp | exact Hpw].
Defined.

(** ** The METIS graph: partitioning in two levels *)

Section TwoLevelFacts.

Import MetisGraph.

Context (sizeof_idx_t : nat) (METIS_PartGraphKway : metis_partitioner).

(** X15. [partitionGraph(num_parts,num_miniparts,imbalance)] asks for at least
    as many minipartitions as parts; with as many minipartitions as parts it is
    the one-level [partitionGraph(num_parts,imbalance)], and whenever the first
    level does not succeed, its result is the result. *)
Theorem partitionGraph_merged_one_level
    (g : t) (num_parts num_miniparts : Z) (imbalance : float) :
  (num_miniparts < num_parts ->
   partitionGraph_merged sizeof_idx_t METIS_PartGraphKway g num_parts
     num_miniparts imbalance = Err AssertionFailed)
  /\ partitionGraph_merged sizeof_idx_t METIS_PartGraphKway g num_parts
       num_parts imbalance
     = partitionGraph sizeof_idx_t METIS_PartGraphKway g num_parts imbalance
  /\ (forall g' : t,
        num_parts <= num_miniparts ->
        partitionGraph sizeof_idx_t METIS_PartGraphKway g num_miniparts
          imbalance = Ok (false, g') ->
        partitionGraph_merged sizeof_idx_t METIS_PartGraphKway g num_parts
          num_miniparts imbalance = Ok (false, g')).
Proof.
  unfold partitionGraph_merged. split; [| split].
  - intros Hlt.
    replace (num_parts <=? num_miniparts) with false
      by (symmetry; apply Z.leb_gt; lia).
    reflexivity.
  - rewrite Z.leb_refl, Z.ltb_irrefl. cbn [assert bind].
    destruct (partitionGraph _ _ g num_parts imbalance) as [[success g'] |];
      cbn [bind]; [| reflexivity].
    now rewrite andb_false_r.
  - intros g' Hle Hfirst.
    replace (num_parts <=? num_miniparts) with true
      by (symmetry; apply Z.leb_le; lia).
    cbn [assert bind]. rewrite Hfirst. reflexivity.
Qed.

End TwoLevelFacts.

(** ** Loops: a pass that fails *)

Lemma iter_up_fails {St : Type} (P : Z -> St -> Prop)
    (body : Z -> St -> res St) (f : fault) (m : Z) (n : nat) :
  forall (i : Z) (s : St),
    P i s -> i <= m < i + Z.of_nat n ->
    (forall k s0, i <= k < m -> P k s0 ->
       exists s1, body k s0 = Ok s1 /\ P (k + 1) s1) ->
    (forall s0, P m s0 -> body m s0 = Err f) ->
    iter_up n i body s = Err f.
Proof.
  induction n as [| n IH]; intros i s Hinit Hm Hstep Hfail; [lia |].
  cbn [iter_up].
  destruct (Z.eq_dec i m) as [-> | Hne].
  - rewrite (Hfail s Hinit). reflexivity.
  - destruct (Hstep i s ltac:(lia) Hinit) as (s1 & Hbody & Hs1).
    rewrite Hbody. cbn [bind].
    apply IH; [exact Hs1 | lia | | exact Hfail].
    intros k s0 Hk. apply Hstep. lia.
Qed.

Lemma for_up_fails {St : Type} (P : Z -> St -> Prop)
    (body : Z -> St -> res St) (f : fault) (lo m hi : Z) (s : St) :
  P lo s -> lo <= m < hi ->
  (forall k s0, lo <= k < m -> P k s0 ->
     exists s1, body k s0 = Ok s1 /\ P (k + 1) s1) ->
  (forall s0, P m s0 -> body m s0 = Err f) ->
  for_up lo hi body s = Err f.
Proof.
  intros Hinit Hm Hstep Hfail. unfold for_up.
  apply (iter_up_fails P body f m); try assumption. lia.
Qed.

(** ** The METIS graph: more minipartitions than vertices *)

Section CoarseFacts.

Import MetisGraph.

Lemma mget_ok (n : Z) (adj : list (list Z)) (i j : Z) :
  square n adj -> 0 <= i < n -> 0 <= j < n ->
  exists x : Z, mget adj i j = Ok x.
Proof.
  intros [Hrows Hcols] Hi Hj. unfold mget.
  rewrite in_range_true by lia.
  apply vget_exists.
  destruct (lookup_lt_is_Some_2 adj (Z.to_nat i)) as [row Hrow]; [lia |].
  rewrite (nth_lookup_Some _ _ _ _ Hrow).
  rewrite (proj1 (Forall_lookup _ _) Hcols _ _ Hrow). lia.
Qed.

Lemma mset_ok (n : Z) (adj : list (list Z)) (i j x : Z) :
  square n adj -> 0 <= i < n -> 0 <= j < n ->
  exists adj' : list (list Z), mset adj i j x = Ok adj' /\ square n adj'.
Proof.
  intros [Hrows Hcols] Hi Hj. unfold mset.
  rewrite in_range_true by lia.
  destruct (lookup_lt_is_Some_2 adj (Z.to_nat i)) as [row Hrow]; [lia |].
  rewrite (nth_lookup_Some _ _ _ _ Hrow).
  pose proof (proj1 (Forall_lookup _ _) Hcols _ _ Hrow) as Hlen.
  cbv beta in Hlen.
  destruct (vset_exists row j x) as (row' & Hset & Hlen'); [lia |].
  rewrite Hset. cbn [bind]. eexists. split; [reflexivity |].
  split; [rewrite length_insert; exact Hrows |].
  apply Forall_insert; [exact Hcols | lia].
Qed.

Lemma coarse_adjacency_ok (g : t) (n : Z) :
  well_formed g -> 0 <= n ->
  vsize (partitions_ g) = num_vertices_ g ->
  Forall (fun a => 0 <= a < num_vertices_ g) (adjncy_ g) ->
  Forall (fun p => 0 <= p < n) (partitions_ g) ->
  exists adj : list (list Z), coarse_adjacency g n = Ok adj /\ square n adj.
Proof.
  intros Hwf Hn Hparts Hadj Hrange.
  pose proof Hwf as [(Hxs & Hsame & Hlast) (Hvw & Hzero & Hmono)].
  assert (Hnv : 0 <= num_vertices_ g)
    by (pose proof (vsize_nonneg (partitions_ g)); lia).
  unfold coarse_adjacency. cbv zeta.
  match goal with
  | |- context [for_up 0 (num_vertices_ g) ?body ?s] =>
      destruct (for_up_invariant (fun (_ : Z) adj => square n adj)
                  body 0 (num_vertices_ g) s)
        as (adj & Hrun & Hsq); [lia | | | eauto]
  end.
  - split.
    + rewrite length_replicate. lia.
    + apply Forall_replicate. unfold vsize. rewrite length_replicate. lia.
  - intros vert adj Hv Hsq.
    destruct (lookup_in_range (partitions_ g) vert) as [p Hp]; [lia |].
    rewrite (vget_of_lookup _ vert p ltac:(lia) Hp). cbn [bind].
    pose proof (proj1 (Forall_lookup _ _) Hrange _ _ Hp) as Hpr.
    cbv beta in Hpr.
    destruct (edges_in_range g vert Hwf ltac:(lia))
      as (lo & hi & Hlo & Hhi & Hr & Hend).
    rewrite Hlo, Hhi. cbn [bind].
    apply (for_up_invariant (fun (_ : Z) adj => square n adj));
      [lia | exact Hsq |].
    intros e adj0 He Hsq0.
    destruct (lookup_in_range (adjncy_ g) e) as [a Ha]; [lia |].
    rewrite (vget_of_lookup _ e a ltac:(lia) Ha). cbn [bind].
    pose proof (proj1 (Forall_lookup _ _) Hadj _ _ Ha) as Har.
    cbv beta in Har.
    destruct (lookup_in_range (partitions_ g) a) as [q Hq]; [lia |].
    rewrite (vget_of_lookup _ a q ltac:(lia) Hq). cbn [bind].
    pose proof (proj1 (Forall_lookup _ _) Hrange _ _ Hq) as Hqr.
    cbv beta in Hqr.
    destruct (vget_exists (adjwgt_ g) e) as [w Hw]; [lia |].
    rewrite Hw. cbn [bind].
    destruct (mget_ok n adj0 p q Hsq0 Hpr Hqr) as [x Hx].
    rewrite Hx. cbn [bind].
    apply mset_ok; assumption.
Qed.

Lemma coarse_vertex_ok (adj : list (list Z)) (n i : Z) :
  square n adj -> 0 <= i < n ->
  exists (adj_verts adj_wghts : list Z) (num_adj_edges : Z),
    coarse_vertex adj n i = Ok (adj_verts, adj_wghts, num_adj_edges)
    /\ 0 <= num_adj_edges <= vsize adj_verts
    /\ num_adj_edges <= vsize adj_wghts.
Proof.
  intros Hsq Hi. unfold coarse_vertex.
  destruct (valloc_exists n) as (v0 & Hv0 & Hlen0); [lia |].
  rewrite Hv0. cbn [bind].
  match goal with
  | |- context [for_up 0 n ?body ?s] =>
      destruct (for_up_invariant
                  (fun (j : Z) '(av, aw, ne) =>
                     vsize av = n /\ vsize aw = n /\ 0 <= ne <= j)
                  body 0 n s)
        as ([[av aw] ne] & Hrun & Hav & Haw & Hne); [lia | | |]
  end.
  - repeat split; try assumption; lia.
  - intros j [[av aw] ne] Hj (Hav & Haw & Hne). cbv beta iota.
    destruct (negb (j =? i)).
    + destruct (mget_ok n adj i j Hsq Hi ltac:(lia)) as [x Hx].
      rewrite Hx. cbn [bind].
      destruct (negb (x =? 0)).
      * destruct (vset_exists av ne j) as (av' & Hav' & Hlen1); [lia |].
        rewrite Hav'. cbn [bind].
        destruct (vset_exists aw ne x) as (aw' & Haw' & Hlen2); [lia |].
        rewrite Haw'. cbn [bind].
        eexists. split; [reflexivity |]. cbv beta iota.
        repeat split; lia.
      * eexists. split; [reflexivity |]. cbv beta iota.
        repeat split; lia.
    + eexists. split; [reflexivity |]. cbv beta iota. repeat split; lia.
  - exists av, aw, ne. split; [exact Hrun |]. lia.
Qed.

(** The coarse graph needs one part weight for each minipartition. *)
Lemma coarse_graph_out_of_weights (sizeof_idx_t : nat) (g : t)
    (adj : list (list Z)) (n : Z) :
  square n adj -> 0 <= vsize (part_weights_ g) < n ->
  coarse_graph sizeof_idx_t g adj n = Err OutOfBounds.
Proof.
  intros Hsq Hpw. unfold coarse_graph.
  apply (for_up_fails
           (fun (_ : Z) coarse =>
              0 <= num_vertices_ coarse
              /\ vsize (xadj_ coarse) = num_vertices_ coarse + 1)
           _ _ 0 (vsize (part_weights_ g)) n).
  - split; [cbn; lia | reflexivity].
  - lia.
  - intros i coarse Hi [Hnv Hxs].
    destruct (coarse_vertex_ok adj n i Hsq ltac:(lia))
      as (av & aw & ne & Hvertex & Hne1 & Hne2).
    rewrite Hvertex. cbn [bind].
    destruct (vget_exists (part_weights_ g) i) as [w Hw]; [lia |].
    rewrite Hw. cbn [bind].
    destruct (appendVertex_returns sizeof_idx_t coarse ne av aw (to_size_t w)
                Hnv Hxs ltac:(lia) ltac:(lia))
      as (coarse' & Happend & Hnv' & Hxs').
    exists coarse'. split; [exact Happend | split; assumption].
  - intros coarse _.
    destruct (coarse_vertex_ok adj n (vsize (part_weights_ g)) Hsq
                ltac:(lia))
      as (av & aw & ne & Hvertex & _).
    rewrite Hvertex. cbn [bind].
    unfold vget at 1.
    replace ((0 <=? vsize (part_weights_ g))
             && (vsize (part_weights_ g) <? vsize (part_weights_ g)))
      with false; [reflexivity |].
    symmetry. apply andb_false_iff. right. apply Z.ltb_irrefl.
Qed.

End CoarseFacts.

Section TwoLevelBounds.

Import MetisGraph.

Context (sizeof_idx_t : nat) (METIS_PartGraphKway : metis_partitioner).

(** X16. With more minipartitions than the graph has vertices, and fewer parts
    than minipartitions, the two-level partitioning reads [part_weights_]
    outside its bounds: the first level leaves one part weight for each vertex
    at most, the coarse graph asks for one for each minipartition. *)
Theorem partitionGraph_merged_out_of_weights
    (g : t) (num_parts num_miniparts : Z) (imbalance : float) (edge_cut : Z)
    (parts : list Z)
    (Hwf : well_formed g)
    (Hadj : Forall (fun a => 0 <= a < num_vertices_ g) (adjncy_ g))
    (Hnv : 0 < num_vertices_ g < 2 ^ 64)
    (Hparts : 0 < num_parts < num_miniparts)
    (Hmini : num_vertices_ g < num_miniparts)
    (Hfit : to_idx_t sizeof_idx_t num_miniparts = num_miniparts)
    (Himb : (1 <=? imbalance)%float = true)
    (Hmetis : METIS_PartGraphKway (num_vertices_ g) 1 (xadj_ g) (adjncy_ g)
                (vwgt_ g) (adjwgt_ g)
                (Z.min num_miniparts (num_vertices_ g)) imbalance
                (resize (if 0 <? num_parts_ g then [] else partitions_ g)
                   (num_vertices_ g))
              = (METIS_OK, edge_cut, parts))
    (Hlen : vsize parts = num_vertices_ g)
    (Hrange : Forall
                (fun p => 0 <= p < Z.min num_miniparts (num_vertices_ g))
                parts)
    (Heven : Z.even (cross_ends g parts) = true) :
  partitionGraph_merged sizeof_idx_t METIS_PartGraphKway g num_parts
    num_miniparts imbalance
  = Err OutOfBounds.
Proof.
  destruct (partitionGraph_ok sizeof_idx_t METIS_PartGraphKway g
              num_miniparts imbalance edge_cut parts Hwf Hadj Hnv
              ltac:(lia) Hfit Himb Hmetis Hlen Hrange)
    as (part_weights & Hfirst & Hsize & _).
  rewrite Heven in Hfirst.
  unfold partitionGraph_merged.
  replace (num_parts <=? num_miniparts) with true
    by (symmetry; apply Z.leb_le; lia).
  cbn [assert bind]. rewrite Hfirst. cbn [bind].
  replace (num_parts <? num_miniparts) with true
    by (symmetry; apply Z.ltb_lt; lia).
  cbn [andb].
  set (g1 := mk _ _ _ _ _ _ _ _ _ _ _).
  assert (Hwf1 : well_formed g1) by exact Hwf.
  destruct (coarse_adjacency_ok g1 num_miniparts Hwf1 ltac:(lia))
    as (adj & Hadjacency & Hsq).
  - exact Hlen.
  - exact Hadj.
  - subst g1. cbn [partitions_].
    rewrite Forall_forall in Hrange |- *. intros p Hp.
    specialize (Hrange p Hp). lia.
  - rewrite Hadjacency. cbn [bind].
    rewrite (coarse_graph_out_of_weights sizeof_idx_t g1 adj num_miniparts
               Hsq).
    + reflexivity.
    + subst g1. cbn [part_weights_]. lia.
Qed.

End TwoLevelBounds.

Lemma partitionGraph_merged_out_of_weights_witness :
  MetisGraph.partitionGraph_merged 8 splitting_partitioner triangle 2 4 1.5
  = Err OutOfBounds.
Proof.
  apply (partitionGraph_merged_out_of_weights 8 splitting_partitioner
           triangle 2 4 1.5 12 [0; 0; 1] well_formed_triangle).
  - repeat constructor; simpl; lia.
  - simpl. lia.
  - lia.
  - simpl. lia.
  - reflexivity.
  - reflexivity.
  - reflexivity.
  - reflexivity.
  - repeat constructor; simpl; lia.
  - reflexivity.
Defined.

(** ** Loops: what a pass that has returned has kept *)

Lemma iter_up_kept {St : Type} (P : Z -> St -> Prop)
    (body : Z -> St -> res St) (n : nat) :
  forall (i : Z) (s s' : St),
    iter_up n i body s = Ok s' -> P i s ->
    (forall k s0 s1, i <= k < i + Z.of_nat n -> P k s0 ->
       body k s0 = Ok s1 -> P (k + 1) s1) ->
    P (i + Z.of_nat n) s'.
Proof.
  induction n as [| n IH]; intros i s s' Hrun Hinit Hstep.
  - injection Hrun as <-. now replace (i + Z.of_nat 0) with i by lia.
  - cbn [iter_up] in Hrun. apply bind_Ok in Hrun as (s1 & Hbody & Hrun).
    replace (i + Z.of_nat (S n)) with (i + 1 + Z.of_nat n) by lia.
    apply (IH (i + 1) s1 s' Hrun).
    + apply (Hstep i s s1); [lia | exact Hinit | exact Hbody].
    + intros k s0 s2 Hk. apply Hstep. lia.
Qed.

Lemma for_up_kept {St : Type} (P : Z -> St -> Prop)
    (body : Z -> St -> res St) (lo hi : Z) (s s' : St) :
  lo <= hi -> for_up lo hi body s = Ok s' -> P lo s ->
  (forall k s0 s1, lo <= k < hi -> P k s0 -> body k s0 = Ok s1 ->
     P (k + 1) s1) ->
  P hi s'.
Proof.
  intros Hle Hrun Hinit Hstep. unfold for_up in Hrun.
  replace hi with (lo + Z.of_nat (Z.to_nat (hi - lo))) by lia.
  apply (iter_up_kept P body _ lo s s' Hrun Hinit).
  intros k s0 s1 Hk. apply Hstep. lia.
Qed.

(** ** The METIS graph: the volume of the graph of some partitions *)

Section SubgraphVolume.

Import MetisGraph.

Context (requested : Z -> bool).

Lemma collect_edges_volume (parent : t) (n lo hi : Z)
    (A W VW A' W' VW' : list Z) (ne ne' : Z) :
  0 <= lo <= hi -> 0 <= n ->
  collect_edges requested parent n lo hi (A, W, VW, ne)
  = Ok (A', W', VW', ne') ->
  total VW' + total W' - vsize W'
  = total VW + total W - vsize W
    + total (map (fun w => w - 1)
               (take (Z.to_nat (hi - lo))
                  (drop (Z.to_nat lo) (adjwgt_ parent)))).
Proof.
  intros Hlo Hn Hrun. unfold collect_edges in Hrun.
  apply (for_up_kept
           (fun (e : Z) '(A0, W0, VW0, ne0) =>
              total VW0 + total W0 - vsize W0
              = total VW + total W - vsize W
                + total (map (fun w => w - 1)
                           (take (Z.to_nat (e - lo))
                              (drop (Z.to_nat lo) (adjwgt_ parent)))))
           _ lo hi _ _ ltac:(lia) Hrun).
  - rewrite Z.sub_diag. change (Z.to_nat 0) with 0%nat. rewrite take_0.
    cbn. lia.
  - intros e [[[A0 W0] VW0] ne0] [[[A1 W1] VW1] ne1] He Hinv Hbody.
    cbv beta iota in Hbody.
    apply bind_Ok in Hbody as (a & _ & Hbody).
    apply bind_Ok in Hbody as (p & _ & Hbody).
    assert (Hstep : exists w : Z,
               vget (adjwgt_ parent) e = Ok w
               /\ total VW1 + total W1 - vsize W1
                  = total VW0 + total W0 - vsize W0 + (w - 1)).
    { destruct (requested p).
      - apply bind_Ok in Hbody as (w & Hw & Hbody).
        injection Hbody as <- <- <- <-. exists w. split; [exact Hw |].
        rewrite total_app, vsize_app.
        change (total [w]) with (w + 0). change (vsize [w]) with 1. lia.
      - apply bind_Ok in Hbody as (w & Hw & Hbody).
        apply bind_Ok in Hbody as (x & Hx & Hbody).
        apply bind_Ok in Hbody as (VW2 & Hset & Hbody).
        injection Hbody as <- <- <- <-. exists w. split; [exact Hw |].
        apply vget_lookup in Hx as [_ Hx].
        apply vset_Ok in Hset as (_ & -> & _).
        rewrite (total_insert _ _ _ _ Hx). lia. }
    destruct Hstep as (w & Hw & Hvol).
    apply vget_lookup in Hw as [_ Hw].
    replace (Z.to_nat (e + 1 - lo)) with (S (Z.to_nat (e - lo))) by lia.
    assert (Hdrop : drop (Z.to_nat lo) (adjwgt_ parent)
                      !! Z.to_nat (e - lo) = Some w).
    { rewrite lookup_drop.
      replace (Z.to_nat lo + Z.to_nat (e - lo))%nat with (Z.to_nat e) by lia.
      exact Hw. }
    rewrite (take_S_r _ _ _ Hdrop), map_app, total_app. cbn. lia.
Qed.

(** X10. Nothing is lost between a partitioned graph and the graph of some of
    its partitions: the vertex weights and the edge weights (less one each) of
    the child add up to those of the vertices of the requested partitions in
    the parent, the weight of every edge that leaves these partitions having
    gone into the weight of its vertex. *)
Theorem subgraph_keeps_volume (parent child : t)
    (Hparent : partitioned parent)
    (Hchild : subgraph requested parent = Ok child) :
  graph_volume child = requested_volume requested parent.
Proof.
  destruct Hparent as (Hwf & Hparts & Hadj & Hren).
  unfold subgraph in Hchild.
  apply bind_Ok in Hchild as ([[[[[m n] X] A] VW] W] & Hcollect & Hchild).
  apply bind_Ok in Hchild as (renumber & _ & Hchild).
  injection Hchild as <-.
  unfold graph_volume, requested_volume. cbn [vwgt_ adjwgt_].
  unfold collect_vertices in Hcollect.
  rewrite <- Hparts.
  apply (for_up_kept
           (fun (k : Z)
                (st : gmap Z Z * Z * list Z * list Z * list Z * list Z) =>
              let '(m0, n0, X0, A0, VW0, W0) := st in
              0 <= n0
              /\ total VW0 + total W0 - vsize W0
                 = total
                     (map (fun v =>
                             if requested
                                  (nth (Z.to_nat v) (partitions_ parent) 0)
                             then vertex_volume parent v else 0)
                        (seqZ 0 k)))
           _ 0 (vsize (partitions_ parent)) _ _ (vsize_nonneg _) Hcollect).
  - split; [lia | reflexivity].
  - intros k [[[[[m0 n0] X0] A0] VW0] W0] [[[[[m1 n1] X1] A1] VW1] W1] Hk
      [Hn0 Hinv] Hbody.
    cbv beta iota in Hbody.
    apply bind_Ok in Hbody as (p & Hp & Hbody).
    apply vget_Ok in Hp as [_ ->].
    replace (k + 1) with (Z.of_nat (S (Z.to_nat k))) by lia.
    rewrite seqZ_S, map_app, total_app. cbn [map].
    rewrite Z2Nat.id, Z.add_0_l by lia.
    destruct (requested (nth (Z.to_nat k) (partitions_ parent) 0)).
    + apply bind_Ok in Hbody as ([] & _ & Hbody).
      apply bind_Ok in Hbody as (w & Hw & Hbody).
      apply bind_Ok in Hbody as (lo & Hlo & Hbody).
      apply bind_Ok in Hbody as (hi & Hhi & Hbody).
      apply bind_Ok in Hbody as ([[[A2 W2] VW2] ne] & Hedges & Hbody).
      apply bind_Ok in Hbody as (last & _ & Hbody).
      injection Hbody as <- <- <- <- <- <-.
      destruct (edges_in_range parent k Hwf ltac:(lia))
        as (lo' & hi' & Hlo' & Hhi' & Hr & _).
      rewrite Hlo in Hlo'. rewrite Hhi in Hhi'.
      injection Hlo' as <-. injection Hhi' as <-.
      split; [lia |].
      rewrite (collect_edges_volume _ _ _ _ _ _ _ _ _ _ _ _ Hr Hn0 Hedges).
      rewrite total_app, <- Hinv. unfold vertex_volume, edge_weights, offset_of.
      apply vget_Ok in Hw as [_ ->].
      apply vget_Ok in Hlo as [_ ->]. apply vget_Ok in Hhi as [_ ->].
      rewrite !total_cons. change (total []) with 0. lia.
    + injection Hbody as <- <- <- <- <- <-. split; [lia |].
      rewrite <- Hinv, total_cons. change (total []) with 0. lia.
Qed.

End SubgraphVolume.

Lemma subgraph_keeps_volume_witness :
  graph_volume first_partition
  = requested_volume
      (fun p => existsb (fun partn => partn =? MetisGraph.to_size_t p) [0])
      partitioned_triangle.
Proof.
  apply (subgraph_keeps_volume _ partitioned_triangle first_partition
           partitioned_partitioned_triangle).
  vm_compute. reflexivity.
Defined.

(** ** The METIS graph: the graph of some partitions, vertex by vertex *)

Section ChildIds.

Context (requested : Z -> bool) (g : MetisGraph.t).

Lemma child_id_succ (k : Z) :
  0 <= k ->
  child_id requested g (k + 1)
  = child_id requested g k + (if in_requested requested g k then 1 else 0).
Proof.
  intros Hk. unfold child_id.
  replace (k + 1) with (Z.of_nat (S (Z.to_nat k))) by lia.
  rewrite seqZ_S, List.filter_app, length_app.
  rewrite Z2Nat.id, Z.add_0_l by lia. cbn [List.filter].
  destruct (in_requested requested g k); cbn [length]; lia.
Qed.

Lemma child_id_nonneg (k : Z) : 0 <= child_id requested g k.
Proof. unfold child_id. lia. Qed.

Lemma child_id_le (a b : Z) :
  0 <= a <= b -> child_id requested g a <= child_id requested g b.
Proof.
  intros Hab. unfold child_id.
  replace b with (a + (b - a)) by lia.
  rewrite seqZ_app by lia. rewrite List.filter_app, length_app. lia.
Qed.

Lemma child_id_lt (v k : Z) :
  0 <= v < k -> in_requested requested g v = true ->
  child_id requested g v < child_id requested g k.
Proof.
  intros Hv Hsel.
  pose proof (child_id_succ v ltac:(lia)) as Hs. rewrite Hsel in Hs.
  pose proof (child_id_le (v + 1) k ltac:(lia)). lia.
Qed.

Lemma child_id_onto (k : Z) :
  0 <= k ->
  forall c : Z,
    0 <= c < child_id requested g k ->
    exists v : Z,
      0 <= v < k /\ in_requested requested g v = true
      /\ child_id requested g v = c.
Proof.
  intros Hk. pattern k. apply natlike_ind; [| | exact Hk]; clear k Hk.
  - intros c Hc. change (child_id requested g 0) with 0 in Hc. lia.
  - intros k Hk IH c Hc. unfold Z.succ in *.
    rewrite child_id_succ in Hc by lia.
    destruct (Z_lt_le_dec c (child_id requested g k)) as [Hlt | Hge].
    + destruct (IH c ltac:(lia)) as (v & Hv & Hsel & Hid).
      exists v. repeat split; try assumption; lia.
    + destruct (in_requested requested g k) eqn:Hsel; [| lia].
      exists k. repeat split; try assumption; lia.
Qed.

End ChildIds.

(** A slice of two vectors that have been appended to, read as edges. *)
Lemma slice_kept (A W A' W' : list Z) (lo n : Z) :
  0 <= lo -> lo + n <= vsize A -> lo + n <= vsize W ->
  map (fun edge =>
         (nth (Z.to_nat edge) (A ++ A') 0, nth (Z.to_nat edge) (W ++ W') 0))
    (seqZ lo n)
  = map (fun edge => (nth (Z.to_nat edge) A 0, nth (Z.to_nat edge) W 0))
      (seqZ lo n).
Proof.
  intros Hlo HA HW. apply map_ext_in. intros e He.
  apply list_elem_of_In, elem_of_seqZ in He. unfold vsize in *.
  rewrite !app_nth1 by lia. reflexivity.
Qed.

Lemma slice_appended (A W : list Z) (F : list (Z * Z)) :
  vsize W = vsize A ->
  map (fun edge =>
         (nth (Z.to_nat edge) (A ++ map fst F) 0,
          nth (Z.to_nat edge) (W ++ map snd F) 0))
    (seqZ (vsize A) (Z.of_nat (length F)))
  = F.
Proof.
  intros HW. apply list_eq. intros i.
  rewrite list_lookup_fmap.
  destruct (F !! i) as [[a w] |] eqn:HF.
  - pose proof (lookup_lt_Some _ _ _ HF) as Hi.
    rewrite lookup_seqZ_lt by lia. cbn [fmap option_fmap option_map].
    unfold vsize in *.
    rewrite !app_nth2 by lia.
    replace (Z.to_nat (Z.of_nat (length A) + Z.of_nat i) - length A)%nat
      with i by lia.
    replace (Z.to_nat (Z.of_nat (length A) + Z.of_nat i) - length W)%nat
      with i by lia.
    f_equal. f_equal.
    + apply nth_lookup_Some. now rewrite list_lookup_fmap, HF.
    + apply nth_lookup_Some. now rewrite list_lookup_fmap, HF.
  - apply lookup_ge_None in HF.
    rewrite lookup_seqZ_ge by lia. reflexivity.
Qed.

Section SubgraphContent.

Import MetisGraph.

Context (requested : Z -> bool).

(** The edges of one vertex: what the inner loop has done when it has
    returned. *)
Lemma collect_edges_content (parent : t) (n lo hi w : Z)
    (A W VW A' W' VW' : list Z) (ne : Z) :
  0 <= lo <= hi -> vsize VW = n ->
  collect_edges requested parent n lo hi (A, W, VW ++ [w], 0)
  = Ok (A', W', VW', ne) ->
  let E :=
    map (fun edge =>
           (nth (Z.to_nat edge) (adjncy_ parent) 0,
            nth (Z.to_nat edge) (adjwgt_ parent) 0))
      (seqZ lo (hi - lo)) in
  let kept :=
    List.filter (fun e => in_requested requested parent (fst e)) E in
  let left :=
    List.filter (fun e => negb (in_requested requested parent (fst e))) E in
  A' = A ++ map fst kept /\ W' = W ++ map snd kept
  /\ VW' = VW ++ [w + total (map (fun e => snd e - 1) left)]
  /\ ne = Z.of_nat (length kept).
Proof.
  intros Hlo HVW Hrun. cbv zeta. unfold collect_edges in Hrun.
  pose (E := fun (e : Z) =>
          map (fun edge =>
                 (nth (Z.to_nat edge) (adjncy_ parent) 0,
                  nth (Z.to_nat edge) (adjwgt_ parent) 0))
            (seqZ lo (e - lo))).
  apply (for_up_kept
           (fun (e : Z) '(A0, W0, VW0, ne0) =>
              A0 = A ++ map fst
                         (List.filter
                            (fun e => in_requested requested parent (fst e))
                            (E e))
              /\ W0 = W ++ map snd
                            (List.filter
                               (fun e =>
                                  in_requested requested parent (fst e))
                               (E e))
              /\ VW0 = VW
                       ++ [w + total
                                 (map (fun e => snd e - 1)
                                    (List.filter
                                       (fun e =>
                                          negb (in_requested requested parent
                                                  (fst e)))
                                       (E e)))]
              /\ ne0 = Z.of_nat
                         (length
                            (List.filter
                               (fun e =>
                                  in_requested requested parent (fst e))
                               (E e))))
           _ lo hi _ _ ltac:(lia) Hrun).
  - subst E. cbv beta. rewrite Z.sub_diag. cbn.
    rewrite !app_nil_r, Z.add_0_r. repeat split.
  - intros e [[[A0 W0] VW0] ne0] [[[A1 W1] VW1] ne1] He
      (-> & -> & -> & ->) Hbody.
    cbv beta iota in Hbody.
    apply bind_Ok in Hbody as (a & Ha & Hbody).
    apply bind_Ok in Hbody as (p & Hp & Hbody).
    apply vget_Ok in Ha as [_ ->]. apply vget_Ok in Hp as [_ ->].
    assert (HE : E (e + 1)
                 = E e ++ [(nth (Z.to_nat e) (adjncy_ parent) 0,
                            nth (Z.to_nat e) (adjwgt_ parent) 0)]).
    { subst E. cbv beta.
      replace (e + 1 - lo) with (Z.of_nat (S (Z.to_nat (e - lo)))) by lia.
      rewrite seqZ_S, map_app. cbn [map].
      rewrite !Z2Nat.id by lia.
      replace (lo + (e - lo)) with e by lia. reflexivity. }
    set (a := nth (Z.to_nat e) (adjncy_ parent) 0) in *.
    change (requested (nth (Z.to_nat a) (partitions_ parent) 0))
      with (in_requested requested parent a) in Hbody.
    rewrite HE, !List.filter_app. cbn [List.filter fst].
    destruct (in_requested requested parent a) eqn:Hsel.
    + apply bind_Ok in Hbody as (we & Hwe & Hbody).
      apply vget_Ok in Hwe as [_ ->].
      injection Hbody as <- <- <- <-. cbn [negb].
      rewrite !map_app, !app_assoc, length_app, app_nil_r.
      cbn [map fst snd length]. repeat split. lia.
    + apply bind_Ok in Hbody as (we & Hwe & Hbody).
      apply vget_Ok in Hwe as [_ ->].
      apply bind_Ok in Hbody as (x & Hx & Hbody).
      apply bind_Ok in Hbody as (VW2 & Hset & Hbody).
      injection Hbody as <- <- <- <-. cbn [negb].
      rewrite !app_nil_r.
      apply vget_lookup in Hx as [_ Hx].
      apply vset_Ok in Hset as (_ & -> & _).
      subst n. unfold vsize in Hx |- *. rewrite Nat2Z.id in Hx |- *.
      rewrite lookup_app_r, Nat.sub_diag in Hx by lia.
      injection Hx as <-.
      repeat split.
      rewrite insert_app_r_alt, Nat.sub_diag by lia. cbn [insert].
      f_equal. cbn. f_equal.
      rewrite map_app, total_app. cbn. lia.
Qed.


(** The vertices of the requested partitions: what the outer loop has built
    when it has returned. *)
Lemma collect_vertices_content (parent : t) (m : gmap Z Z) (n : Z)
    (X A VW W : list Z) :
  partitioned parent ->
  collect_vertices requested parent = Ok (m, n, X, A, VW, W) ->
  n = child_id requested parent (num_vertices_ parent)
  /\ vsize X = n + 1 /\ vsize W = vsize A
  /\ (forall v c : Z,
        m !! v = Some c
        <-> 0 <= v < num_vertices_ parent
            /\ in_requested requested parent v = true
            /\ c = child_id requested parent v)
  /\ (forall v : Z,
        0 <= v < num_vertices_ parent ->
        in_requested requested parent v = true ->
        exists lo hi : Z,
          X !! Z.to_nat (child_id requested parent v) = Some lo
          /\ X !! Z.to_nat (child_id requested parent v + 1) = Some hi
          /\ 0 <= lo <= hi /\ hi <= vsize A
          /\ map (fun edge =>
                    (nth (Z.to_nat edge) A 0, nth (Z.to_nat edge) W 0))
               (seqZ lo (hi - lo))
             = internal_edges requested parent v
          /\ VW !! Z.to_nat (child_id requested parent v)
             = Some (nth (Z.to_nat v) (vwgt_ parent) 0
                     + total
                         (map (fun e => snd e - 1)
                            (external_edges requested parent v)))).
Proof.
  intros (Hwf & Hparts & Hadj & Hren) Hrun.
  unfold collect_vertices in Hrun. rewrite Hparts in Hrun.
  assert (Hnv : 0 <= num_vertices_ parent)
    by (rewrite <- Hparts; apply vsize_nonneg).
  pose (Inv := fun (k : Z)
                   (st : gmap Z Z * Z * list Z * list Z * list Z * list Z) =>
     let '(m0, n0, X0, A0, VW0, W0) := st in
     n0 = child_id requested parent k
     /\ vsize X0 = n0 + 1 /\ X0 !! Z.to_nat n0 = Some (vsize A0)
     /\ vsize W0 = vsize A0 /\ vsize VW0 = n0
     /\ (forall v c : Z,
           m0 !! v = Some c
           <-> 0 <= v < k /\ in_requested requested parent v = true
               /\ c = child_id requested parent v)
     /\ (forall v : Z,
           0 <= v < k -> in_requested requested parent v = true ->
           exists lo hi : Z,
             X0 !! Z.to_nat (child_id requested parent v) = Some lo
             /\ X0 !! Z.to_nat (child_id requested parent v + 1) = Some hi
             /\ 0 <= lo <= hi /\ hi <= vsize A0
             /\ map (fun edge =>
                       (nth (Z.to_nat edge) A0 0, nth (Z.to_nat edge) W0 0))
                  (seqZ lo (hi - lo))
                = internal_edges requested parent v
             /\ VW0 !! Z.to_nat (child_id requested parent v)
                = Some (nth (Z.to_nat v) (vwgt_ parent) 0
                        + total
                            (map (fun e => snd e - 1)
                               (external_edges requested parent v))))).
  assert (Hend : Inv (num_vertices_ parent) (m, n, X, A, VW, W)).
  { apply (for_up_kept Inv _ 0 (num_vertices_ parent) _ _ Hnv Hrun).
    - (* before the loop *)
      unfold Inv.
      split; [reflexivity |]. split; [reflexivity |].
      split; [reflexivity |]. split; [reflexivity |].
      split; [reflexivity |]. split.
      + intros v c. rewrite lookup_empty. split; [discriminate | lia].
      + intros v Hv. lia.
    - (* one vertex *)
      intros k [[[[[m0 n0] X0] A0] VW0] W0] [[[[[m1 n1] X1] A1] VW1] W1] Hk
        (Hn0 & HX0 & HXn & HW0 & HVW0 & Hm & Hslots) Hbody.
      cbv beta iota in Hbody.
      apply bind_Ok in Hbody as (p & Hp & Hbody).
      apply vget_Ok in Hp as [_ ->].
      change (requested (nth (Z.to_nat k) (partitions_ parent) 0))
        with (in_requested requested parent k) in Hbody.
      pose proof (child_id_succ requested parent k ltac:(lia)) as Hsucc.
      pose proof (child_id_nonneg requested parent k) as Hnn.
      destruct (in_requested requested parent k) eqn:Hsel.
      + apply bind_Ok in Hbody as ([] & _ & Hbody).
        apply bind_Ok in Hbody as (w & Hw & Hbody).
        apply bind_Ok in Hbody as (lo & Hlo & Hbody).
        apply bind_Ok in Hbody as (hi & Hhi & Hbody).
        apply bind_Ok in Hbody as ([[[A2 W2] VW2] ne] & Hedges & Hbody).
        apply bind_Ok in Hbody as (last & Hlast & Hbody).
        injection Hbody as <- <- <- <- <- <-.
        destruct (edges_in_range parent k Hwf ltac:(lia))
          as (lo' & hi' & Hlo' & Hhi' & Hr & _).
        rewrite Hlo in Hlo'. rewrite Hhi in Hhi'.
        injection Hlo' as <-. injection Hhi' as <-.
        apply vget_Ok in Hw as [_ ->].
        apply vget_Ok in Hlo as [_ Hlo]. apply vget_Ok in Hhi as [_ Hhi].
        apply vget_lookup in Hlast as [_ Hlast].
        rewrite HXn in Hlast. injection Hlast as <-.
        destruct (collect_edges_content parent n0 lo hi _ A0 W0 VW0 A2 W2 VW2
                    ne Hr HVW0 Hedges) as (-> & -> & -> & ->).
        assert (HE : map (fun edge =>
                            (nth (Z.to_nat edge) (adjncy_ parent) 0,
                             nth (Z.to_nat edge) (adjwgt_ parent) 0))
                       (seqZ lo (hi - lo))
                     = edges parent k).
        { unfold edges, degree, offset_of. now rewrite <- Hlo, <- Hhi. }
        rewrite HE.
        fold (internal_edges requested parent k).
        fold (external_edges requested parent k).
        set (F := internal_edges requested parent k).
        assert (HlenF1 : vsize (map fst F) = Z.of_nat (length F))
          by (unfold vsize; now rewrite length_map).
        assert (HlenF2 : vsize (map snd F) = Z.of_nat (length F))
          by (unfold vsize; now rewrite length_map).
        assert (HlenX : length X0 = S (Z.to_nat n0))
          by (unfold vsize in HX0; lia).
        unfold Inv.
        split; [lia |]. rewrite !vsize_app.
        change (vsize [_]) with 1.
        split; [lia |].
        split.
        { replace (Z.to_nat (n0 + 1)) with (length X0) by lia.
          rewrite lookup_app_r, Nat.sub_diag by lia. cbn. f_equal. lia. }
        split; [lia |]. split; [lia |].
        split.
        * intros v c.
          destruct (Z.eq_dec v k) as [-> | Hne].
          -- rewrite lookup_insert_eq. split.
             ++ intros [= <-]. repeat split; try lia. exact Hsel.
             ++ intros (_ & _ & ->). f_equal. lia.
          -- rewrite lookup_insert_ne by congruence. rewrite Hm.
             split; intros (Hv & Hs & Hc); repeat split;
               try assumption; lia.
        * intros v Hv Hs.
          destruct (Z.eq_dec v k) as [-> | Hne].
          -- exists (vsize A0), (vsize A0 + Z.of_nat (length F)).
             rewrite <- Hn0.
             split; [rewrite lookup_app_l by lia; exact HXn |].
             split.
             { replace (Z.to_nat (n0 + 1)) with (length X0) by lia.
               rewrite lookup_app_r, Nat.sub_diag by lia. reflexivity. }
             pose proof (vsize_nonneg A0).
             split; [lia |]. split; [lia |].
             split.
             { replace (vsize A0 + Z.of_nat (length F) - vsize A0)
                 with (Z.of_nat (length F)) by lia.
               apply slice_appended. exact HW0. }
             replace (Z.to_nat n0) with (length VW0)
               by (unfold vsize in HVW0; lia).
             rewrite lookup_app_r, Nat.sub_diag by lia. reflexivity.
          -- destruct (Hslots v ltac:(lia) Hs)
               as (lo1 & hi1 & Hlo1 & Hhi1 & Hr1 & Hhi1A & Hslice & Hvw).
             pose proof (child_id_lt requested parent v k ltac:(lia) Hs)
               as Hlt.
             pose proof (child_id_nonneg requested parent v) as Hnnv.
             exists lo1, hi1.
             split; [rewrite lookup_app_l by lia; exact Hlo1 |].
             split; [rewrite lookup_app_l by lia; exact Hhi1 |].
             split; [lia |]. split; [lia |].
             split.
             { rewrite slice_kept by lia. exact Hslice. }
             rewrite lookup_app_l by (unfold vsize in HVW0; lia).
             exact Hvw.
      + injection Hbody as <- <- <- <- <- <-. unfold Inv.
        split; [lia |]. split; [exact HX0 |]. split; [exact HXn |].
        split; [exact HW0 |]. split; [exact HVW0 |].
        split.
        * intros v c. rewrite Hm.
          split; intros (Hv & Hs & Hc); repeat split; try assumption;
            try lia.
          destruct (Z.eq_dec v k) as [-> | Hne]; [congruence | lia].
        * intros v Hv Hs.
          destruct (Z.eq_dec v k) as [-> | Hne]; [congruence |].
          apply Hslots; [lia | exact Hs]. }
  destruct Hend as (Hn & HX & _ & HW & _ & Hm & Hslots).
  split; [exact Hn |]. split; [exact HX |]. split; [exact HW |].
  split; [exact Hm | exact Hslots].
Qed.

End SubgraphContent.

Section SubgraphVertices.

Import MetisGraph.

Context (requested : Z -> bool).

(** The original ids: what the last loop has copied when it has returned. *)
Lemma collect_renumber_content (parent : t) (renumber : list Z) :
  collect_renumber requested parent = Ok renumber ->
  vsize renumber = child_id requested parent (vsize (renumber_ parent))
  /\ (forall v : Z,
        0 <= v < vsize (renumber_ parent) ->
        in_requested requested parent v = true ->
        renumber !! Z.to_nat (child_id requested parent v)
        = renumber_ parent !! Z.to_nat v).
Proof.
  intros Hrun. unfold collect_renumber in Hrun.
  apply (for_up_kept
           (fun (k : Z) (renumber0 : list Z) =>
              vsize renumber0 = child_id requested parent k
              /\ (forall v : Z,
                    0 <= v < k -> in_requested requested parent v = true ->
                    renumber0 !! Z.to_nat (child_id requested parent v)
                    = renumber_ parent !! Z.to_nat v))
           _ 0 (vsize (renumber_ parent)) _ _ (vsize_nonneg _) Hrun).
  - split; [reflexivity | intros v Hv; lia].
  - intros k renumber0 renumber1 Hk [Hsize Hids] Hbody.
    cbv beta in Hbody.
    apply bind_Ok in Hbody as (p & Hp & Hbody).
    apply vget_Ok in Hp as [_ ->].
    change (requested (nth (Z.to_nat k) (partitions_ parent) 0))
      with (in_requested requested parent k) in Hbody.
    pose proof (child_id_succ requested parent k ltac:(lia)) as Hsucc.
    destruct (in_requested requested parent k) eqn:Hsel.
    + apply bind_Ok in Hbody as (r & Hr & Hbody).
      injection Hbody as <-.
      apply vget_lookup in Hr as [_ Hr].
      rewrite vsize_app. change (vsize [r]) with 1.
      split; [lia |].
      intros v Hv Hs.
      destruct (Z.eq_dec v k) as [-> | Hne].
      * rewrite <- Hsize. unfold vsize. rewrite Nat2Z.id.
        rewrite lookup_app_r, Nat.sub_diag by lia. now rewrite Hr.
      * pose proof (child_id_lt requested parent v k ltac:(lia) Hs).
        pose proof (child_id_nonneg requested parent v).
        rewrite lookup_app_l by (unfold vsize in Hsize; lia).
        apply Hids; [lia | exact Hs].
    + injection Hbody as <-. split; [lia |].
      intros v Hv Hs.
      destruct (Z.eq_dec v k) as [-> | Hne]; [congruence |].
      apply Hids; [lia | exact Hs].
Qed.

(** The edges of a vertex lead to vertices. *)
Lemma edges_lead_to_vertices (g : t) (v : Z) :
  well_formed g -> 0 <= v < num_vertices_ g ->
  Forall (fun a => 0 <= a < num_vertices_ g) (adjncy_ g) ->
  Forall (fun e => 0 <= fst e < num_vertices_ g) (edges g v).
Proof.
  intros Hwf Hv Hadj.
  destruct (edges_in_range g v Hwf Hv) as (lo & hi & Hlo & Hhi & Hr & Hend).
  apply vget_Ok in Hlo as [_ Hlo]. apply vget_Ok in Hhi as [_ Hhi].
  unfold edges, degree, offset_of. rewrite <- Hlo, <- Hhi.
  apply Forall_forall. intros e He.
  apply list_elem_of_fmap in He as (edge & -> & Hedge).
  apply elem_of_seqZ in Hedge. cbn [fst].
  destruct (lookup_in_range (adjncy_ g) edge) as [a Ha]; [lia |].
  rewrite (nth_lookup_Some _ _ _ _ Ha).
  exact (proj1 (Forall_lookup _ _) Hadj _ _ Ha).
Qed.

(** X9. The graph of the requested partitions of a partitioned graph is the
    part of the parent on the vertices of these partitions. It is a graph in
    compressed form without a partitioning; its vertices are the vertices of
    the requested partitions in increasing order, [child_id] giving the new id
    of each. The edges of a vertex are its edges inside the requested
    partitions, in their order and with their weights, the adjacent vertices
    under their new ids; its weight is its weight in the parent and the
    weight less one of each of its edges that leave the requested
    partitions. [renumber_] has the original id of a vertex when the parent
    has one for it, so that, when the parent has an original id for every
    vertex, [getOriginalVertexId] gives for a vertex of the child what it
    gives for its vertex in the parent. *)
Theorem subgraph_is_induced (parent : t) (Hparent : partitioned parent) :
  exists child : t,
    subgraph requested parent = Ok child
    /\ well_formed child
    /\ (partitions_ child, part_weights_ child, num_parts_ child)
       = ([], [], 0)
    /\ num_vertices_ child
       = child_id requested parent (num_vertices_ parent)
    /\ (forall c : Z,
          0 <= c < num_vertices_ child ->
          exists v : Z,
            0 <= v < num_vertices_ parent
            /\ in_requested requested parent v = true
            /\ child_id requested parent v = c)
    /\ (forall v : Z,
          0 <= v < num_vertices_ parent ->
          in_requested requested parent v = true ->
          0 <= child_id requested parent v < num_vertices_ child
          /\ edges child (child_id requested parent v)
             = map (fun e => (child_id requested parent (fst e), snd e))
                 (internal_edges requested parent v)
          /\ vwgt_ child !! Z.to_nat (child_id requested parent v)
             = Some (nth (Z.to_nat v) (vwgt_ parent) 0
                     + total
                         (map (fun e => snd e - 1)
                            (external_edges requested parent v))))
    /\ vsize (renumber_ child)
       = child_id requested parent (vsize (renumber_ parent))
    /\ (forall v : Z,
          0 <= v < vsize (renumber_ parent) ->
          in_requested requested parent v = true ->
          renumber_ child !! Z.to_nat (child_id requested parent v)
          = renumber_ parent !! Z.to_nat v)
    /\ (vsize (renumber_ parent) = num_vertices_ parent ->
        forall v : Z,
          0 <= v < num_vertices_ parent ->
          in_requested requested parent v = true ->
          getOriginalVertexId child (child_id requested parent v)
          = getOriginalVertexId parent v).
Proof.
  destruct (subgraph_ok requested parent Hparent)
    as (child & Hrun & Hwf & _ & _ & _ & Hnone).
  exists child. split; [exact Hrun |]. split; [exact Hwf |].
  split; [exact Hnone |].
  unfold subgraph in Hrun.
  apply bind_Ok in Hrun as ([[[[[m n] X] A] VW] W] & Hcollect & Hrun).
  apply bind_Ok in Hrun as (renumber & Hrenumber & Hrun).
  injection Hrun as <-.
  cbn [num_vertices_ renumber_ vwgt_].
  destruct (collect_vertices_content requested parent m n X A VW W Hparent
              Hcollect) as (Hn & HX & HW & Hm & Hslots).
  destruct (collect_renumber_content parent renumber Hrenumber)
    as (Hsize & Hids).
  pose proof Hparent as (Hwfp & Hparts & Hadj & Hren).
  assert (Hnv : 0 <= num_vertices_ parent)
    by (rewrite <- Hparts; apply vsize_nonneg).
  split; [exact Hn |].
  split; [rewrite Hn; now apply child_id_onto |].
  split; [| split; [exact Hsize | split; [exact Hids |]]].
  - intros v Hv Hs.
    pose proof (child_id_lt requested parent v _ Hv Hs) as Hlt.
    pose proof (child_id_nonneg requested parent v) as Hnn.
    destruct (Hslots v Hv Hs)
      as (lo & hi & Hlo & Hhi & Hr & HhiA & Hslice & Hvw).
    split; [lia |]. split; [| exact Hvw].
    unfold edges, degree, offset_of. cbn [xadj_ adjncy_ adjwgt_].
    rewrite (nth_lookup_Some _ _ _ _ Hlo), (nth_lookup_Some _ _ _ _ Hhi).
    rewrite <- Hslice, map_map.
    apply map_ext_in. intros edge Hedge.
    apply list_elem_of_In, elem_of_seqZ in Hedge. cbn [fst snd].
    destruct (lookup_in_range A edge) as [a Ha]; [lia |].
    unfold renumber_ids.
    rewrite (nth_lookup_Some (map _ A) _ 0 (default 0 (m !! a)))
      by now rewrite list_lookup_fmap, Ha.
    rewrite (nth_lookup_Some _ _ _ _ Ha). f_equal.
    (* the adjacent vertex is a vertex of the requested partitions *)
    assert (Hin : elem_of (a, nth (Z.to_nat edge) W 0)
                    (internal_edges requested parent v)).
    { rewrite <- Hslice. apply list_elem_of_fmap. exists edge.
      split; [now rewrite (nth_lookup_Some _ _ _ _ Ha) |].
      apply elem_of_seqZ. lia. }
    unfold internal_edges in Hin.
    apply list_elem_of_In, List.filter_In in Hin as [Hin Hsa].
    apply list_elem_of_In in Hin.
    pose proof (edges_lead_to_vertices parent v Hwfp Hv Hadj) as Hlead.
    rewrite Forall_forall in Hlead. specialize (Hlead _ Hin).
    cbn [fst] in Hlead, Hsa.
    now rewrite (proj2 (Hm a (child_id requested parent a))
                   (conj Hlead (conj Hsa eq_refl))).
  - intros Hfull v Hv Hs. rewrite Hfull in Hsize, Hids.
    pose proof (child_id_lt requested parent v _ Hv Hs) as Hlt.
    pose proof (child_id_nonneg requested parent v) as Hnn.
    destruct (lookup_in_range (renumber_ parent) v) as [r Hr]; [lia |].
    unfold getOriginalVertexId. cbn [renumber_].
    destruct (Z.eqb_spec (vsize renumber) 0) as [Hz | _]; [lia |].
    destruct (Z.eqb_spec (vsize (renumber_ parent)) 0) as [Hz | _]; [lia |].
    cbn [negb].
    rewrite (vget_of_lookup (renumber_ parent) v r ltac:(lia) Hr).
    rewrite (vget_of_lookup renumber _ r Hnn)
      by (rewrite Hids by (lia || assumption); exact Hr).
    reflexivity.
Qed.

End SubgraphVertices.

Lemma subgraph_is_induced_witness :
  exists child : MetisGraph.t,
    MetisGraph.of_partitions partitioned_triangle [0] = Ok child
    /\ well_formed child
    /\ MetisGraph.num_vertices_ child = 2
    /\ edges child 1 = [(0, 3)]
    /\ MetisGraph.vwgt_ child !! 1%nat = Some 8
    /\ MetisGraph.getOriginalVertexId child 1 = Ok 20.
Proof.
  destruct (subgraph_is_induced
              (fun p => existsb (fun partn => partn =? MetisGraph.to_size_t p)
                          [0])
              partitioned_triangle partitioned_partitioned_triangle)
    as (child & Hrun & Hwf & _ & Hn & _ & Hvertex & _ & _ & Hid).
  destruct (Hvertex 1 ltac:(simpl; lia) eq_refl) as (_ & Hedges & Hweight).
  specialize (Hid eq_refl 1 ltac:(simpl; lia) eq_refl).
  exists child.
  split; [exact Hrun |]. split; [exact Hwf |]. split; [exact Hn |].
  split; [exact Hedges |]. split; [exact Hweight | exact Hid].
Defined.

(** ** The METIS graph: the partitions of a partitioned graph as graphs *)

Section PartitionsAsGraphs.

Import MetisGraph.

Context (sizeof_idx_t : nat) (METIS_PartGraphKway : metis_partitioner).

(** X14. A graph that [partitionGraph] has partitioned can be taken apart: the
    constructor of the graph of one partition returns for every partition below
    the number of parts, with a graph in compressed form that has the vertices
    METIS put into this partition; for a partition from the number of parts on
    it is an assertion failure. *)
Theorem partitionGraph_then_of_partition
    (g : t) (num_parts : Z) (imbalance : float) (edge_cut : Z)
    (parts : list Z)
    (Hwf : well_formed g)
    (Hadj : Forall (fun a => 0 <= a < num_vertices_ g) (adjncy_ g))
    (Hren : vsize (renumber_ g) <= num_vertices_ g)
    (Hnv : 0 < num_vertices_ g < 2 ^ 64)
    (Hnp : 0 < num_parts)
    (Hfit : to_idx_t sizeof_idx_t num_parts = num_parts)
    (Himb : (1 <=? imbalance)%float = true)
    (Hmetis : METIS_PartGraphKway (num_vertices_ g) 1 (xadj_ g) (adjncy_ g)
                (vwgt_ g) (adjwgt_ g) (Z.min num_parts (num_vertices_ g))
                imbalance
                (resize (if 0 <? num_parts_ g then [] else partitions_ g)
                   (num_vertices_ g))
              = (METIS_OK, edge_cut, parts))
    (Hlen : vsize parts = num_vertices_ g)
    (Hrange : Forall
                (fun p => 0 <= p < Z.min num_parts (num_vertices_ g))
                parts)
    (Heven : Z.even (cross_ends g parts) = true) :
  exists g' : t,
    partitionGraph sizeof_idx_t METIS_PartGraphKway g num_parts imbalance
    = Ok (true, g')
    /\ (forall p : Z,
          0 <= p < Z.min num_parts (num_vertices_ g) ->
          exists child : t,
            of_partition g' p = Ok child
            /\ well_formed child
            /\ num_vertices_ child
               = Z.of_nat (length (List.filter (fun q => q =? p) parts)))
    /\ (forall p : Z,
          Z.min num_parts (num_vertices_ g) <= p ->
          of_partition g' p = Err AssertionFailed).
Proof.
  destruct (partitionGraph_ok sizeof_idx_t METIS_PartGraphKway g num_parts
              imbalance edge_cut parts Hwf Hadj Hnv Hnp Hfit Himb Hmetis Hlen
              Hrange)
    as (part_weights & Hrun & _).
  rewrite Heven in Hrun. eexists. split; [exact Hrun |].
  assert (Hsmall : to_size_t (Z.min num_parts (num_vertices_ g))
                   = Z.min num_parts (num_vertices_ g))
    by (unfold to_size_t; apply Z.mod_small; lia).
  split.
  - intros p Hp.
    destruct (subgraph_ok (fun q => to_size_t q =? p)
                (mk (num_vertices_ g) (renumber_ g) (xadj_ g) (adjncy_ g)
                   (vwgt_ g) (adjwgt_ g) parts part_weights edge_cut
                   (cross_ends g parts / 2)
                   (Z.min num_parts (num_vertices_ g))))
      as (child & Hchild & Hwfc & Hcount & _).
    { unfold partitioned.
      cbn [num_vertices_ partitions_ adjncy_ renumber_].
      split; [exact Hwf | split; [exact Hlen | split; assumption]]. }
    exists child. unfold of_partition. cbn [num_parts_]. rewrite Hsmall.
    destruct (Z.ltb_spec p (Z.min num_parts (num_vertices_ g))); [| lia].
    split; [exact Hchild | split; [exact Hwfc |]].
    rewrite Hcount. cbn [partitions_]. do 2 f_equal.
    apply List.filter_ext_in. intros q Hq.
    rewrite Forall_forall in Hrange.
    apply list_elem_of_In in Hq. specialize (Hrange q Hq).
    unfold to_size_t. rewrite Z.mod_small by lia. reflexivity.
  - intros p Hp. unfold of_partition. cbn [num_parts_]. rewrite Hsmall.
    destruct (Z.ltb_spec p (Z.min num_parts (num_vertices_ g)));
      [lia | reflexivity].
Qed.

End PartitionsAsGraphs.

Lemma partitionGraph_then_of_partition_witness :
  exists g' : MetisGraph.t,
    MetisGraph.partitionGraph 8 splitting_partitioner
      (MetisGraph.clearPartitions partitioned_triangle) 2 1.5
    = Ok (true, g')
    /\ MetisGraph.of_partition g' 0 = Ok first_partition
    /\ MetisGraph.of_partition g' 2 = Err AssertionFailed.
Proof.
  destruct (partitionGraph_then_of_partition 8 splitting_partitioner
              (MetisGraph.clearPartitions partitioned_triangle) 2 1.5 12
              [0; 0; 1])
    as (g' & Hrun & Hchild & Hnone).
  - unfold well_formed, sizes_ok. repeat split; try reflexivity.
    concrete_monotone.
  - repeat constructor; simpl; lia.
  - simpl. unfold vsize. simpl. lia.
  - simpl. lia.
  - lia.
  - reflexivity.
  - reflexivity.
  - reflexivity.
  - reflexivity.
  - repeat constructor; simpl; lia.
  - reflexivity.
  - exists g'. split; [exact Hrun |].
    assert (Hg : MetisGraph.partitionGraph 8 splitting_partitioner
                   (MetisGraph.clearPartitions partitioned_triangle) 2 1.5
                 = Ok (true, partitioned_triangle))
      by (vm_compute; reflexivity).
    rewrite Hg in Hrun. injection Hrun as <-.
    split; vm_compute; reflexivity.
Defined.

(** ** Connected tensors: a leg appended and deleted again *)

Section AppendedLeg.

Import TensorConn.

Context (deleteDimension : Tensor.t -> Z -> Tensor.t)
        (appendDimension : Tensor.t -> Z * Z -> Z -> Tensor.t).

(** X21. An appended leg is the last one: [getTensorLeg] returns it at the old
    number of legs and the legs before it as they were, and deleting the leg at
    that position gives back the legs, the id and the flags the connected
    tensor had. *)
Theorem appendLeg_last (x : t) (subspace : Z * Z) (dim_extent : Z)
    (tensor_leg : TensorLeg.t) :
  let n := Z.of_nat (length (legs_ x)) in
  let y := appendLeg appendDimension x subspace dim_extent tensor_leg in
  getTensorLeg y n = Ok tensor_leg
  /\ (forall i : Z, 0 <= i < n -> getTensorLeg y i = getTensorLeg x i)
  /\ exists z : t,
       deleteLeg deleteDimension y n = Ok z
       /\ (id_ z, legs_ z, conjugated_ z, optimizable_ z)
          = (id_ x, legs_ x, conjugated_ x, optimizable_ x).
Proof.
  intros n y. subst n y. unfold appendLeg, getTensorLeg, deleteLeg.
  cbn [legs_ id_ conjugated_ optimizable_ tensor_].
  rewrite length_app. cbn [length].
  assert (Hlt : (Z.of_nat (length (legs_ x))
                 <? Z.of_nat (length (legs_ x) + 1)) = true)
    by (apply Z.ltb_lt; lia).
  rewrite Hlt. cbn [assert bind].
  split; [| split].
  - unfold leg_at. rewrite Nat2Z.id, lookup_app_r by lia.
    rewrite Nat.sub_diag. cbn.
    destruct (Z.leb_spec 0 (Z.of_nat (length (legs_ x)))); [reflexivity | lia].
  - intros i Hi.
    destruct (Z.ltb_spec i (Z.of_nat (length (legs_ x) + 1))); [| lia].
    destruct (Z.ltb_spec i (Z.of_nat (length (legs_ x)))); [| lia].
    cbn [assert bind]. unfold leg_at. rewrite lookup_app_l by lia.
    reflexivity.
  - eexists. split; [reflexivity |].
    cbn [legs_ id_ conjugated_ optimizable_]. rewrite Nat2Z.id.
    rewrite delete_middle, app_nil_r. reflexivity.
Qed.

End AppendedLeg.

(** ** The reconstructor: a tolerance below every gradient norm *)

(** Comparisons with 0.0 in binary64. *)
Lemma below_negative (a b : float) :
  (a <? b)%float = true -> (b <? 0)%float = true -> (a <? 0)%float = true.
Proof.
  rewrite !ltb_spec.
  change (Prim2SF 0) with (S754_zero false).
  destruct (Prim2SF a) as [[] | [] | | [] ma ea],
           (Prim2SF b) as [[] | [] | | [] mb eb];
    cbn; intros Hab Hb; try reflexivity; discriminate.
Qed.

Lemma within_negative (a t : float) :
  (a <=? t)%float = true -> (0 <=? t)%float = false ->
  (a <? 0)%float = true.
Proof.
  rewrite !leb_spec, ltb_spec.
  change (Prim2SF 0) with (S754_zero false).
  destruct (Prim2SF a) as [[] | [] | | [] ma ea],
           (Prim2SF t) as [[] | [] | | [] mt et];
    cbn; intros Hat Ht; try reflexivity; discriminate.
Qed.

Section ToleranceFacts.

Import Reconstructor.

Context (B : Backend).

(** The largest gradient norm of a sweep is never below 0.0: it starts at
    0.0 and is only ever replaced by a larger value. *)
Lemma gradient_sweep_not_negative (s : t) (environments : list Environment) :
  forall (max_grad max_grad' : float) (w w' : World B),
    gradient_sweep B s environments (max_grad, w) = Ok (max_grad', w') ->
    (max_grad <? 0)%float = false -> (max_grad' <? 0)%float = false.
Proof.
  induction environments as [| environment rest IH];
    intros max_grad max_grad' w w' Hsweep Hstart.
  - injection Hsweep as <- <-. exact Hstart.
  - cbn [gradient_sweep] in Hsweep.
    apply bind_Ok in Hsweep as ([max_grad1 w1] & Hstep & Hsweep).
    apply (IH _ _ _ _ Hsweep).
    unfold gradient_step in Hstep.
    apply bind_Ok in Hstep as (w2 & _ & Hstep).
    apply bind_Ok in Hstep as (w3 & _ & Hstep).
    apply bind_Ok in Hstep as (w4 & _ & Hstep).
    apply bind_Ok in Hstep as ([grad_maxabs w5] & _ & Hstep).
    cbv zeta in Hstep.
    apply bind_Ok in Hstep as (w6 & _ & Hstep).
    apply bind_Ok in Hstep as (w7 & _ & Hstep).
    injection Hstep as <- <-.
    destruct (max_grad <? grad_maxabs)%float eqn:Hlarger; [| exact Hstart].
    destruct (grad_maxabs <? 0)%float eqn:Hneg; [| reflexivity].
    now rewrite (below_negative _ _ Hlarger Hneg) in Hstart.
Qed.

(** The loop is not left when the tolerance is not at least 0.0. *)
Lemma optimize_not_left (s : t) (residual : expansion) :
  (0 <=? tolerance_ s)%float = false ->
  forall (fuel : nat) (iteration : Z) (w : World B),
    exists f : fault, optimize B fuel s residual iteration w = Err f.
Proof.
  intros Htol. induction fuel as [| fuel IH]; intros iteration w.
  - exists OutOfFuel. reflexivity.
  - cbn [optimize].
    destruct (gradient_sweep B s (environments_ s) (0%float, w))
      as [[max_grad w1] | f] eqn:Hsweep; [| exists f; reflexivity].
    cbn [bind].
    destruct (read_scalar B residual w1) as [[residual_norm2 w2] | f];
      [| exists f; reflexivity].
    cbn [bind].
    destruct (max_grad <=? tolerance_ s)%float eqn:Hconv; [| apply IH].
    pose proof (gradient_sweep_not_negative s _ _ _ _ _ Hsweep eq_refl)
      as Hnn.
    now rewrite (within_negative _ _ Hconv Htol) in Hnn.
Qed.

(** X25. [reconstruct] needs a tolerance of at least 0.0. The largest
    gradient norm of a sweep is never below 0.0, and the loop is left only by
    a sweep whose largest gradient norm is at most the tolerance: with a
    tolerance that is negative or not a number, and an optimizable tensor in
    the approximant, [reconstruct] never returns, whatever the numerical
    server does and however much fuel it is given: it ends in a failed
    assertion or runs out of fuel. Neither the constructor nor
    [resetTolerance] refuses such a tolerance. *)
Theorem reconstruct_needs_tolerance
    (fuel : nat) (s : t) (w : World B)
    (Htol : (0 <=? tolerance_ s)%float = false)
    (Hopt : Exists (fun tensor => TensorConn.isOptimizable tensor = true)
              (tensors_of (approximant_ s))) :
  (exists f : fault, reconstruct B fuel s w = Err f)
  /\ (forall tolerance : float,
        tolerance_ (resetTolerance s tolerance) = tolerance).
Proof.
  split; [| reflexivity].
  assert (Henv : environments_ (with_environments s) <> []).
  { cbn [with_environments environments_].
    destruct (prepare_environments_added (lagrangian s) (approximant_ s))
      as (names & added & Hadded & Hnames & _ & Hin & _).
    rewrite Hadded. intros Hnil.
    apply app_eq_nil in Hnil as [_ ->].
    apply Exists_exists in Hopt as (tensor & Htensor & Hoptimizable).
    assert (Hname : In (TensorConn.getName tensor) names).
    { apply Hin. exists tensor. repeat split; try assumption.
      now apply list_elem_of_In. }
    destruct names as [| name names]; [exact Hname |].
    cbn in Hnames. symmetry in Hnames.
    apply app_eq_nil in Hnames as [_ Hnames]. discriminate. }
  unfold reconstruct. cbv zeta.
  destruct (environments_ (with_environments s))
    as [| environment0 rest]; [congruence |].
  destruct (asserted _) as [w1 | f]; [| exists f; reflexivity].
  cbn [bind].
  destruct (read_scalar B _ w1) as [[input_expansion_norm w2] | f];
    [| exists f; reflexivity].
  cbn [bind].
  destruct (optimize_not_left (with_environments s)
              (residual (with_environments s)) Htol fuel 0 w2)
    as [f Hloop].
  rewrite Hloop. exists f. reflexivity.
Qed.

End ToleranceFacts.

Lemma reconstruct_needs_tolerance_witness :
  exists f : fault,
    Reconstructor.reconstruct (ScalarServer.server 2 1) 50
      (ScalarServer.reconstructor 1000 0.5 (-0.25))
      (ScalarServer.mk_world 1 0 0)
    = Err f.
Proof.
  apply (reconstruct_needs_tolerance (ScalarServer.server 2 1) 50
           (ScalarServer.reconstructor 1000 0.5 (-0.25))
           (ScalarServer.mk_world 1 0 0)).
  - reflexivity.
  - apply Exists_cons_tl, Exists_cons_hd. reflexivity.
Defined.
